(** * LocalConsensus: the single-node consensus engine of kudu

    A shallow embedding of [src/kudu/consensus/local_consensus.cc].

    The engine is a C++ object with a spinlock, a counter, a lifecycle state
    and an in-memory copy of the consensus metadata.  Its methods talk to
    collaborators that live in other files of the repository (the log, the
    transaction factory, the metadata flush, the quorum validator).  The
    methods are embedded as computations in a small state monad with three
    ways out of a statement: fall through with a value, [return] a [Status]
    from the enclosing method, or abort the process ([CHECK] failure).  A
    fourth outcome, [Spin], stands for a caller that finds the spinlock
    taken and never gets it.  Every action on the lock, the engine's fields
    and the collaborators is put on record, so that statements about what
    comes before what can be made.  The counter, the indices and the
    sequence numbers are 64-bit integers whose additions wrap around.

    The collaborators are parameters of the engine; module [Sim] has an
    instance for concrete runs.  The last part of the development puts
    several callers of [Replicate] and [Commit] on one engine and lets them
    move in any order. *)

From Stdlib Require Import ZArith List String Bool Lia Sorted.
Import ListNotations.

Set Implicit Arguments.

(** ** Status *)

(** Modelled from the spec: the kinds of failure a [Status] can carry
    ([kudu/util/status.h] is not part of the source tree): an invalid quorum,
    an unsupported operation, a log or storage error, and any other error a
    collaborator may answer with. *)
Inductive ErrorKind := NotSupported | InvalidQuorum | StorageError | RuntimeError.

(** Modelled from the spec: [Status] (same header): success, or a failure of
    some kind with a message. *)
Inductive Status :=
| OK
| Err (kind : ErrorKind) (msg : string).

Definition ok (s : Status) : bool :=
  match s with OK => true | Err _ _ => false end.

(** [Status::CloneAndPrepend], which [RETURN_NOT_OK_PREPEND] applies to a
    failure before returning it: same kind, message prefixed. *)
Definition CloneAndPrepend (prefix : string) (s : Status) : Status :=
  match s with
  | OK => OK
  | Err k m => Err k (prefix ++ ": " ++ m)
  end.

Definition kind_of (s : Status) : option ErrorKind :=
  match s with OK => None | Err k _ => Some k end.

(** ** 64-bit integers *)

(** Modelled from the spec: the integers of the op-ids, of the sequence
    numbers and of the engine's counter.  The spec's data model says
    integer; the declarations ([opid.proto], [metadata.proto] and
    [local_consensus.h]) are not part of the source tree.  They are taken to
    be the signed 64-bit integers these fields have upstream ([int64] in the
    protobuf messages, [int64_t next_op_id_index_] in the class).  A value
    of the type is an integer between [int64_min] and [int64_max], and the
    additions of the source wrap around as the machine's two's-complement
    addition does: one more than the largest value is the smallest. *)
Definition int64_min : Z := (- 2 ^ 63)%Z.
Definition int64_max : Z := (2 ^ 63 - 1)%Z.

Definition wrap64 (z : Z) : Z := ((z + 2 ^ 63) mod 2 ^ 64 - 2 ^ 63)%Z.

(** [a + b] on [int64_t]. *)
Definition add64 (a b : Z) : Z := wrap64 (a + b).

Arguments wrap64 : simpl never.
Arguments add64 : simpl never.

(** ** Protobuf messages *)

(** Modelled from the spec: the roles of a peer ([metadata.proto] is not
    part of the source tree; the source names [LEADER] only). *)
Inductive Role := FOLLOWER | LEADER | CANDIDATE | LEARNER | NON_PARTICIPANT.

(** Modelled from the spec: a peer of a quorum, with an identity and a role
    (same file). *)
Record QuorumPeerPB := mkPeer {
  permanent_uuid : string;
  role_field : option Role       (* optional field: [has_role] / [role] *)
}.

(** Getter of the optional enum field: the enum's default when unset, taken
    to be [FOLLOWER]. *)
Definition role_of (p : QuorumPeerPB) : Role :=
  match role_field p with Some r => r | None => FOLLOWER end.

Definition set_role (r : Role) (p : QuorumPeerPB) : QuorumPeerPB :=
  {| permanent_uuid := permanent_uuid p; role_field := Some r |}.

(** Modelled from the spec: a quorum, that is a list of peers, a sequence
    number and a locality flag (same file). *)
Record QuorumPB := mkQuorum {
  peers : list QuorumPeerPB;
  seqno : Z;
  local : bool
}.

Definition set_seqno (n : Z) (q : QuorumPB) : QuorumPB :=
  {| peers := peers q; seqno := n; local := local q |}.

Definition set_peers (ps : list QuorumPeerPB) (q : QuorumPB) : QuorumPB :=
  {| peers := ps; seqno := seqno q; local := local q |}.

(** Modelled from the spec: the persisted record around the committed
    quorum ([ConsensusMetadata], not part of the source tree). *)
Record ConsensusMetadataPB := mkMetaPB {
  committed_quorum : QuorumPB
}.

(** Modelled from the spec: an op-id, a term and an index ([opid.proto] is
    not part of the source tree).  Terms and indices are 64-bit integers,
    as the sequence number of a quorum is. *)
Record OpId := mkOpId { term : Z; index : Z }.

(** Modelled from the spec: an operation of the log, REPLICATE or COMMIT,
    with the op-id it has been given ([consensus.proto] is not part of the
    source tree). *)
Record OperationPB := mkOp {
  id : option OpId;              (* [has_id] / [id] / [mutable_id] *)
  replicate : option string;     (* payload of a REPLICATE operation *)
  commit : option string         (* payload of a COMMIT operation: [has_commit] *)
}.

(** [mutable_id()] makes the field present (zero-initialised) if it is not. *)
Definition mutable_id (op : OperationPB) : OpId :=
  match id op with Some i => i | None => mkOpId 0 0 end.

Definition with_id (i : OpId) (op : OperationPB) : OperationPB :=
  {| id := Some i; replicate := replicate op; commit := commit op |}.

Definition set_term (t : Z) (op : OperationPB) : OperationPB :=
  with_id (mkOpId t (index (mutable_id op))) op.

Definition set_index (i : Z) (op : OperationPB) : OperationPB :=
  with_id (mkOpId (term (mutable_id op)) i) op.

Definition has_commit (op : OperationPB) : bool :=
  match commit op with Some _ => true | None => false end.

Definition LogEntryBatchPB := list OperationPB.

(** Modelled from the spec: [log::CreateBatchFromAllocatedOperations(&op, 1,
    &entry_batch)] (not part of the source tree) builds the batch of the
    single operation. *)
Definition CreateBatchFromAllocatedOperations (op : OperationPB) : LogEntryBatchPB := [op].

(** Modelled from the spec: the recovery information [Start] is given, of
    which it reads the last known op-id. *)
Record ConsensusBootstrapInfo := mkInfo { last_id : OpId }.

(** ** Callbacks and rounds *)

(** A [FutureCallback] object, by identity. *)
Definition FutureCallback := nat.

(** What [AsStatusCallback()] hands to a collaborator. *)
Inductive StatusCallback :=
| FutureStatusCallback (cb : FutureCallback)
| NullStatusCallback.

(** Modelled from the spec: a [ConsensusRound] ([consensus.h] is not part of
    the source tree) bundles the two operations and the two callbacks.  Every
    member is a smart pointer that may be empty. *)
Record ConsensusRound := mkRound {
  replicate_op_ : option OperationPB;
  commit_op_ : option OperationPB;
  replicate_callback_ : option FutureCallback;
  commit_callback_ : option FutureCallback
}.

Definition set_replicate_op (op : OperationPB) (r : ConsensusRound) : ConsensusRound :=
  {| replicate_op_ := Some op; commit_op_ := commit_op_ r;
     replicate_callback_ := replicate_callback_ r;
     commit_callback_ := commit_callback_ r |}.

(** Modelled from the spec: [ConsensusRound::release_commit_callback]
    ([consensus.h] is not part of the source tree).  The extraction takes the
    round's callback by move and leaves the round's slot empty. *)
Definition release_commit_callback (r : ConsensusRound)
  : option FutureCallback * ConsensusRound :=
  (commit_callback_ r,
   {| replicate_op_ := replicate_op_ r; commit_op_ := commit_op_ r;
      replicate_callback_ := replicate_callback_ r;
      commit_callback_ := None |}).

(** Handle to a reserved slot of the log ([LogEntryBatch*]). *)
Definition LogEntryBatch := nat.

(** ** The engine object *)

(** Modelled from the spec: the lifecycle states, in the order that
    [DCHECK_GE(state_, kConfiguring)] relies on ([consensus.h]). *)
Inductive State := kInitializing | kConfiguring | kRunning.

Definition State_rank (s : State) : nat :=
  match s with kInitializing => 0 | kConfiguring => 1 | kRunning => 2 end.

Definition State_eqb (a b : State) : bool := Nat.eqb (State_rank a) (State_rank b).
Definition State_geb (a b : State) : bool := Nat.leb (State_rank b) (State_rank a).

(** The members of the class that the methods of the source file use
    ([local_consensus.h] is not part of the source tree). *)
Record LocalConsensus := mkLC {
  peer_uuid_ : string;
  cmeta_ : ConsensusMetadataPB;
  next_op_id_index_ : Z;
  state_ : State;
  lock_ : bool                   (* [simple_spinlock]: taken or free *)
}.

(** The constructor's initialiser list, for a metadata object that is there
    (the constructor's [CHECK]). *)
Definition new_LocalConsensus (cmeta : ConsensusMetadataPB) (peer_uuid : string)
  : LocalConsensus :=
  {| peer_uuid_ := peer_uuid; cmeta_ := cmeta;
     next_op_id_index_ := (-1)%Z; state_ := kInitializing; lock_ := false |}.

(** ** Observable actions

    Each action of a method on the lock, on the engine's fields or on a
    collaborator is recorded, in program order. *)

(** The two phases of a logged operation. *)
Inductive Phase := REPLICATE | COMMIT.

Inductive Event :=
| EvLock
| EvUnlock
| EvVerifyQuorum (q : QuorumPB) (s : Status)
| EvSetNextIndex (i : Z)
| EvSetState (s : State)
| EvSubmit (q : QuorumPB) (cb : StatusCallback) (s : Status)
| EvByteSize (op : OperationPB)
| EvAssign (i : Z)
| EvReserve (ph : Phase) (b : LogEntryBatchPB) (s : Status)
| EvAsyncAppend (slot : LogEntryBatch) (cb : StatusCallback) (s : Status)
| EvReleaseCommitCallback (cb : option FutureCallback)
| EvReplaceQuorum (q : QuorumPB)
| EvFlush (s : Status).

(** A pointer to a round. *)
Definition RoundPtr := nat.

Record World (Ext : Type) := mkWorld {
  self : LocalConsensus;
  rounds : RoundPtr -> option ConsensusRound;
  ext : Ext;                     (* state of the collaborators *)
  trace : list Event
}.

(** ** Collaborators

    What the methods call and the source tree does not contain is a
    parameter of the engine: [VerifyQuorum], [Log::Reserve] and
    [Log::AsyncAppend], [ReplicaTransactionFactory::SubmitConsensusChangeConfig]
    and [ConsensusMetadata::Flush].  Each of the stateful ones answers with a
    status and leaves the collaborators in a new state.  [dchecks] says
    whether the build keeps its [DCHECK]s. *)

Class Collaborators (Ext : Type) := {
  dchecks : bool;
  VerifyQuorum : QuorumPB -> Status;
  Log_Reserve : LogEntryBatchPB -> Ext -> Status * LogEntryBatch * Ext;
  Log_AsyncAppend : LogEntryBatch -> StatusCallback -> Ext -> Status * Ext;
  SubmitConsensusChangeConfig : QuorumPB -> StatusCallback -> Ext -> Status * Ext;
  Flush : ConsensusMetadataPB -> Ext -> Status * Ext
}.

(** ** The monad *)

Inductive Res (A : Type) :=
| Val (a : A)                    (* fall through *)
| Return (s : Status)            (* [return s;] from the enclosing method *)
| Abort (why : string)           (* the process dies *)
| Spin.                          (* waits for the lock for ever *)

Arguments Return {A} s.
Arguments Abort {A} why.
Arguments Spin {A}.

Definition M (S A : Type) := S -> Res A * S.

(** The kind of error a method has returned, if it has returned one. *)
Definition kind_of_result (r : Res Status) : option ErrorKind :=
  match r with
  | Val s => kind_of s
  | _ => None
  end.

Definition ret {S A} (a : A) : M S A := fun w => (Val a, w).

Definition bind {S A B} (m : M S A) (f : A -> M S B) : M S B :=
  fun w =>
    match m w with
    | (Val a, w') => f a w'
    | (Return s, w') => (Return s, w')
    | (Abort why, w') => (Abort why, w')
    | (Spin, w') => (Spin, w')
    end.

Declare Scope lc_scope.
Delimit Scope lc_scope with lc.
Notation "x <- m ;; k" := (bind m (fun x => k))
  (at level 61, m at next level, right associativity) : lc_scope.
Notation "m ;; k" := (bind m (fun _ => k))
  (at level 61, right associativity) : lc_scope.
Open Scope lc_scope.

(** A method body: [return s;] inside becomes the method's result. *)
Definition method {S} (body : M S Status) : M S Status :=
  fun w =>
    match body w with
    | (Return s, w') => (Val s, w')
    | r => r
    end.

Definition return_ {S A} (s : Status) : M S A := fun w => (Return s, w).
Definition abort {S A} (why : string) : M S A := fun w => (Abort why, w).

Definition CHECK {S} (b : bool) (why : string) : M S unit :=
  if b then ret tt else abort why.

Definition RETURN_NOT_OK {S} (s : Status) : M S unit :=
  if ok s then ret tt else return_ s.

Definition RETURN_NOT_OK_PREPEND {S} (s : Status) (msg : string) : M S unit :=
  if ok s then ret tt else return_ (CloneAndPrepend msg s).

Section Engine.

Context {Ext : Type} {C : Collaborators Ext}.

#[local] Abbreviation W := (World Ext).

Definition DCHECK (b : bool) (why : string) : M W unit :=
  if dchecks then CHECK b why else ret tt.

(** *** Primitive actions on the world *)

Definition get_self : M W LocalConsensus := fun w => (Val (self w), w).

Definition put_self (c : LocalConsensus) : M W unit :=
  fun w => (Val tt, {| self := c; rounds := rounds w; ext := ext w; trace := trace w |}).

Definition emit (e : Event) : M W unit :=
  fun w => (Val tt, {| self := self w; rounds := rounds w; ext := ext w;
                       trace := trace w ++ [e] |}).

Definition with_lock_flag (b : bool) (c : LocalConsensus) : LocalConsensus :=
  {| peer_uuid_ := peer_uuid_ c; cmeta_ := cmeta_ c;
     next_op_id_index_ := next_op_id_index_ c; state_ := state_ c; lock_ := b |}.

Definition with_next (n : Z) (c : LocalConsensus) : LocalConsensus :=
  {| peer_uuid_ := peer_uuid_ c; cmeta_ := cmeta_ c;
     next_op_id_index_ := n; state_ := state_ c; lock_ := lock_ c |}.

Definition with_state (s : State) (c : LocalConsensus) : LocalConsensus :=
  {| peer_uuid_ := peer_uuid_ c; cmeta_ := cmeta_ c;
     next_op_id_index_ := next_op_id_index_ c; state_ := s; lock_ := lock_ c |}.

Definition with_cmeta (m : ConsensusMetadataPB) (c : LocalConsensus) : LocalConsensus :=
  {| peer_uuid_ := peer_uuid_ c; cmeta_ := m;
     next_op_id_index_ := next_op_id_index_ c; state_ := state_ c; lock_ := lock_ c |}.

(** [simple_spinlock::lock]: a caller that finds the lock taken spins. *)
Definition acquire : M W unit :=
  c <- get_self ;;
  if lock_ c then (fun w => (Spin, w))
  else put_self (with_lock_flag true c) ;; emit EvLock.

Definition release : M W unit :=
  c <- get_self ;;
  put_self (with_lock_flag false c) ;; emit EvUnlock.

(** [boost::lock_guard<simple_spinlock> lock(lock_);] followed by the rest of
    its scope: the destructor releases the lock however the scope is left,
    except when the process aborts. *)
Definition lock_guard {A} (scope : M W A) : M W A :=
  acquire ;;
  fun w =>
    match scope w with
    | (Val a, w') => (release ;; ret a) w'
    | (Return s, w') => (release ;; return_ s) w'
    | r => r
    end.

Definition set_next_op_id_index (n : Z) : M W unit :=
  c <- get_self ;; put_self (with_next n c) ;; emit (EvSetNextIndex n).

Definition set_state (s : State) : M W unit :=
  c <- get_self ;; put_self (with_state s c) ;; emit (EvSetState s).

Definition verify_quorum (q : QuorumPB) : M W Status :=
  let s := VerifyQuorum q in
  emit (EvVerifyQuorum q s) ;; ret s.

Definition txn_submit (q : QuorumPB) (cb : StatusCallback) : M W Status :=
  fun w =>
    let '(s, e) := SubmitConsensusChangeConfig q cb (ext w) in
    (Val s, {| self := self w; rounds := rounds w; ext := e;
               trace := trace w ++ [EvSubmit q cb s] |}).

Definition cmeta_flush : M W Status :=
  fun w =>
    let '(s, e) := Flush (cmeta_ (self w)) (ext w) in
    (Val s, {| self := self w; rounds := rounds w; ext := e;
               trace := trace w ++ [EvFlush s] |}).

(** [new_quorum->mutable_peers(0)->set_role(r)]: index 0 must exist. *)
Definition mutable_peers0_set_role (r : Role) (q : QuorumPB) : M W QuorumPB :=
  match peers q with
  | [] => abort "mutable_peers(0): index out of range"
  | p :: ps => ret (set_peers (set_role r p :: ps) q)
  end.

(** *** [LocalConsensus::Start] *)

Definition Start (info : ConsensusBootstrapInfo) : M W Status :=
  method (
    c <- get_self ;;
    CHECK (State_eqb (state_ c) kInitializing) "Check failed: state_ == kInitializing" ;;
    lock_guard (
      c <- get_self ;;
      let initial_quorum := committed_quorum (cmeta_ c) in
      CHECK (local initial_quorum) "Local consensus must be passed a local quorum" ;;
      s <- verify_quorum initial_quorum ;;
      RETURN_NOT_OK_PREPEND s "Invalid quorum found in LocalConsensus::Start()" ;;
      set_next_op_id_index (add64 (index (last_id info)) 1) ;;
      new_quorum <- mutable_peers0_set_role LEADER initial_quorum ;;
      let new_quorum := set_seqno (add64 (seqno initial_quorum) 1) new_quorum in
      set_state kRunning ;;
      s <- txn_submit new_quorum NullStatusCallback ;;
      RETURN_NOT_OK s ;;
      ret OK)).

(** *** [LocalConsensus::role], [Quorum] *)

Definition role : M W Role :=
  lock_guard (
    c <- get_self ;;
    match peers (committed_quorum (cmeta_ c)) with
    | [] => abort "peers().begin(): empty peer list"
    | p :: _ => ret (role_of p)
    end).

Definition Quorum : M W QuorumPB :=
  lock_guard (c <- get_self ;; ret (committed_quorum (cmeta_ c))).

(** *** [LocalConsensus::Update], [RequestVote] *)

Definition Update : M W Status :=
  method (ret (Err NotSupported "LocalConsensus does not support Update() calls.")).

Definition RequestVote : M W Status :=
  method (ret (Err NotSupported "LocalConsensus does not support RequestVote() calls.")).

(** *** [LocalConsensus::PersistQuorum] *)

Definition PersistQuorum (quorum : QuorumPB) : M W Status :=
  method (
    s <- verify_quorum quorum ;;
    RETURN_NOT_OK_PREPEND s "Invalid quorum passed to LocalConsensus::PersistQuorum()" ;;
    lock_guard (
      c <- get_self ;;
      CHECK (seqno (committed_quorum (cmeta_ c)) <? seqno quorum)%Z
            "Quorum seqnos not monotonic" ;;
      put_self (with_cmeta {| committed_quorum := quorum |} c) ;;
      emit (EvReplaceQuorum quorum) ;;
      cmeta_flush)).

(** *** Rounds, reached through a pointer *)

Definition deref (p : RoundPtr) : M W ConsensusRound :=
  fun w =>
    match rounds w p with
    | Some r => (Val r, w)
    | None => (Abort "null ConsensusRound", w)
    end.

Definition store (p : RoundPtr) (r : ConsensusRound) : M W unit :=
  fun w =>
    (Val tt, {| self := self w;
                rounds := fun q => if Nat.eqb q p then Some r else rounds w q;
                ext := ext w; trace := trace w |}).

(** [DCHECK_NOTNULL(p)] gives the pointer back.  A build with [DCHECK]s
    aborts on a null pointer; without them the null pointer is passed on. *)
Definition DCHECK_NOTNULL {A} (p : option A) : M W (option A) :=
  match p with
  | Some _ => ret p
  | None => if dchecks then abort "Check failed: 'p' Must be non NULL"
            else ret p
  end.

(** [p->...]: the use of a pointer; that of a null pointer kills the
    process. *)
Definition through {A} (p : option A) : M W A :=
  match p with
  | Some a => ret a
  | None => abort "null pointer dereference"
  end.

(** [DCHECK(commit_op->has_commit())]: the condition is evaluated in a build
    with [DCHECK]s only. *)
Definition DCHECK_has_commit (commit_op : option OperationPB) : M W unit :=
  if dchecks
  then op <- through commit_op ;;
       CHECK (has_commit op) "A commit operation must have a commit."
  else ret tt.

(** The round's REPLICATE operation, through the pointer [op]. *)
Definition replicate_op (context : RoundPtr) : M W OperationPB :=
  r <- deref context ;;
  match replicate_op_ r with
  | Some op => ret op
  | None => abort "null pointer dereference"
  end.

Definition update_replicate_op (context : RoundPtr) (f : OperationPB -> OperationPB)
  : M W unit :=
  r <- deref context ;;
  op <- replicate_op context ;;
  store context (set_replicate_op (f op) r).

Definition commit_op (round : RoundPtr) : M W OperationPB :=
  r <- deref round ;;
  match commit_op_ r with
  | Some op => ret op
  | None => abort "null pointer dereference"
  end.

(** [p->AsStatusCallback()] on a [shared_ptr] that may be empty. *)
Definition AsStatusCallback (p : option FutureCallback) : M W StatusCallback :=
  match p with
  | Some cb => ret (FutureStatusCallback cb)
  | None => abort "null pointer dereference"
  end.

Definition log_reserve (ph : Phase) (b : LogEntryBatchPB)
  : M W (Status * LogEntryBatch) :=
  fun w =>
    let '(s, slot, e) := Log_Reserve b (ext w) in
    (Val (s, slot), {| self := self w; rounds := rounds w; ext := e;
                       trace := trace w ++ [EvReserve ph b s] |}).

Definition log_async_append (slot : LogEntryBatch) (cb : StatusCallback) : M W Status :=
  fun w =>
    let '(s, e) := Log_AsyncAppend slot cb (ext w) in
    (Val s, {| self := self w; rounds := rounds w; ext := e;
               trace := trace w ++ [EvAsyncAppend slot cb s] |}).

(** [cur_op_id->set_index(next_op_id_index_++)] *)
Definition assign_next_index (context : RoundPtr) : M W unit :=
  c <- get_self ;;
  let i := next_op_id_index_ c in
  put_self (with_next (add64 i 1) c) ;;
  update_replicate_op context (set_index i) ;;
  emit (EvAssign i).

(** *** [LocalConsensus::Replicate] *)

Definition Replicate (context : RoundPtr) : M W Status :=
  method (
    c <- get_self ;;
    DCHECK (State_geb (state_ c) kConfiguring) "Check failed: state_ >= kConfiguring" ;;
    r <- deref context ;;
    op <- DCHECK_NOTNULL (replicate_op_ r) ;;
    _ <- through op ;;
    update_replicate_op context (set_term 0) ;;
    op <- replicate_op context ;;
    emit (EvByteSize op) ;;
    reserved_entry_batch <- lock_guard (
      assign_next_index context ;;
      op <- replicate_op context ;;
      let entry_batch := CreateBatchFromAllocatedOperations op in
      res <- log_reserve REPLICATE entry_batch ;;
      RETURN_NOT_OK (fst res) ;;
      ret (snd res)) ;;
    r <- deref context ;;
    cb <- AsStatusCallback (replicate_callback_ r) ;;
    s <- log_async_append reserved_entry_batch cb ;;
    RETURN_NOT_OK s ;;
    ret OK).

(** *** [LocalConsensus::Commit] *)

Definition Commit (round : RoundPtr) : M W Status :=
  method (
    r <- deref round ;;
    commit_op_ptr <- DCHECK_NOTNULL (commit_op_ r) ;;
    DCHECK_has_commit commit_op_ptr ;;
    let '(commit_clbk, r') := release_commit_callback r in
    store round r' ;;
    emit (EvReleaseCommitCallback commit_clbk) ;;
    op <- commit_op round ;;
    emit (EvByteSize op) ;;
    reserved_entry_batch <- lock_guard (
      op <- commit_op round ;;
      let entry_batch := CreateBatchFromAllocatedOperations op in
      res <- log_reserve COMMIT entry_batch ;;
      RETURN_NOT_OK (fst res) ;;
      ret (snd res)) ;;
    cb <- AsStatusCallback commit_clbk ;;
    s <- log_async_append reserved_entry_batch cb ;;
    RETURN_NOT_OK s ;;
    ret OK).

(** *** [LocalConsensus::Shutdown], [DumpStatusHtml] *)

Definition Shutdown : M W unit := ret tt.

(** The number printed after ["next op: "], read under the lock. *)
Definition DumpStatusHtml : M W Z :=
  lock_guard (c <- get_self ;; ret (next_op_id_index_ c)).

(** *** Sequences of calls by one caller *)

Inductive Call :=
| CallStart (info : ConsensusBootstrapInfo)
| CallReplicate (context : RoundPtr)
| CallCommit (round : RoundPtr)
| CallPersistQuorum (quorum : QuorumPB)
| CallRole
| CallQuorum
| CallUpdate
| CallRequestVote
| CallShutdown
| CallDumpStatusHtml.

Definition run_call (c : Call) : M W unit :=
  match c with
  | CallStart info => _ <- Start info ;; ret tt
  | CallReplicate context => _ <- Replicate context ;; ret tt
  | CallCommit round => _ <- Commit round ;; ret tt
  | CallPersistQuorum quorum => _ <- PersistQuorum quorum ;; ret tt
  | CallRole => _ <- role ;; ret tt
  | CallQuorum => _ <- Quorum ;; ret tt
  | CallUpdate => _ <- Update ;; ret tt
  | CallRequestVote => _ <- RequestVote ;; ret tt
  | CallShutdown => Shutdown
  | CallDumpStatusHtml => _ <- DumpStatusHtml ;; ret tt
  end.

(** The calls are made one after the other; nothing follows a call that
    kills the process or never returns. *)
Fixpoint run_calls (cs : list Call) (w : W) : W :=
  match cs with
  | [] => w
  | c :: cs' =>
      match run_call c w with
      | (Val _, w') => run_calls cs' w'
      | (_, w') => w'
      end
  end.

(** ** Concurrent callers

    Several threads call [Replicate] and [Commit] on the one engine.  A
    thread's call is cut at every access to what the threads share: the
    statements before the lock, the acquisition of the lock (a thread that
    finds it taken stays where it is), the read of the counter, its
    write-back together with [set_index], the reservation, the release of the
    lock by the guard's destructor, and the hand-over to the log.  A schedule
    says which thread moves next. *)

Inductive Job :=
| JobReplicate (context : RoundPtr)
| JobCommit (round : RoundPtr).

Inductive Control :=
| AtEntry
| AtLock
| AtLoad
| AtStore (i : Z)
| AtReserve
| AtUnlock (res : Status * LogEntryBatch)
| AtAppend (slot : LogEntryBatch)
| Finished (s : Status)
| Dead (why : string).

Record Thread := mkThread {
  job : Job;
  control : Control;
  commit_clbk : option FutureCallback   (* the local of [Commit] *)
}.

(** Lines 72-81 of [Replicate]. *)
Definition replicate_entry (context : RoundPtr) : M W unit :=
  c <- get_self ;;
  DCHECK (State_geb (state_ c) kConfiguring) "Check failed: state_ >= kConfiguring" ;;
  r <- deref context ;;
  op <- DCHECK_NOTNULL (replicate_op_ r) ;;
  _ <- through op ;;
  update_replicate_op context (set_term 0) ;;
  op <- replicate_op context ;;
  emit (EvByteSize op).

(** Line 88, first half: the read of [next_op_id_index_++]. *)
Definition load_next_index : M W Z :=
  c <- get_self ;; ret (next_op_id_index_ c).

(** Line 88, second half: the write-back and [set_index]. *)
Definition store_next_index (context : RoundPtr) (i : Z) : M W unit :=
  c <- get_self ;;
  put_self (with_next (add64 i 1) c) ;;
  update_replicate_op context (set_index i) ;;
  emit (EvAssign i).

(** Lines 92-95 of [Replicate]. *)
Definition replicate_reserve (context : RoundPtr) : M W (Status * LogEntryBatch) :=
  op <- replicate_op context ;;
  log_reserve REPLICATE (CreateBatchFromAllocatedOperations op).

(** Lines 100-102 of [Replicate]. *)
Definition replicate_append (context : RoundPtr) (slot : LogEntryBatch) : M W Status :=
  r <- deref context ;;
  cb <- AsStatusCallback (replicate_callback_ r) ;;
  log_async_append slot cb.

(** Lines 122-137 of [Commit]. *)
Definition commit_entry (round : RoundPtr) : M W (option FutureCallback) :=
  r <- deref round ;;
  commit_op_ptr <- DCHECK_NOTNULL (commit_op_ r) ;;
  DCHECK_has_commit commit_op_ptr ;;
  let '(clbk, r') := release_commit_callback r in
  store round r' ;;
  emit (EvReleaseCommitCallback clbk) ;;
  op <- commit_op round ;;
  emit (EvByteSize op) ;;
  ret clbk.

(** Lines 141-144 of [Commit]. *)
Definition commit_reserve (round : RoundPtr) : M W (Status * LogEntryBatch) :=
  op <- commit_op round ;;
  log_reserve COMMIT (CreateBatchFromAllocatedOperations op).

(** Lines 149-151 of [Commit]. *)
Definition commit_append (clbk : option FutureCallback) (slot : LogEntryBatch)
  : M W Status :=
  cb <- AsStatusCallback clbk ;;
  log_async_append slot cb.

(** One atomic action of a thread: where it goes next, and the world after. *)
Definition advance {A} (m : M W A) (th : Thread) (next : A -> Thread) (w : W)
  : Thread * W :=
  match m w with
  | (Val a, w') => (next a, w')
  | (Return s, w') =>
      ({| job := job th; control := Finished s; commit_clbk := commit_clbk th |}, w')
  | (Abort why, w') =>
      ({| job := job th; control := Dead why; commit_clbk := commit_clbk th |}, w')
  | (Spin, _) => (th, w)
  end.

Definition goto (th : Thread) (c : Control) : Thread :=
  {| job := job th; control := c; commit_clbk := commit_clbk th |}.

Definition after_unlock (res : Status * LogEntryBatch) : Control :=
  if ok (fst res) then AtAppend (snd res) else Finished (fst res).

Definition thread_step (th : Thread) (w : W) : Thread * W :=
  match job th, control th with
  | JobReplicate context, AtEntry =>
      advance (replicate_entry context) th (fun _ => goto th AtLock) w
  | JobCommit round, AtEntry =>
      advance (commit_entry round) th
        (fun clbk => {| job := job th; control := AtLock; commit_clbk := clbk |}) w
  | JobReplicate _, AtLock => advance acquire th (fun _ => goto th AtLoad) w
  | JobCommit _, AtLock => advance acquire th (fun _ => goto th AtReserve) w
  | JobReplicate _, AtLoad => advance load_next_index th (fun i => goto th (AtStore i)) w
  | JobReplicate context, AtStore i =>
      advance (store_next_index context i) th (fun _ => goto th AtReserve) w
  | JobReplicate context, AtReserve =>
      advance (replicate_reserve context) th (fun res => goto th (AtUnlock res)) w
  | JobCommit round, AtReserve =>
      advance (commit_reserve round) th (fun res => goto th (AtUnlock res)) w
  | _, AtUnlock res => advance release th (fun _ => goto th (after_unlock res)) w
  | JobReplicate context, AtAppend slot =>
      advance (replicate_append context slot) th (fun s => goto th (Finished s)) w
  | JobCommit _, AtAppend slot =>
      advance (commit_append (commit_clbk th) slot) th (fun s => goto th (Finished s)) w
  | JobCommit _, AtLoad => (th, w)
  | JobCommit _, AtStore _ => (th, w)
  | _, Finished _ => (th, w)
  | _, Dead _ => (th, w)
  end.

(** The two methods, put together again from the pieces. *)
Definition Replicate_in_pieces (context : RoundPtr) : M W Status :=
  method (
    replicate_entry context ;;
    reserved_entry_batch <- lock_guard (
      i <- load_next_index ;;
      store_next_index context i ;;
      res <- replicate_reserve context ;;
      RETURN_NOT_OK (fst res) ;;
      ret (snd res)) ;;
    s <- replicate_append context reserved_entry_batch ;;
    RETURN_NOT_OK s ;;
    ret OK).

Definition Commit_in_pieces (round : RoundPtr) : M W Status :=
  method (
    clbk <- commit_entry round ;;
    reserved_entry_batch <- lock_guard (
      res <- commit_reserve round ;;
      RETURN_NOT_OK (fst res) ;;
      ret (snd res)) ;;
    s <- commit_append clbk reserved_entry_batch ;;
    RETURN_NOT_OK s ;;
    ret OK).

Definition is_dead (th : Thread) : bool :=
  match control th with Dead _ => true | _ => false end.

(** A thread on its own: [n] moves. *)
Definition solo_step (p : Thread * W) : Thread * W :=
  if is_dead (fst p) then p else thread_step (fst p) (snd p).

Fixpoint solo_run (n : nat) (p : Thread * W) : Thread * W :=
  match n with
  | O => p
  | S n' => solo_run n' (solo_step p)
  end.

Record Machine := mkMachine {
  world : W;
  pool : nat -> option Thread;
  crashed : bool                 (* a thread has killed the process *)
}.

Definition step (t : nat) (m : Machine) : Machine :=
  if crashed m then m
  else match pool m t with
       | None => m
       | Some th =>
           let '(th', w') := thread_step th (world m) in
           {| world := w';
              pool := fun u => if Nat.eqb u t then Some th' else pool m u;
              crashed := is_dead th' |}
       end.

Definition run (schedule : list nat) (m : Machine) : Machine :=
  fold_left (fun m t => step t m) schedule m.

(** The threads start together, each at the entry of its call. *)
Definition spawn (jobs : list Job) (w : W) : Machine :=
  {| world := w;
     pool := fun t => match nth_error jobs t with
                      | Some j => Some {| job := j; control := AtEntry;
                                          commit_clbk := None |}
                      | None => None
                      end;
     crashed := false |}.

End Engine.

(** * Collaborators for concrete runs *)

Module Sim.

(** Modelled from the spec: the Operation Log, the Transaction Factory and
    the Quorum Metadata Store's flush at their boundary (none of them is part
    of the source tree).  The log reserves slots in call order until it is
    full or closed; the factory and the flush accept or reject as a whole. *)
Record Ext := mkExt {
  log_closed : bool;
  log_capacity : nat;
  log_reserved : list LogEntryBatchPB;
  log_appended : list (LogEntryBatch * StatusCallback);
  factory_accepts : bool;
  factory_submitted : list QuorumPB;
  disk_ok : bool;
  disk_flushed : list ConsensusMetadataPB
}.

Definition Reserve (b : LogEntryBatchPB) (e : Ext) : Status * LogEntryBatch * Ext :=
  if log_closed e then (Err StorageError "log closed", 0, e)
  else if Nat.leb (log_capacity e) (List.length (log_reserved e))
  then (Err StorageError "out of space", 0, e)
  else (OK, List.length (log_reserved e),
        {| log_closed := log_closed e; log_capacity := log_capacity e;
           log_reserved := log_reserved e ++ [b];
           log_appended := log_appended e;
           factory_accepts := factory_accepts e;
           factory_submitted := factory_submitted e;
           disk_ok := disk_ok e; disk_flushed := disk_flushed e |}).

Definition AsyncAppend (slot : LogEntryBatch) (cb : StatusCallback) (e : Ext)
  : Status * Ext :=
  if log_closed e then (Err StorageError "log closed", e)
  else (OK,
        {| log_closed := log_closed e; log_capacity := log_capacity e;
           log_reserved := log_reserved e;
           log_appended := log_appended e ++ [(slot, cb)];
           factory_accepts := factory_accepts e;
           factory_submitted := factory_submitted e;
           disk_ok := disk_ok e; disk_flushed := disk_flushed e |}).

Definition SubmitConfigChange (q : QuorumPB) (cb : StatusCallback) (e : Ext)
  : Status * Ext :=
  if factory_accepts e
  then (OK,
        {| log_closed := log_closed e; log_capacity := log_capacity e;
           log_reserved := log_reserved e; log_appended := log_appended e;
           factory_accepts := factory_accepts e;
           factory_submitted := factory_submitted e ++ [q];
           disk_ok := disk_ok e; disk_flushed := disk_flushed e |})
  else (Err RuntimeError "submission rejected", e).

Definition FlushToDisk (m : ConsensusMetadataPB) (e : Ext) : Status * Ext :=
  if disk_ok e
  then (OK,
        {| log_closed := log_closed e; log_capacity := log_capacity e;
           log_reserved := log_reserved e; log_appended := log_appended e;
           factory_accepts := factory_accepts e;
           factory_submitted := factory_submitted e;
           disk_ok := disk_ok e; disk_flushed := disk_flushed e ++ [m] |})
  else (Err StorageError "flush failed", e).

Definition has_role (p : QuorumPeerPB) : bool :=
  match role_field p with Some _ => true | None => false end.

(** Modelled from the spec: [VerifyQuorum] (not part of the source tree).
    A quorum is structurally valid for the single-node engine when its peer
    list is not empty, every peer has a role, and a local quorum has exactly
    one peer; the locality flag must be set. *)
Definition VerifyLocalQuorum (q : QuorumPB) : Status :=
  match peers q with
  | [] => Err InvalidQuorum "quorum must have at least one peer"
  | _ :: rest =>
      if negb (local q) then Err InvalidQuorum "quorum is not local"
      else if negb (Nat.eqb (List.length rest) 0)
      then Err InvalidQuorum "local quorum must have exactly one peer"
      else if negb (forallb has_role (peers q))
      then Err InvalidQuorum "peer without a role"
      else OK
  end.

#[export] Instance collaborators (debug : bool) : Collaborators Ext := {|
  dchecks := debug;
  VerifyQuorum := VerifyLocalQuorum;
  Log_Reserve := Reserve;
  Log_AsyncAppend := AsyncAppend;
  SubmitConsensusChangeConfig := SubmitConfigChange;
  Flush := FlushToDisk
|}.

Definition fresh_ext : Ext :=
  {| log_closed := false; log_capacity := 8; log_reserved := [];
     log_appended := []; factory_accepts := true; factory_submitted := [];
     disk_ok := true; disk_flushed := [] |}.

Definition no_rounds : RoundPtr -> option ConsensusRound := fun _ => None.

Definition mk_world (c : LocalConsensus) (rs : RoundPtr -> option ConsensusRound)
  (e : Ext) : World Ext :=
  {| self := c; rounds := rs; ext := e; trace := [] |}.

Definition this_peer : QuorumPeerPB :=
  {| permanent_uuid := "peer-a"; role_field := Some FOLLOWER |}.

Definition other_peer : QuorumPeerPB :=
  {| permanent_uuid := "peer-b"; role_field := Some LEARNER |}.

Definition local_quorum (n : Z) : QuorumPB :=
  {| peers := [this_peer]; seqno := n; local := true |}.

Definition engine (q : QuorumPB) : LocalConsensus :=
  new_LocalConsensus {| committed_quorum := q |} "peer-a".

(** A freshly constructed engine over the committed quorum [q]. *)
Definition fresh_world (q : QuorumPB) (rs : RoundPtr -> option ConsensusRound)
  : World Ext :=
  mk_world (engine q) rs fresh_ext.

(** Quorums that are not well formed. *)
Definition empty_quorum : QuorumPB :=
  {| peers := []; seqno := 6; local := true |}.

Definition nonlocal_quorum : QuorumPB :=
  {| peers := [this_peer]; seqno := 0; local := false |}.

Definition two_peer_quorum : QuorumPB :=
  {| peers := [other_peer; this_peer]; seqno := 0; local := true |}.

(** The engine with its lock taken by somebody else. *)
Definition locked_world : World Ext :=
  {| self := with_lock_flag true (engine (local_quorum 5));
     rounds := no_rounds; ext := fresh_ext; trace := [] |}.

(** An engine that has been started: running, the counter at [n]. *)
Definition running_world (n : Z) (rs : RoundPtr -> option ConsensusRound) (e : Ext)
  : World Ext :=
  {| self := with_state kRunning (with_next n (engine (local_quorum 6)));
     rounds := rs; ext := e; trace := [] |}.

Definition bootstrap (n : Z) : ConsensusBootstrapInfo :=
  {| last_id := {| term := 0; index := n |} |}.

Definition write_round (payload : string) (cb : FutureCallback) : ConsensusRound :=
  {| replicate_op_ := Some {| id := None; replicate := Some payload; commit := None |};
     commit_op_ := Some {| id := None; replicate := None; commit := Some payload |};
     replicate_callback_ := Some cb;
     commit_callback_ := Some (S cb) |}.

Definition three_rounds : RoundPtr -> option ConsensusRound :=
  fun p =>
    match p with
    | 0%nat => Some (write_round "a" 10)
    | 1%nat => Some (write_round "b" 20)
    | 2%nat => Some (write_round "c" 30)
    | _ => None
    end.

Definition full_log : Ext :=
  {| log_closed := false; log_capacity := 0; log_reserved := [];
     log_appended := []; factory_accepts := true; factory_submitted := [];
     disk_ok := true; disk_flushed := [] |}.

Definition seq5_world : World Ext := fresh_world (local_quorum 5) no_rounds.

Definition nonlocal_world : World Ext := fresh_world nonlocal_quorum no_rounds.

Definition two_peer_world : World Ext := fresh_world two_peer_quorum no_rounds.

Definition deaf_factory : Ext :=
  {| log_closed := false; log_capacity := 8; log_reserved := [];
     log_appended := []; factory_accepts := false; factory_submitted := [];
     disk_ok := true; disk_flushed := [] |}.

Definition deaf_world : World Ext :=
  mk_world (engine (local_quorum 5)) three_rounds deaf_factory.

Definition full_log_world : World Ext := running_world 10 three_rounds full_log.

Definition ready_world : World Ext := running_world 10 three_rounds fresh_ext.

Definition debug_build : Collaborators Ext := collaborators true.

Definition release_build : Collaborators Ext := collaborators false.

(** Two writers and a committer.  Thread 1 sizes its operation first, thread 0
    gets the lock first; thread 2 commits in between. *)
Definition three_jobs : list Job :=
  [JobReplicate 0%nat; JobReplicate 1%nat; JobCommit 2%nat].

Definition interleaving : list nat :=
  [1; 0; 2; 0; 1; 0; 1; 0; 2; 0; 0; 1; 2; 1; 1; 0; 1; 2; 1; 2; 2; 1; 0; 1; 2; 2]%nat.

(** A disk that refuses the flush. *)
Definition broken_disk : Ext :=
  {| log_closed := false; log_capacity := 8; log_reserved := [];
     log_appended := []; factory_accepts := true; factory_submitted := [];
     disk_ok := false; disk_flushed := [] |}.

Definition broken_disk_world : World Ext :=
  mk_world (engine (local_quorum 5)) no_rounds broken_disk.

(** A freshly constructed engine with rounds to write. *)
Definition unstarted_world : World Ext := fresh_world (local_quorum 5) three_rounds.

(** A log that grants the slot and then refuses the append. *)
Definition RefusedAppend (slot : LogEntryBatch) (cb : StatusCallback) (e : Ext)
  : Status * Ext :=
  (Err StorageError "append refused", e).

Definition lossy_build : Collaborators Ext := {|
  dchecks := true;
  VerifyQuorum := VerifyLocalQuorum;
  Log_Reserve := Reserve;
  Log_AsyncAppend := RefusedAppend;
  SubmitConsensusChangeConfig := SubmitConfigChange;
  Flush := FlushToDisk
|}.

(** An engine whose counter is at the largest [int64_t]. *)
Definition last_index_world : World Ext := running_world int64_max three_rounds fresh_ext.

(** A freshly constructed engine whose committed quorum has the largest
    sequence number. *)
Definition last_seqno_world : World Ext := fresh_world (local_quorum int64_max) no_rounds.

(** A round that has its commit callback and no commit operation. *)
Definition round_without_commit_op : ConsensusRound :=
  {| replicate_op_ := Some {| id := None; replicate := Some "a"%string;
                              commit := None |};
     commit_op_ := None;
     replicate_callback_ := Some 40%nat;
     commit_callback_ := Some 41%nat |}.

Definition one_round (r : ConsensusRound) : RoundPtr -> option ConsensusRound :=
  fun p => match p with 0%nat => Some r | _ => None end.

Definition null_commit_world : World Ext :=
  running_world 10 (one_round round_without_commit_op) fresh_ext.

(** One caller's day: start, write, commit, change the quorum, ask for it. *)
Definition a_session : list Call :=
  [CallStart (bootstrap 9); CallReplicate 0%nat; CallCommit 0%nat;
   CallPersistQuorum (local_quorum 7); CallQuorum; CallReplicate 1%nat].

(** Thread 0 has the lock and thread 1 waits for it. *)
Definition contended : list nat := [0; 0; 1; 1; 1]%nat.

End Sim.

(** * Vocabulary of the statements *)

Section Vocabulary.

Context {Ext : Type}.

(** The committed quorum held in memory. *)
Definition committed (w : World Ext) : QuorumPB := committed_quorum (cmeta_ (self w)).

(** The same world with another peer identity for this node. *)
Definition with_peer_uuid (uuid : string) (w : World Ext) : World Ext :=
  {| self := {| peer_uuid_ := uuid; cmeta_ := cmeta_ (self w);
                next_op_id_index_ := next_op_id_index_ (self w);
                state_ := state_ (self w); lock_ := lock_ (self w) |};
     rounds := rounds w; ext := ext w; trace := trace w |}.

End Vocabulary.

(** The indices handed out, in the order of the assignments. *)
Fixpoint assigned (t : list Event) : list Z :=
  match t with
  | [] => []
  | EvAssign i :: t' => i :: assigned t'
  | _ :: t' => assigned t'
  end.

(** The actions recorded after the first [n]. *)
Definition events_after (n : nat) (t : list Event) : list Event := skipn n t.

Definition is_log_event (e : Event) : bool :=
  match e with
  | EvReserve _ _ _ | EvAsyncAppend _ _ _ => true
  | _ => false
  end.

(** [len] consecutive integers from [start]. *)
Fixpoint Zseq (start : Z) (len : nat) : list Z :=
  match len with
  | O => []
  | S n => start :: Zseq (start + 1)%Z n
  end.

(** The counter [k] increments after it was [n]. *)
Fixpoint after64 (k : nat) (n : Z) : Z :=
  match k with
  | O => n
  | S k' => add64 (after64 k' n) 1
  end.

(** The [len] values a counter takes from [start] on, each the increment of
    the one before. *)
Fixpoint Zseq64 (start : Z) (len : nat) : list Z :=
  match len with
  | O => []
  | S n => start :: Zseq64 (add64 start 1) n
  end.

(** The counter at [n] can be incremented [k] times and stay an [int64_t]
    on the way: the values it takes are [n], ..., [n + k]. *)
Definition room64 (n : Z) (k : nat) : Prop :=
  (int64_min <= n)%Z /\ (n + Z.of_nat k <= int64_max)%Z.

(** The requests for a slot made for REPLICATE operations, in the order in
    which the log got them: the index of the operation and the log's answer. *)
Fixpoint requested (t : list Event) : list (Z * Status) :=
  match t with
  | [] => []
  | EvReserve REPLICATE [op] s :: t' => (index (mutable_id op), s) :: requested t'
  | _ :: t' => requested t'
  end.

(** The indices of the slots the log has granted, in the order of the grants. *)
Definition granted (t : list Event) : list Z :=
  map fst (filter (fun x => ok (snd x)) (requested t)).

(** A thread is in the critical section from the moment it has the lock to
    the moment the guard is about to give it back. *)
Definition in_critical_section (th : Thread) : bool :=
  match job th, control th with
  | JobReplicate _, (AtLoad | AtStore _ | AtReserve | AtUnlock _) => true
  | JobCommit _, (AtReserve | AtUnlock _) => true
  | _, _ => false
  end.

Section MachineVocabulary.

Context {Ext : Type}.

(** The index carried by the REPLICATE operation of the round at [p]. *)
Definition op_index (w : World Ext) (p : RoundPtr) : option Z :=
  match rounds w p with
  | Some r =>
      match replicate_op_ r with
      | Some op => Some (index (mutable_id op))
      | None => None
      end
  | None => None
  end.

(** The index that has been assigned and not yet been shown to the log: that
    of the thread, if any, which holds the lock and is about to reserve. *)
Definition pending_index (m : Machine (Ext := Ext)) (holder : option nat) : list Z :=
  match holder with
  | None => []
  | Some t =>
      match pool m t with
      | Some {| job := JobReplicate context; control := AtReserve |} =>
          match op_index (world m) context with
          | Some i => [i]
          | None => []
          end
      | _ => []
      end
  end.

(** [holder] names the thread in the critical section, if there is one. *)
Definition holder_ok (m : Machine (Ext := Ext)) (holder : option nat) : Prop :=
  (forall t th, pool m t = Some th -> in_critical_section th = true ->
                holder = Some t)
  /\ (forall t, holder = Some t ->
         lock_ (self (world m)) = true
         /\ exists th, pool m t = Some th /\ in_critical_section th = true).

(** The invariant of the machine started with the counter at [n0] and the
    actions [t0] on record. *)
Definition machine_inv (n0 : Z) (t0 : list Event) (m : Machine (Ext := Ext)) : Prop :=
  exists (holder : option nat) (new : list Event),
    trace (world m) = t0 ++ new
    /\ assigned new = Zseq64 n0 (List.length (assigned new))
    /\ (exists pending, assigned new = map fst (requested new) ++ pending
                        /\ (List.length pending <= 1)%nat)
    /\ (crashed m = false ->
        holder_ok m holder
        /\ next_op_id_index_ (self (world m))
           = after64 (List.length (assigned new)) n0
        /\ assigned new = map fst (requested new) ++ pending_index m holder
        /\ (forall t th i, pool m t = Some th -> control th = AtStore i ->
                           in_critical_section th = true ->
                           i = next_op_id_index_ (self (world m)))).

(** The shapes an atomic action of a thread can have. *)
Inductive step_kind (th : Thread) (w : World Ext) (th' : Thread) (w' : World Ext)
  : Prop :=
| k_stay :
    th' = th -> w' = w -> step_kind th w th' w'
| k_quiet (evs : list Event) :
    in_critical_section th = false ->
    in_critical_section th' = false ->
    self w' = self w ->
    trace w' = trace w ++ evs ->
    assigned evs = [] -> requested evs = [] ->
    (forall p, op_index w' p = op_index w p) ->
    step_kind th w th' w'
| k_abort (evs : list Event) :
    is_dead th' = true ->
    trace w' = trace w ++ evs ->
    assigned evs = [] -> requested evs = [] ->
    step_kind th w th' w'
| k_acquire :
    in_critical_section th = false ->
    in_critical_section th' = true ->
    (forall i, control th' <> AtStore i) ->
    (forall context, job th' = JobReplicate context -> control th' <> AtReserve) ->
    lock_ (self w) = false ->
    self w' = with_lock_flag true (self w) ->
    trace w' = trace w ++ [EvLock] ->
    step_kind th w th' w'
| k_load :
    in_critical_section th = true ->
    control th = AtLoad ->
    in_critical_section th' = true ->
    control th' = AtStore (next_op_id_index_ (self w)) ->
    w' = w ->
    step_kind th w th' w'
| k_store (context : RoundPtr) (i : Z) :
    job th = JobReplicate context -> control th = AtStore i ->
    job th' = JobReplicate context -> control th' = AtReserve ->
    next_op_id_index_ (self w') = add64 i 1 ->
    lock_ (self w') = lock_ (self w) ->
    trace w' = trace w ++ [EvAssign i] ->
    op_index w' context = Some i ->
    step_kind th w th' w'
| k_reserve_replicate (context : RoundPtr) (op : OperationPB)
    (res : Status * LogEntryBatch) :
    job th = JobReplicate context -> control th = AtReserve ->
    job th' = job th -> control th' = AtUnlock res ->
    self w' = self w ->
    op_index w context = Some (index (mutable_id op)) ->
    trace w' = trace w ++ [EvReserve REPLICATE [op] (fst res)] ->
    step_kind th w th' w'
| k_reserve_commit (b : LogEntryBatchPB) (res : Status * LogEntryBatch) :
    in_critical_section th = true ->
    (forall context, job th <> JobReplicate context) ->
    in_critical_section th' = true ->
    control th' = AtUnlock res ->
    self w' = self w ->
    trace w' = trace w ++ [EvReserve COMMIT b (fst res)] ->
    step_kind th w th' w'
| k_unlock :
    in_critical_section th = true ->
    (forall context, job th = JobReplicate context -> control th <> AtReserve) ->
    in_critical_section th' = false ->
    next_op_id_index_ (self w') = next_op_id_index_ (self w) ->
    trace w' = trace w ++ [EvUnlock] ->
    step_kind th w th' w'.

(** The machine after thread [t] has moved to [th'] and left the world as
    [w']. *)
Definition moved (m : Machine (Ext := Ext)) (t : nat) (th' : Thread) (w' : World Ext)
  : Machine (Ext := Ext) :=
  {| world := w';
     pool := fun u => if Nat.eqb u t then Some th' else pool m u;
     crashed := is_dead th' |}.

(** The outcome [r] and final world [w'] of a method called by a single
    caller, against the thread [th] that has made the same call on its own
    and the world [w] it has left. *)
Definition agrees (r : Res Status) (w' : World Ext) (th : Thread) (w : World Ext)
  : Prop :=
  w = w'
  /\ match r with
     | Val s => control th = Finished s
     | Abort why => control th = Dead why
     | Spin => control th = AtLock
     | Return _ => False
     end.

(** Thread [th] is thread 0 of the machine [m], whose world is [w]. *)
Definition solo (m : Machine (Ext := Ext)) (th : Thread) (w : World Ext) : Prop :=
  world m = w /\ pool m 0%nat = Some th /\ crashed m = is_dead th.

(** An outcome that is a value or the death of the process: what a piece of
    a method that takes no lock and has no [return] can end in. *)
Definition plain {A : Type} (r : Res A) : Prop :=
  match r with
  | Val _ | Abort _ => True
  | Return _ | Spin => False
  end.

(** Every thread has returned from its call. *)
Definition all_finished (m : Machine (Ext := Ext)) : Prop :=
  crashed m = false
  /\ forall t th, pool m t = Some th -> exists s, control th = Finished s.

(** A thread calling [Replicate] that is past the assignment of its index,
    or has ended. *)
Definition past_store (th : Thread) : bool :=
  match job th, control th with
  | JobReplicate _, (AtReserve | AtUnlock _ | AtAppend _ | Finished _ | Dead _) => true
  | _, _ => false
  end.

(** How many of the threads [0 .. n-1] are past the assignment. *)
Definition count_past (n : nat) (m : Machine (Ext := Ext)) : nat :=
  List.length
    (filter (fun t => match pool m t with
                      | Some th => past_store th
                      | None => false
                      end)
            (seq 0 n)).

(** The machine has [n] threads at most, and has assigned no more indices
    since the record [t0] than it has threads past the assignment. *)
Definition assign_bound (n : nat) (t0 : list Event) (m : Machine (Ext := Ext)) : Prop :=
  (forall t, (n <= t)%nat -> pool m t = None)
  /\ exists new : list Event,
       trace (world m) = t0 ++ new
       /\ (List.length (assigned new) <= count_past n m)%nat.

End MachineVocabulary.

(** From one world to a later one the engine stays started, and the indices
    handed out in between are the values the counter has taken from its
    earlier value on, the later value being the one it has reached. *)
Definition consecutive_step {Ext : Type} (w w' : World Ext) : Prop :=
  state_ (self w') <> kInitializing
  /\ exists new,
       trace w' = trace w ++ new
       /\ assigned new = Zseq64 (next_op_id_index_ (self w)) (List.length (assigned new))
       /\ next_op_id_index_ (self w')
          = after64 (List.length (assigned new)) (next_op_id_index_ (self w)).

(** The REPLICATE operation [op] once [Replicate] has stamped it with the
    index [i]. *)
Definition stamped (i : Z) (op : OperationPB) : OperationPB :=
  {| id := Some {| term := 0; index := i |};
     replicate := replicate op; commit := commit op |}.

Definition PersistQuorum_prefix : string :=
  "Invalid quorum passed to LocalConsensus::PersistQuorum()".

Definition Start_prefix : string :=
  "Invalid quorum found in LocalConsensus::Start()".

(** The engine after a [Start] that got as far as the submission. *)
Definition started (info : ConsensusBootstrapInfo) (c : LocalConsensus) : LocalConsensus :=
  {| peer_uuid_ := peer_uuid_ c; cmeta_ := cmeta_ c;
     next_op_id_index_ := add64 (index (last_id info)) 1;
     state_ := kRunning; lock_ := false |}.

(** The quorum [q], whose peers are [p :: ps], with [p] made leader and the
    sequence number one up. *)
Definition leader_quorum (q : QuorumPB) (p : QuorumPeerPB) (ps : list QuorumPeerPB)
  : QuorumPB :=
  {| peers := set_role LEADER p :: ps; seqno := add64 (seqno q) 1; local := local q |}.

(** ** Vocabulary of the further properties *)

Section FurtherVocabulary.

Context {Ext : Type} {C : Collaborators Ext}.

(** From one world to a later one the committed quorum is either the same or
    one with a greater sequence number. *)
Definition seqno_step (w w' : World Ext) : Prop :=
  committed w' = committed w
  \/ (seqno (committed w) < seqno (committed w'))%Z.

(** No call of the sequence finds the lock taken. *)
Fixpoint never_spins (cs : list Call) (w : World Ext) : Prop :=
  match cs with
  | [] => True
  | c :: cs' =>
      match run_call c w with
      | (Val _, w') => never_spins cs' w'
      | (Spin, _) => False
      | _ => True
      end
  end.

(** Every call of the sequence returns. *)
Fixpoint all_return (cs : list Call) (w : World Ext) : Prop :=
  match cs with
  | [] => True
  | c :: cs' =>
      match run_call c w with
      | (Val _, w') => all_return cs' w'
      | _ => False
      end
  end.

(** Two worlds that differ in the record of actions only. *)
Definition same_but_trace (w1 w2 : World Ext) : Prop :=
  self w1 = self w2 /\ rounds w1 = rounds w2 /\ ext w1 = ext w2.

(** The world with the lifecycle state and the counter set to [st] and [n]. *)
Definition with_lifecycle (st : State) (n : Z) (w : World Ext) : World Ext :=
  {| self := with_state st (with_next n (self w));
     rounds := rounds w; ext := ext w; trace := trace w |}.

(** The calls that ask and change nothing. *)
Definition is_query (c : Call) : bool :=
  match c with
  | CallRole | CallQuorum | CallDumpStatusHtml
  | CallUpdate | CallRequestVote | CallShutdown => true
  | _ => false
  end.

(** The world just after the constructor (source lines 25-39): the engine
    holds the metadata and the identity it was given, the counter is at -1,
    the state is initializing, the lock is free and nothing has been done. *)
Definition constructed (cmeta : ConsensusMetadataPB) (peer_uuid : string)
  (rs : RoundPtr -> option ConsensusRound) (e : Ext) : World Ext :=
  {| self := new_LocalConsensus cmeta peer_uuid; rounds := rs; ext := e;
     trace := [] |}.

End FurtherVocabulary.

(** ** Vocabulary of the further properties of the machine *)

Section FurtherMachineVocabulary.

Context {Ext : Type}.

(** A thread in a place its call never takes it to. *)
Definition out_of_place (th : Thread) : bool :=
  match job th, control th with
  | JobCommit _, (AtLoad | AtStore _) => true
  | _, _ => false
  end.

(** Mutual exclusion: at most one thread is in the critical section, and a
    thread that is there has the lock. *)
Definition mutex (m : Machine (Ext := Ext)) : Prop :=
  (forall t1 t2 th1 th2,
      pool m t1 = Some th1 -> pool m t2 = Some th2 ->
      in_critical_section th1 = true -> in_critical_section th2 = true ->
      t1 = t2)
  /\ (forall t th,
         pool m t = Some th -> in_critical_section th = true ->
         lock_ (self (world m)) = true).

(** While the process lives, a taken lock has a thread in the critical
    section, and no thread is dead or out of place. *)
Definition lock_inv (m : Machine (Ext := Ext)) : Prop :=
  mutex m
  /\ (crashed m = false ->
      lock_ (self (world m)) = true ->
      exists t th, pool m t = Some th /\ in_critical_section th = true)
  /\ (crashed m = false ->
      forall t th, pool m t = Some th ->
                   is_dead th = false /\ out_of_place th = false).

(** Reading a record of actions with the lock [held] or not at its start:
    the lock is taken only when free and released only when taken, and
    indices are assigned and slots asked for only while it is taken.  The
    answer is the state of the lock at the end, if the record is in order. *)
Fixpoint bracketed (held : bool) (t : list Event) : option bool :=
  match t with
  | [] => Some held
  | EvLock :: t' => if held then None else bracketed true t'
  | EvUnlock :: t' => if held then bracketed false t' else None
  | EvAssign _ :: t' => if held then bracketed true t' else None
  | EvReserve _ _ _ :: t' => if held then bracketed true t' else None
  | _ :: t' => bracketed held t'
  end.

(** The record of the machine, from its start in the world [w0], is in
    order. *)
Definition record_in_order (w0 : World Ext) (m : Machine (Ext := Ext)) : Prop :=
  exists evs : list Event,
    trace (world m) = trace w0 ++ evs
    /\ bracketed (lock_ (self w0)) evs = Some (lock_ (self (world m))).

End FurtherMachineVocabulary.

(** * The counter's arithmetic *)

Lemma wrap64_fits (z : Z) :
  (int64_min <= z <= int64_max)%Z -> wrap64 z = z.
Proof.
  unfold wrap64, int64_min, int64_max.
  change (2 ^ 63)%Z with 9223372036854775808%Z.
  change (2 ^ 64)%Z with 18446744073709551616%Z.
  intros H. rewrite Z.mod_small by lia. lia.
Qed.

Lemma wrap64_range (z : Z) : (int64_min <= wrap64 z <= int64_max)%Z.
Proof.
  unfold wrap64, int64_min, int64_max.
  change (2 ^ 63)%Z with 9223372036854775808%Z.
  change (2 ^ 64)%Z with 18446744073709551616%Z.
  pose proof (Z.mod_pos_bound (z + 9223372036854775808) 18446744073709551616).
  lia.
Qed.

Lemma add64_1_small (i : Z) :
  (int64_min <= i < int64_max)%Z -> add64 i 1 = (i + 1)%Z.
Proof.
  intros H. unfold add64. apply wrap64_fits. unfold int64_min, int64_max in *. lia.
Qed.

(** Incrementing never gives the same value back. *)
Lemma add64_1_neq (i : Z) : add64 i 1 <> i.
Proof.
  unfold add64, wrap64.
  change (2 ^ 63)%Z with 9223372036854775808%Z.
  change (2 ^ 64)%Z with 18446744073709551616%Z.
  pose proof (Z.div_mod (i + 1 + 9223372036854775808) 18446744073709551616).
  pose proof (Z.mod_pos_bound (i + 1 + 9223372036854775808) 18446744073709551616).
  lia.
Qed.

(** At the largest value the increment gives the smallest. *)
Lemma add64_1_max : add64 int64_max 1 = int64_min.
Proof. reflexivity. Qed.

Lemma after64_shift (k : nat) (n : Z) :
  after64 k (add64 n 1) = add64 (after64 k n) 1.
Proof. induction k as [|k IH]; cbn; [reflexivity | rewrite IH; reflexivity]. Qed.

Lemma after64_add (a b : nat) (n : Z) :
  after64 (a + b) n = after64 b (after64 a n).
Proof.
  induction b as [|b IH]; [rewrite Nat.add_0_r; reflexivity |].
  rewrite Nat.add_succ_r. cbn. rewrite IH. reflexivity.
Qed.

Lemma after64_room (n : Z) (k : nat) :
  room64 n k -> after64 k n = (n + Z.of_nat k)%Z.
Proof.
  unfold room64. induction k as [|k IH]; intros [Hlo Hhi]; cbn [after64].
  - lia.
  - rewrite IH by lia. rewrite add64_1_small by lia. lia.
Qed.

Lemma room64_le (n : Z) (k k' : nat) :
  (k' <= k)%nat -> room64 n k -> room64 n k'.
Proof. unfold room64. intros Hle [Hlo Hhi]. split; lia. Qed.

Lemma Zseq64_snoc (n : Z) (k : nat) :
  Zseq64 n (S k) = Zseq64 n k ++ [after64 k n].
Proof.
  revert n. induction k as [|k IH]; intros n; [reflexivity |].
  change (Zseq64 n (S (S k))) with (n :: Zseq64 (add64 n 1) (S k)).
  rewrite IH, after64_shift. reflexivity.
Qed.

Lemma Zseq64_app (n : Z) (a b : nat) :
  Zseq64 n (a + b) = Zseq64 n a ++ Zseq64 (after64 a n) b.
Proof.
  revert n. induction a as [|a IH]; intros n; [reflexivity |].
  cbn [Nat.add Zseq64 app]. rewrite IH, after64_shift. reflexivity.
Qed.

(** As long as the counter stays an [int64_t], the values it takes are the
    consecutive integers. *)
Lemma Zseq64_room (n : Z) (k : nat) : room64 n k -> Zseq64 n k = Zseq n k.
Proof.
  unfold room64. revert n. induction k as [|k IH]; intros n [Hlo Hhi]; [reflexivity |].
  cbn [Zseq64 Zseq]. rewrite add64_1_small by lia.
  rewrite IH by lia. reflexivity.
Qed.

Lemma Zseq_above (n : Z) (k : nat) : Forall (fun i => n <= i)%Z (Zseq n k).
Proof.
  revert n. induction k as [|k IH]; intros n; cbn; constructor; [lia |].
  eapply Forall_impl; [| apply IH]. cbn. intros; lia.
Qed.

(** * Properties of the sequential methods *)

Ltac step_m :=
  unfold run_call, Start, PersistQuorum, role, Quorum, Replicate, Commit,
    Update, RequestVote, Shutdown, DumpStatusHtml, method,
    lock_guard, acquire, release, assign_next_index, update_replicate_op,
    replicate_op, commit_op, deref, store, set_next_op_id_index, set_state,
    verify_quorum, mutable_peers0_set_role, AsStatusCallback, DCHECK_NOTNULL,
    DCHECK_has_commit, through,
    DCHECK, CHECK, RETURN_NOT_OK, RETURN_NOT_OK_PREPEND, bind, ret, return_,
    abort, get_self, put_self, emit, txn_submit, cmeta_flush, log_reserve,
    log_async_append in *;
  cbn [fst snd self rounds ext trace lock_ cmeta_ next_op_id_index_ state_
       peer_uuid_ with_lock_flag with_next with_state with_cmeta ok
       committed_quorum] in *.

Section PersistQuorumFacts.

Context {Ext : Type} {C : Collaborators Ext}.

(** C7. A quorum the validator rejects is answered with the validator's error
    (its kind kept, the message prefixed); the engine, the rounds and the
    collaborators are left as they were and the lock is neither taken nor
    waited for, whatever its state: the only action recorded is the
    validation.  In every run the validation is the first action, so it
    precedes the acquisition of the lock. *)
Theorem PersistQuorum_invalid_quorum :
  forall (quorum : QuorumPB) (w : World Ext),
    (forall (k : ErrorKind) (m : string),
        VerifyQuorum quorum = Err k m ->
        PersistQuorum quorum w =
          (Val (Err k (PersistQuorum_prefix ++ ": " ++ m)),
           {| self := self w; rounds := rounds w; ext := ext w;
              trace := trace w ++ [EvVerifyQuorum quorum (Err k m)] |}))
    /\ (exists tl : list Event,
           trace (snd (PersistQuorum quorum w)) =
           trace w ++ EvVerifyQuorum quorum (VerifyQuorum quorum) :: tl).
Proof.
  intros quorum w; split.
  - intros k m Hv. step_m. rewrite Hv. reflexivity.
  - step_m. destruct (VerifyQuorum quorum) as [|k m]; cbn.
    + destruct (lock_ (self w)); cbn.
      * eexists; reflexivity.
      * destruct (seqno (committed_quorum (cmeta_ (self w))) <? seqno quorum)%Z; cbn.
        -- destruct (Flush _ _) as [s e]; cbn.
           rewrite <- !app_assoc. cbn. eexists; reflexivity.
        -- rewrite <- !app_assoc. cbn. eexists; reflexivity.
    + eexists; reflexivity.
Qed.

End PersistQuorumFacts.

Section PersistQuorumMonotonic.

Context {Ext : Type} {C : Collaborators Ext}.

(** The four ways a [PersistQuorum] call can go. *)
Lemma PersistQuorum_cases (quorum : QuorumPB) (w : World Ext) :
  (exists k m, VerifyQuorum quorum = Err k m
      /\ fst (PersistQuorum quorum w) = Val (Err k (PersistQuorum_prefix ++ ": " ++ m))
      /\ self (snd (PersistQuorum quorum w)) = self w)
  \/ (VerifyQuorum quorum = OK /\ lock_ (self w) = true
      /\ fst (PersistQuorum quorum w) = Spin
      /\ self (snd (PersistQuorum quorum w)) = self w)
  \/ (VerifyQuorum quorum = OK /\ lock_ (self w) = false
      /\ (seqno (committed w) <? seqno quorum)%Z = false
      /\ fst (PersistQuorum quorum w) = Abort "Quorum seqnos not monotonic"
      /\ committed (snd (PersistQuorum quorum w)) = committed w)
  \/ (VerifyQuorum quorum = OK /\ lock_ (self w) = false
      /\ (seqno (committed w) <? seqno quorum)%Z = true
      /\ fst (PersistQuorum quorum w)
         = Val (fst (Flush {| committed_quorum := quorum |} (ext w)))
      /\ committed (snd (PersistQuorum quorum w)) = quorum
      /\ lock_ (self (snd (PersistQuorum quorum w))) = false).
Proof.
  unfold committed. step_m.
  destruct (VerifyQuorum quorum) as [|k m] eqn:Hv; cbn.
  - destruct (lock_ (self w)) eqn:Hl; cbn.
    + right; left. auto.
    + destruct (seqno (committed_quorum (cmeta_ (self w))) <? seqno quorum)%Z eqn:Hs; cbn.
      * right; right; right.
        destruct (Flush _ _) as [s e] eqn:Hf; cbn. repeat split; reflexivity.
      * right; right; left. auto.
  - left. exists k, m. auto.
Qed.

(** C3. A candidate whose sequence number is not above the committed one is
    never accepted: the call does not return [OK] and the committed quorum
    stays; with the lock free the call either returns the validator's error
    or dies on the monotonicity check.  Conversely the committed quorum is
    only ever replaced by a candidate with a strictly greater sequence
    number, and a call that returns [OK] has done so. *)
Theorem PersistQuorum_seqno_monotonic :
  forall (quorum : QuorumPB) (w : World Ext),
    ((seqno quorum <= seqno (committed w))%Z ->
       fst (PersistQuorum quorum w) <> Val OK
       /\ committed (snd (PersistQuorum quorum w)) = committed w
       /\ (lock_ (self w) = false ->
             (exists k m, VerifyQuorum quorum = Err k m
                /\ fst (PersistQuorum quorum w)
                   = Val (Err k (PersistQuorum_prefix ++ ": " ++ m)))
             \/ (VerifyQuorum quorum = OK
                 /\ fst (PersistQuorum quorum w) = Abort "Quorum seqnos not monotonic")))
    /\ (committed (snd (PersistQuorum quorum w)) <> committed w ->
          committed (snd (PersistQuorum quorum w)) = quorum
          /\ (seqno (committed w) < seqno quorum)%Z)
    /\ (fst (PersistQuorum quorum w) = Val OK ->
          committed (snd (PersistQuorum quorum w)) = quorum
          /\ (seqno (committed w) < seqno quorum)%Z).
Proof.
  intros quorum w.
  destruct (PersistQuorum_cases quorum w)
    as [(k & m & Hv & Hr & Hs) | [(Hv & Hl & Hr & Hs) | [(Hv & Hl & Hlt & Hr & Hc)
       | (Hv & Hl & Hlt & Hr & Hc & _)]]].
  - assert (Hc : committed (snd (PersistQuorum quorum w)) = committed w)
      by (unfold committed; rewrite Hs; reflexivity).
    split; [intros _; split; [rewrite Hr; discriminate | split; [exact Hc |] ] | split].
    + intros _. left. exists k, m. auto.
    + intros Hne. contradiction.
    + intros Hok. rewrite Hr in Hok. discriminate.
  - assert (Hc : committed (snd (PersistQuorum quorum w)) = committed w)
      by (unfold committed; rewrite Hs; reflexivity).
    split; [intros _; split; [rewrite Hr; discriminate | split; [exact Hc |] ] | split].
    + intros Hfree. congruence.
    + intros Hne. contradiction.
    + intros Hok. rewrite Hr in Hok. discriminate.
  - split; [intros _; split; [rewrite Hr; discriminate | split; [exact Hc |] ] | split].
    + intros _. right. auto.
    + intros Hne. contradiction.
    + intros Hok. rewrite Hr in Hok. discriminate.
  - apply Z.ltb_lt in Hlt.
    split; [intros Hle; lia | split; intros _; auto].
Qed.

End PersistQuorumMonotonic.

Section StartFacts.

Context {Ext : Type} {C : Collaborators Ext}.

Lemma unlock_after_lock (c : LocalConsensus) :
  lock_ c = false -> with_lock_flag false (with_lock_flag true c) = c.
Proof. destruct c; cbn; intros ->; reflexivity. Qed.

(** A [Start] that passes its checks runs up to the submission and returns
    what the factory answers. *)
Lemma Start_runs (info : ConsensusBootstrapInfo) (w : World Ext)
      (p : QuorumPeerPB) (ps : list QuorumPeerPB) :
  state_ (self w) = kInitializing ->
  lock_ (self w) = false ->
  local (committed w) = true ->
  VerifyQuorum (committed w) = OK ->
  peers (committed w) = p :: ps ->
  Start info w =
    (Val (fst (SubmitConsensusChangeConfig (leader_quorum (committed w) p ps)
                 NullStatusCallback (ext w))),
     {| self := started info (self w);
        rounds := rounds w;
        ext := snd (SubmitConsensusChangeConfig (leader_quorum (committed w) p ps)
                      NullStatusCallback (ext w));
        trace := trace w ++
          [EvLock; EvVerifyQuorum (committed w) OK;
           EvSetNextIndex (add64 (index (last_id info)) 1);
           EvSetState kRunning;
           EvSubmit (leader_quorum (committed w) p ps) NullStatusCallback
             (fst (SubmitConsensusChangeConfig (leader_quorum (committed w) p ps)
                     NullStatusCallback (ext w)));
           EvUnlock] |}).
Proof.
  unfold committed, leader_quorum, started. intros Hst Hl Hloc Hv Hp.
  step_m. rewrite Hst; cbn; rewrite Hl; cbn. rewrite Hloc; cbn. rewrite Hv; cbn.
  rewrite Hp; cbn. unfold set_seqno, set_peers; cbn. rewrite ?Hloc.
  destruct (SubmitConsensusChangeConfig _ _ _) as [s e]; cbn.
  destruct s; cbn; rewrite <- !app_assoc; reflexivity.
Qed.

(** Conversely a [Start] that returns [OK] has passed all its checks. *)
Lemma Start_OK_inv (info : ConsensusBootstrapInfo) (w w' : World Ext) :
  Start info w = (Val OK, w') ->
  state_ (self w) = kInitializing
  /\ lock_ (self w) = false
  /\ local (committed w) = true
  /\ VerifyQuorum (committed w) = OK
  /\ exists p ps, peers (committed w) = p :: ps
       /\ fst (SubmitConsensusChangeConfig (leader_quorum (committed w) p ps)
                 NullStatusCallback (ext w)) = OK.
Proof.
  unfold committed, leader_quorum. step_m.
  destruct (state_ (self w)); cbn; try discriminate.
  destruct (lock_ (self w)); cbn; try discriminate.
  destruct (local _) eqn:Hloc; cbn; try discriminate.
  destruct (VerifyQuorum _) as [|k m]; cbn; try discriminate.
  destruct (peers _) as [|p ps]; cbn; try discriminate.
  unfold set_seqno, set_peers; cbn.
  destruct (SubmitConsensusChangeConfig _ _ _) as [s e] eqn:Hs; cbn.
  destruct s; cbn; try discriminate.
  intros _. repeat split; try reflexivity.
  exists p, ps. split; [reflexivity |].
  rewrite Hloc in Hs. rewrite Hs. reflexivity.
Qed.

(** C4, as the code has it.  On an engine that is still initializing and
    whose lock is free, a committed quorum with the locality flag off kills
    the process on the [CHECK]; with the flag on, a quorum the validator
    rejects makes [Start] return the validator's error (its kind kept, the
    message prefixed) and leaves the engine as it was: still initializing,
    the counter untouched, the lock free again. *)
Theorem Start_malformed_quorum :
  forall (info : ConsensusBootstrapInfo) (w : World Ext),
    state_ (self w) = kInitializing ->
    lock_ (self w) = false ->
    (local (committed w) = false ->
       fst (Start info w) = Abort "Local consensus must be passed a local quorum")
    /\ (local (committed w) = true ->
        forall (k : ErrorKind) (m : string),
          VerifyQuorum (committed w) = Err k m ->
          Start info w =
            (Val (Err k (Start_prefix ++ ": " ++ m)),
             {| self := self w; rounds := rounds w; ext := ext w;
                trace := trace w ++
                  [EvLock; EvVerifyQuorum (committed w) (Err k m); EvUnlock] |})).
Proof.
  unfold committed. intros info w Hst Hl. split.
  - intros Hloc. step_m. rewrite Hst; cbn; rewrite Hl; cbn. rewrite Hloc; cbn. reflexivity.
  - intros Hloc k m Hv. step_m. rewrite Hst; cbn; rewrite Hl; cbn. rewrite Hloc; cbn.
    rewrite Hv; cbn. rewrite <- !app_assoc; cbn.
    rewrite (unlock_after_lock (self w) Hl). reflexivity.
Qed.

(** C5. A [Start] that returns [OK] found the engine initializing with a
    local quorum the validator accepts; it leaves the counter at the
    bootstrap index plus one and the state at running, and its actions are,
    in this order: take the lock, validate, set the counter, set the state to
    running, submit, release.  The quorum submitted is the committed one with
    its first peer made leader and its sequence number one up; when the
    committed quorum has the single peer of a local quorum, that is every
    peer of the submitted quorum.  Both additions are those of [int64_t]:
    they give the integer plus one for every value below the largest, which
    they take to the smallest. *)
Theorem Start_success :
  forall (info : ConsensusBootstrapInfo) (w w' : World Ext),
    Start info w = (Val OK, w') ->
    state_ (self w) = kInitializing
    /\ local (committed w) = true
    /\ VerifyQuorum (committed w) = OK
    /\ next_op_id_index_ (self w') = add64 (index (last_id info)) 1
    /\ ((int64_min <= index (last_id info) < int64_max)%Z ->
        next_op_id_index_ (self w') = (index (last_id info) + 1)%Z)
    /\ state_ (self w') = kRunning
    /\ committed w' = committed w
    /\ exists (p : QuorumPeerPB) (ps : list QuorumPeerPB),
         peers (committed w) = p :: ps
         /\ trace w' = trace w ++
              [EvLock; EvVerifyQuorum (committed w) OK;
               EvSetNextIndex (add64 (index (last_id info)) 1);
               EvSetState kRunning;
               EvSubmit (leader_quorum (committed w) p ps) NullStatusCallback OK;
               EvUnlock]
         /\ seqno (leader_quorum (committed w) p ps) = add64 (seqno (committed w)) 1
         /\ ((int64_min <= seqno (committed w) < int64_max)%Z ->
             seqno (leader_quorum (committed w) p ps) = (seqno (committed w) + 1)%Z)
         /\ local (leader_quorum (committed w) p ps) = local (committed w)
         /\ map permanent_uuid (peers (leader_quorum (committed w) p ps))
            = map permanent_uuid (peers (committed w))
         /\ tl (peers (leader_quorum (committed w) p ps)) = tl (peers (committed w))
         /\ (ps = [] ->
             forall x, In x (peers (leader_quorum (committed w) p ps)) ->
                       role_of x = LEADER).
Proof.
  intros info w w' H.
  destruct (Start_OK_inv _ _ H) as (Hst & Hl & Hloc & Hv & p & ps & Hp & Hs).
  rewrite (Start_runs info w Hst Hl Hloc Hv Hp) in H.
  rewrite Hs in H. inversion H; subst w'; clear H. cbn.
  repeat (split; [first [ reflexivity | assumption
                        | intros; apply add64_1_small; assumption ] |]).
  exists p, ps. split; [assumption |]. split; [reflexivity |].
  split; [reflexivity |].
  split; [intros; apply add64_1_small; assumption |]. split; [reflexivity |].
  split; [rewrite Hp; reflexivity |]. split; [rewrite Hp; reflexivity |].
  intros -> x [<- | []]. reflexivity.
Qed.

(** C9. With the lock free, [role] answers with the role of the first peer
    of the committed quorum.  The node's own identity plays no part: the
    answer is the same under any [peer_uuid_], and it is the first peer's
    role also when that peer is not this node. *)
Theorem role_is_first_peers_role :
  forall (w : World Ext) (p : QuorumPeerPB) (ps : list QuorumPeerPB),
    lock_ (self w) = false ->
    peers (committed w) = p :: ps ->
    fst (role w) = Val (role_of p)
    /\ (forall uuid : string, fst (role (with_peer_uuid uuid w)) = Val (role_of p))
    /\ (permanent_uuid p <> peer_uuid_ (self w) -> fst (role w) = Val (role_of p)).
Proof.
  unfold committed. intros w p ps Hl Hp.
  assert (Hr : fst (role w) = Val (role_of p)).
  { step_m. rewrite Hl; cbn. rewrite Hp; cbn. reflexivity. }
  split; [exact Hr | split; [| intros _; exact Hr]].
  intros uuid. unfold with_peer_uuid. step_m. rewrite Hl; cbn. rewrite Hp; cbn.
  reflexivity.
Qed.

End StartFacts.

(** * Properties of [Replicate] and [Commit] *)

Arguments State_geb : simpl never.
Arguments State_eqb : simpl never.

(** Case analysis on the first test that blocks the computation. *)
Ltac case_head :=
  match goal with
  | |- context [match ?x with _ => _ end] =>
      lazymatch x with
      | context [match _ with _ => _ end] => fail
      | ok ?s => destruct s eqn:?
      | _ => destruct x eqn:?
      end
  end.

Ltac simp_m := repeat (progress (cbn; rewrite ?Nat.eqb_refl)).

Ltac run_m :=
  simp_m; try (intros; discriminate);
  repeat (case_head; simp_m; try (intros; discriminate)).

Ltac some_inj :=
  repeat match goal with
         | H : Some _ = Some _ |- _ => inversion H; subst; clear H
         | H : (_, _) = (_, _) |- _ => inversion H; subst; clear H
         | H1 : ?x = Some _, H2 : ?x = Some _ |- _ =>
             rewrite H1 in H2; inversion H2; subst; clear H2
         end.

(** Computation under the equations at hand. *)
Ltac exec :=
  repeat (cbn;
          first [ rewrite Nat.eqb_refl
                | match goal with
                  | H : ?x = _ |- context [match ?x with _ => _ end] => rewrite H
                  end ]);
  cbn.

Lemma assigned_app (a b : list Event) : assigned (a ++ b) = assigned a ++ assigned b.
Proof.
  induction a as [|e a IH]; cbn; [reflexivity |].
  destruct e; cbn; rewrite ?IH; reflexivity.
Qed.

Lemma stamped_set_index (i : Z) (op : OperationPB) :
  set_index i (set_term 0 op) = stamped i op.
Proof. reflexivity. Qed.

Lemma relock (c : LocalConsensus) (n : Z) :
  lock_ c = false ->
  with_lock_flag false (with_next n (with_lock_flag true c)) = with_next n c.
Proof. destruct c; cbn; intros ->; reflexivity. Qed.

Section Consecutive.

Context {Ext : Type} {C : Collaborators Ext}.

Lemma consecutive_step_refl (w : World Ext) :
  state_ (self w) <> kInitializing -> consecutive_step w w.
Proof.
  intros Hs. split; [exact Hs |]. exists []. rewrite app_nil_r. cbn.
  split; [reflexivity | split; reflexivity].
Qed.

Lemma consecutive_step_trans (w1 w2 w3 : World Ext) :
  consecutive_step w1 w2 -> consecutive_step w2 w3 -> consecutive_step w1 w3.
Proof.
  intros (_ & new1 & Ht1 & Ha1 & Hn1) (Hs & new2 & Ht2 & Ha2 & Hn2).
  split; [exact Hs |]. exists (new1 ++ new2).
  split; [rewrite Ht2, Ht1, app_assoc; reflexivity |].
  rewrite assigned_app, length_app, Zseq64_app, after64_add, <- Ha1, <- Hn1, <- Ha2.
  split; [reflexivity | exact Hn2].
Qed.

Ltac finish_consecutive :=
  unfold consecutive_step; cbn;
  split; [assumption || congruence |];
  rewrite <- ?app_assoc; cbn;
  first [ exists []; rewrite app_nil_r; cbn;
          split; [reflexivity | split; reflexivity]
        | eexists; split; [reflexivity |]; cbn; split; reflexivity ].

Lemma run_call_consecutive (c : Call) (w : World Ext) :
  state_ (self w) <> kInitializing ->
  consecutive_step w (snd (run_call c w)).
Proof.
  intros Hs. destruct c; step_m; run_m; try finish_consecutive.
  all: exfalso; destruct (state_ (self w)); [congruence | discriminate | discriminate].
Qed.

Lemma run_calls_consecutive (cs : list Call) (w : World Ext) :
  state_ (self w) <> kInitializing -> consecutive_step w (run_calls cs w).
Proof.
  revert w. induction cs as [|c cs IH]; intros w Hs; cbn.
  - apply consecutive_step_refl; exact Hs.
  - pose proof (run_call_consecutive c w Hs) as Hc.
    destruct (run_call c w) as [r w1]; cbn in Hc.
    destruct r; try exact Hc.
    eapply consecutive_step_trans; [exact Hc |].
    apply IH. destruct Hc as [H _]; exact H.
Qed.

Lemma run_call_assigns (c : Call) (w : World Ext) :
  exists new : list Event,
    trace (snd (run_call c w)) = trace w ++ new
    /\ (List.length (assigned new) <= 1)%nat.
Proof.
  destruct c; step_m; run_m.
  all: eexists; split;
    [ rewrite <- ?app_assoc; first [ reflexivity | symmetry; apply app_nil_r ]
    | cbn; lia ].
Qed.

(** A caller is handed no more indices than it makes calls. *)
Lemma run_calls_assigns (cs : list Call) (w : World Ext) :
  exists new : list Event,
    trace (run_calls cs w) = trace w ++ new
    /\ (List.length (assigned new) <= List.length cs)%nat.
Proof.
  revert w. induction cs as [|c cs IH]; intros w; cbn [run_calls List.length].
  - exists []. rewrite app_nil_r. split; [reflexivity | cbn; lia].
  - destruct (run_call_assigns c w) as (new1 & Ht1 & Hl1).
    destruct (run_call c w) as [r w1]; cbn [snd] in *.
    destruct r; try (exists new1; split; [exact Ht1 | lia]).
    destruct (IH w1) as (new2 & Ht2 & Hl2).
    exists (new1 ++ new2). split; [rewrite Ht2, Ht1, app_assoc; reflexivity |].
    rewrite assigned_app, length_app. lia.
Qed.

End Consecutive.

Section ReplicateFacts.

Context {Ext : Type} {C : Collaborators Ext}.

(** C2. A [Replicate] that returns [OK] has stamped the round's REPLICATE
    operation with term 0 and the counter's value before the call, and has
    incremented the counter once: by exactly one for every value below the
    largest of [int64_t], which the increment takes to the smallest.  Its
    actions are, in this order:
    size the operation, take the lock, assign the index, reserve the slot
    for the one-operation batch, release the lock, hand the slot and the
    callback to the log: assignment and reservation lie between the lock's
    acquisition and its release. *)
Theorem Replicate_success :
  forall (context : RoundPtr) (w w' : World Ext),
    Replicate context w = (Val OK, w') ->
    exists (r : ConsensusRound) (op : OperationPB) (cb : FutureCallback)
           (slot : LogEntryBatch),
      rounds w context = Some r
      /\ replicate_op_ r = Some op
      /\ replicate_callback_ r = Some cb
      /\ rounds w' context
         = Some (set_replicate_op (stamped (next_op_id_index_ (self w)) op) r)
      /\ id (stamped (next_op_id_index_ (self w)) op)
         = Some {| term := 0; index := next_op_id_index_ (self w) |}
      /\ next_op_id_index_ (self w') = add64 (next_op_id_index_ (self w)) 1
      /\ ((int64_min <= next_op_id_index_ (self w) < int64_max)%Z ->
          next_op_id_index_ (self w') = (next_op_id_index_ (self w) + 1)%Z)
      /\ lock_ (self w) = false
      /\ lock_ (self w') = false
      /\ trace w' = trace w ++
           [EvByteSize (set_term 0 op);
            EvLock;
            EvAssign (next_op_id_index_ (self w));
            EvReserve REPLICATE [stamped (next_op_id_index_ (self w)) op] OK;
            EvUnlock;
            EvAsyncAppend slot (FutureStatusCallback cb) OK].
Proof.
  intros context w w'. step_m. run_m.
  all: intros H; some_inj.
  all: match goal with
       | Hr : rounds _ _ = Some ?c, Ho : replicate_op_ ?c = Some ?o,
         Hc : replicate_callback_ ?c = Some ?f,
         Ha : Log_AsyncAppend ?l _ _ = _ |- _ => exists c, o, f, l
       end.
  all: cbn; rewrite ?Nat.eqb_refl, <- ?app_assoc; cbn.
  all: repeat split; try reflexivity; try assumption.
  all: intros; apply add64_1_small; assumption.
Qed.

(** What [Replicate] does up to and including the reservation. *)
Lemma Replicate_reserves (context : RoundPtr) (w : World Ext)
      (r : ConsensusRound) (op : OperationPB) :
  rounds w context = Some r ->
  replicate_op_ r = Some op ->
  lock_ (self w) = false ->
  (dchecks = true -> State_geb (state_ (self w)) kConfiguring = true) ->
  forall (s : Status) (slot : LogEntryBatch) (e : Ext),
    Log_Reserve [stamped (next_op_id_index_ (self w)) op] (ext w) = (s, slot, e) ->
    (forall k m, s = Err k m ->
       fst (Replicate context w) = Val (Err k m)
       /\ self (snd (Replicate context w))
          = with_next (add64 (next_op_id_index_ (self w)) 1) (self w)
       /\ rounds (snd (Replicate context w)) context
          = Some (set_replicate_op (stamped (next_op_id_index_ (self w)) op) r)
       /\ trace (snd (Replicate context w)) = trace w ++
            [EvByteSize (set_term 0 op); EvLock;
             EvAssign (next_op_id_index_ (self w));
             EvReserve REPLICATE [stamped (next_op_id_index_ (self w)) op] (Err k m);
             EvUnlock])
    /\ (s = OK ->
        forall cb, replicate_callback_ r = Some cb ->
          fst (Replicate context w)
          = Val (fst (Log_AsyncAppend slot (FutureStatusCallback cb) e))
          /\ self (snd (Replicate context w))
             = with_next (add64 (next_op_id_index_ (self w)) 1) (self w)).
Proof.
  intros Hr Hop Hl Hd s slot e Hres.
  rewrite <- stamped_set_index in Hres.
  assert (Hgo : (if dchecks
                 then CHECK (S := World Ext)
                        (State_geb (state_ (self w)) kConfiguring)
                        "Check failed: state_ >= kConfiguring"
                 else ret tt) w = (Val tt, w)).
  { destruct dchecks; [rewrite (Hd eq_refl) |]; reflexivity. }
  split.
  - intros k m ->. step_m.
    unfold CHECK in Hgo. unfold ret, abort in *.
    rewrite Hgo. exec. unfold CreateBatchFromAllocatedOperations. cbn.
    rewrite Hres. cbn. rewrite <- ?app_assoc, ?Nat.eqb_refl. cbn.
    rewrite (relock _ _ Hl). repeat split; reflexivity.
  - intros -> cb Hcb. step_m. unfold CHECK in Hgo. unfold ret, abort in *.
    rewrite Hgo. exec. unfold CreateBatchFromAllocatedOperations. cbn.
    rewrite Hres. exec.
    destruct (Log_AsyncAppend _ _ _) as [s2 e2]; cbn.
    rewrite (relock _ _ Hl). destruct s2; split; reflexivity.
Qed.

End ReplicateFacts.

Section CommitFacts.

Context {Ext : Type} {C : Collaborators Ext}.

(** What [Commit] does up to and including the reservation. *)
Lemma Commit_reserves (round : RoundPtr) (w : World Ext)
      (r : ConsensusRound) (op : OperationPB) :
  rounds w round = Some r ->
  commit_op_ r = Some op ->
  (dchecks = true -> has_commit op = true) ->
  lock_ (self w) = false ->
  forall (s : Status) (slot : LogEntryBatch) (e : Ext),
    Log_Reserve [op] (ext w) = (s, slot, e) ->
    (forall k m, s = Err k m -> fst (Commit round w) = Val (Err k m))
    /\ (s = OK ->
        forall cb, commit_callback_ r = Some cb ->
          fst (Commit round w)
          = Val (fst (Log_AsyncAppend slot (FutureStatusCallback cb) e))).
Proof.
  intros Hr Hop Hd Hl s slot e Hres.
  destruct dchecks eqn:Hdc; [pose proof (Hd eq_refl) as Hhc |]; split.
  1, 3: intros k m ->; step_m; exec;
    unfold CreateBatchFromAllocatedOperations; rewrite Hres; reflexivity.
  1, 2: intros -> cb Hcb; step_m; exec;
    unfold CreateBatchFromAllocatedOperations; rewrite Hres; exec;
    destruct (Log_AsyncAppend _ _ _) as [s2 e2]; cbn;
    destruct s2; reflexivity.
Qed.

(** C6. On a round whose commit operation is there (and carries a commit, as
    the [DCHECK] asks of it), the first thing [Commit] does is to take the
    callback out of the round: whatever the call does next, and however it
    ends, the round is left with an empty callback slot and its other members
    as they were, and every action on the log comes after the extraction.
    This is so in particular for every call that returns, with [OK] or with
    an error.  A round whose operation carries no commit stops a build with
    [DCHECK]s before anything is done. *)
Theorem Commit_releases_callback :
  forall (round : RoundPtr) (w : World Ext) (r : ConsensusRound) (op : OperationPB),
    rounds w round = Some r ->
    commit_op_ r = Some op ->
    ((dchecks = true -> has_commit op = true) ->
       rounds (snd (Commit round w)) round = Some (snd (release_commit_callback r))
       /\ commit_callback_ (snd (release_commit_callback r)) = None
       /\ (exists tl : list Event,
             trace (snd (Commit round w)) =
             trace w ++ EvReleaseCommitCallback (commit_callback_ r) :: tl)
       /\ (forall (s : Status) (w' : World Ext),
             Commit round w = (Val s, w') ->
             exists r', rounds w' round = Some r' /\ commit_callback_ r' = None))
    /\ (dchecks = true -> has_commit op = false ->
        Commit round w = (Abort "A commit operation must have a commit.", w)).
Proof.
  intros round w r op Hr Hop. split.
  - intros Hd.
    assert (Hcases : dchecks = false \/ (dchecks = true /\ has_commit op = true)).
    { destruct dchecks; [right; split; [reflexivity | apply Hd; reflexivity]
                        | left; reflexivity]. }
    assert (Hmain :
      rounds (snd (Commit round w)) round = Some (snd (release_commit_callback r))
      /\ exists tl : list Event,
           trace (snd (Commit round w)) =
           trace w ++ EvReleaseCommitCallback (commit_callback_ r) :: tl).
    { destruct Hcases as [Hdc | [Hdc Hhc]].
      all: step_m; exec; destruct (lock_ (self w)); exec;
        [ rewrite <- ?app_assoc; cbn; split; [reflexivity | eexists; reflexivity] |];
        unfold CreateBatchFromAllocatedOperations;
        destruct (Log_Reserve _ _) as [[s slot] e]; cbn;
        destruct s; exec;
        [ destruct (commit_callback_ r) as [cb|]; exec;
          [ destruct (Log_AsyncAppend _ _ _) as [s2 e2]; cbn;
            rewrite <- ?app_assoc; cbn;
            destruct s2; cbn;
            (split; [rewrite ?Nat.eqb_refl; reflexivity | eexists; reflexivity])
          | rewrite <- ?app_assoc, ?Nat.eqb_refl; cbn;
            split; [reflexivity | eexists; reflexivity] ]
        | rewrite <- ?app_assoc, ?Nat.eqb_refl; cbn;
          split; [reflexivity | eexists; reflexivity] ]. }
    destruct Hmain as [Hround Htrace].
    split; [exact Hround | split; [reflexivity | split; [exact Htrace |]]].
    intros s w' Hc. rewrite Hc in Hround. cbn in Hround.
    eexists; split; [exact Hround | reflexivity].
  - intros Hd Hc. step_m. exec. reflexivity.
Qed.

End CommitFacts.

Section FailurePaths.

Context {Ext : Type} {C : Collaborators Ext}.

Lemma events_after_app (a b : list Event) :
  events_after (List.length a) (a ++ b) = b.
Proof.
  unfold events_after. rewrite skipn_app, skipn_all, Nat.sub_diag. reflexivity.
Qed.

(** C8. When the log refuses the reservation, [Replicate] returns the log's
    error and the counter is not put back: it has been incremented, so it
    differs from its value before the call (and is one above it, unless that
    value was the largest of [int64_t]); the lock is free again, the round's
    operation keeps the index it was given and nothing is handed to the log
    for appending.  On a started engine, whatever calls follow, the indices
    they assign, no more than there are calls, are the values the counter
    takes from the incremented one on; as long as the counter stays an
    [int64_t] on the way, each of them is above the index of the failed
    call, which no later call hands out again. *)
Theorem Replicate_reserve_failure :
  forall (context : RoundPtr) (w : World Ext) (r : ConsensusRound)
         (op : OperationPB) (k : ErrorKind) (m : string),
    rounds w context = Some r ->
    replicate_op_ r = Some op ->
    lock_ (self w) = false ->
    (dchecks = true -> State_geb (state_ (self w)) kConfiguring = true) ->
    fst (fst (Log_Reserve [stamped (next_op_id_index_ (self w)) op] (ext w)))
      = Err k m ->
    fst (Replicate context w) = Val (Err k m)
    /\ next_op_id_index_ (self (snd (Replicate context w)))
       = add64 (next_op_id_index_ (self w)) 1
    /\ next_op_id_index_ (self (snd (Replicate context w)))
       <> next_op_id_index_ (self w)
    /\ ((int64_min <= next_op_id_index_ (self w) < int64_max)%Z ->
        next_op_id_index_ (self (snd (Replicate context w)))
        = (next_op_id_index_ (self w) + 1)%Z)
    /\ lock_ (self (snd (Replicate context w))) = false
    /\ rounds (snd (Replicate context w)) context
       = Some (set_replicate_op (stamped (next_op_id_index_ (self w)) op) r)
    /\ trace (snd (Replicate context w)) = trace w ++
         [EvByteSize (set_term 0 op); EvLock;
          EvAssign (next_op_id_index_ (self w));
          EvReserve REPLICATE [stamped (next_op_id_index_ (self w)) op] (Err k m);
          EvUnlock]
    /\ (state_ (self w) <> kInitializing ->
        forall cs : list Call,
          assigned
            (events_after (List.length (trace (snd (Replicate context w))))
               (trace (run_calls cs (snd (Replicate context w)))))
          = Zseq64 (add64 (next_op_id_index_ (self w)) 1)
              (List.length
                 (assigned
                    (events_after (List.length (trace (snd (Replicate context w))))
                       (trace (run_calls cs (snd (Replicate context w)))))))
          /\ (List.length
                (assigned
                   (events_after (List.length (trace (snd (Replicate context w))))
                      (trace (run_calls cs (snd (Replicate context w))))))
              <= List.length cs)%nat
          /\ (room64 (next_op_id_index_ (self w))
                (S (List.length
                      (assigned
                         (events_after
                            (List.length (trace (snd (Replicate context w))))
                            (trace (run_calls cs (snd (Replicate context w)))))))) ->
              Forall (fun i => next_op_id_index_ (self w) < i)%Z
                (assigned
                   (events_after (List.length (trace (snd (Replicate context w))))
                      (trace (run_calls cs (snd (Replicate context w)))))))).
Proof.
  intros context w r op k m Hr Hop Hl Hd Hres.
  destruct (Log_Reserve [stamped (next_op_id_index_ (self w)) op] (ext w))
    as [[s slot] e] eqn:HR.
  cbn in Hres; subst s.
  destruct (Replicate_reserves context w Hr Hop Hl Hd HR) as [Hfail _].
  destruct (Hfail k m eq_refl) as (Hres & Hself & Hround & Htrace).
  split; [exact Hres |]. split; [rewrite Hself; reflexivity |].
  split; [rewrite Hself; apply add64_1_neq |].
  split; [intros Hrange; rewrite Hself; apply add64_1_small; exact Hrange |].
  split; [rewrite Hself; cbn; exact Hl |].
  split; [exact Hround |]. split; [exact Htrace |].
  intros Hst cs.
  assert (Hst' : state_ (self (snd (Replicate context w))) <> kInitializing)
    by (rewrite Hself; exact Hst).
  destruct (@run_calls_consecutive _ _ cs _ Hst') as (_ & new & Hnew & Hseq & _).
  rewrite Hnew, events_after_app.
  rewrite Hself in Hseq. cbn [next_op_id_index_ with_next] in Hseq.
  split; [exact Hseq |].
  split.
  { destruct (@run_calls_assigns _ _ cs (snd (Replicate context w)))
      as (new' & Hnew' & Hle).
    rewrite Hnew in Hnew'. apply app_inv_head in Hnew'. subst new'. exact Hle. }
  intros [Hlo Hhi]. rewrite Hseq.
  rewrite add64_1_small by lia.
  rewrite Zseq64_room by (split; lia).
  eapply Forall_impl; [| apply Zseq_above]. cbn. intros; lia.
Qed.

(** C10. When the factory rejects the submission, [Start] returns the
    factory's error with the engine already switched over: the state is
    running, the counter keeps the value [Start] has set, the bootstrap index
    plus one as [int64_t] adds (the integer sum for every index below the
    largest), and the lock is free.  The engine then takes calls: a
    [Replicate] gets past its state check and, if the log accepts, returns
    [OK] having assigned that value; a [Commit] likewise returns [OK]. *)
Theorem Start_submission_rejected :
  forall (info : ConsensusBootstrapInfo) (w : World Ext)
         (p : QuorumPeerPB) (ps : list QuorumPeerPB) (k : ErrorKind) (m : string),
    state_ (self w) = kInitializing ->
    lock_ (self w) = false ->
    local (committed w) = true ->
    VerifyQuorum (committed w) = OK ->
    peers (committed w) = p :: ps ->
    fst (SubmitConsensusChangeConfig (leader_quorum (committed w) p ps)
           NullStatusCallback (ext w)) = Err k m ->
    fst (Start info w) = Val (Err k m)
    /\ state_ (self (snd (Start info w))) = kRunning
    /\ next_op_id_index_ (self (snd (Start info w))) = add64 (index (last_id info)) 1
    /\ ((int64_min <= index (last_id info) < int64_max)%Z ->
        next_op_id_index_ (self (snd (Start info w))) = (index (last_id info) + 1)%Z)
    /\ lock_ (self (snd (Start info w))) = false
    /\ (forall (context : RoundPtr) (r : ConsensusRound) (op : OperationPB)
               (cb : FutureCallback) (slot : LogEntryBatch) (e : Ext),
          rounds (snd (Start info w)) context = Some r ->
          replicate_op_ r = Some op ->
          replicate_callback_ r = Some cb ->
          Log_Reserve [stamped (add64 (index (last_id info)) 1) op]
            (ext (snd (Start info w))) = (OK, slot, e) ->
          fst (Log_AsyncAppend slot (FutureStatusCallback cb) e) = OK ->
          fst (Replicate context (snd (Start info w))) = Val OK)
    /\ (forall (round : RoundPtr) (r : ConsensusRound) (op : OperationPB)
               (cb : FutureCallback) (slot : LogEntryBatch) (e : Ext),
          rounds (snd (Start info w)) round = Some r ->
          commit_op_ r = Some op ->
          has_commit op = true ->
          commit_callback_ r = Some cb ->
          Log_Reserve [op] (ext (snd (Start info w))) = (OK, slot, e) ->
          fst (Log_AsyncAppend slot (FutureStatusCallback cb) e) = OK ->
          fst (Commit round (snd (Start info w))) = Val OK).
Proof.
  intros info w p ps k m Hst Hl Hloc Hv Hp Hsub.
  rewrite (Start_runs info w Hst Hl Hloc Hv Hp). cbn [fst snd].
  split; [rewrite Hsub; reflexivity |].
  split; [reflexivity |]. split; [reflexivity |].
  split; [intros Hrange; apply add64_1_small; exact Hrange |].
  split; [reflexivity |].
  split.
  - intros context r op cb slot e Hr Hop Hcb Hres Happ.
    match goal with |- fst (Replicate context ?w1) = _ => set (w' := w1) in * end.
    assert (Hl' : lock_ (self w') = false) by reflexivity.
    assert (Hd' : dchecks = true -> State_geb (state_ (self w')) kConfiguring = true)
      by (intros _; reflexivity).
    destruct (Replicate_reserves context w' Hr Hop Hl' Hd' Hres) as [_ Hok].
    rewrite (proj1 (Hok eq_refl cb Hcb)). rewrite Happ. reflexivity.
  - intros round r op cb slot e Hr Hop Hhc Hcb Hres Happ.
    match goal with |- fst (Commit round ?w1) = _ => set (w' := w1) in * end.
    assert (Hl' : lock_ (self w') = false) by reflexivity.
    destruct (Commit_reserves round w' Hr Hop (fun _ => Hhc) Hl' Hres) as [_ Hok].
    rewrite (Hok eq_refl cb Hcb). rewrite Happ. reflexivity.
Qed.

End FailurePaths.

(** * The engine under concurrent callers *)

(** Unfolding of a thread's move into the primitive actions. *)
Ltac step_t :=
  unfold thread_step, advance, goto, replicate_entry, load_next_index,
    store_next_index, replicate_reserve, replicate_append, commit_entry,
    commit_reserve, commit_append, after_unlock in *;
  cbn [job control commit_clbk] in *.

Section MachineFacts.

Context {Ext : Type} {C : Collaborators Ext}.

Lemma op_index_store_same_index (w : World Ext) (e : Ext) (t : list Event)
      (c : LocalConsensus) (context : RoundPtr) (r r' : ConsensusRound) :
  rounds w context = Some r ->
  match replicate_op_ r', replicate_op_ r with
  | Some a, Some b => index (mutable_id a) = index (mutable_id b)
  | None, None => True
  | _, _ => False
  end ->
  forall p,
    op_index {| self := c;
                rounds := fun q => if Nat.eqb q context then Some r' else rounds w q;
                ext := e; trace := t |} p
    = op_index w p.
Proof.
  intros Hr Hidx p. unfold op_index. cbn.
  destruct (Nat.eqb p context) eqn:Hp.
  - apply Nat.eqb_eq in Hp. subst p. rewrite Hr.
    destruct (replicate_op_ r'), (replicate_op_ r); try contradiction; congruence.
  - reflexivity.
Qed.

Ltac op_index_goal :=
  first [ intros; reflexivity
        | eapply op_index_store_same_index; [eassumption |];
          cbn; repeat match goal with H : _ = _ |- _ => rewrite H end;
          cbn; first [reflexivity | exact I
                     | destruct (replicate_op_ _); [reflexivity | exact I] ] ].

Lemma thread_step_kinds (th : Thread) (w : World Ext) :
  step_kind th w (fst (thread_step th w)) (snd (thread_step th w)).
Proof.
  destruct th as [j c clbk]. destruct j as [context | round]; destruct c.
  all: step_t; step_m; run_m; some_inj.
  all: try (apply k_stay; reflexivity).
  all: try (solve [eapply k_abort with (evs := []); cbn; rewrite ?app_nil_r; reflexivity]).
  all: try (solve [eapply k_quiet;
                   [reflexivity | reflexivity | reflexivity
                   | cbn; rewrite <- ?app_assoc; reflexivity
                   | reflexivity | reflexivity | op_index_goal]]).
  all: try (solve [eapply k_acquire;
                   [reflexivity | reflexivity | intros; discriminate
                   | intros; discriminate | assumption | reflexivity | reflexivity]]).
  all: try (solve [eapply k_load; reflexivity]).
  all: try (solve [eapply k_unlock;
                   [reflexivity | intros; discriminate | reflexivity
                   | reflexivity | reflexivity]]).
  all: try (solve [eapply k_store;
                   [reflexivity | reflexivity | reflexivity | reflexivity
                   | reflexivity | reflexivity | reflexivity
                   | unfold op_index; cbn; rewrite Nat.eqb_refl; reflexivity]]).
  all: try (solve [eapply k_reserve_replicate with (res := (_, _));
                   [reflexivity | reflexivity | reflexivity | reflexivity
                   | reflexivity
                   | unfold op_index;
                     repeat match goal with H : _ = _ |- _ => rewrite H end;
                     reflexivity
                   | reflexivity]]).
  all: try (solve [eapply k_reserve_commit with (res := (_, _));
                   [reflexivity | intros; discriminate | reflexivity
                   | reflexivity | reflexivity | reflexivity]]).
Qed.

Lemma Zseq_snoc (n : Z) (k : nat) :
  Zseq n (S k) = Zseq n k ++ [(n + Z.of_nat k)%Z].
Proof.
  revert n. induction k as [|k IH]; intros n.
  - cbn. rewrite Z.add_0_r. reflexivity.
  - change (Zseq n (S (S k))) with (n :: Zseq (n + 1)%Z (S k)).
    rewrite IH. cbn [Zseq app]. do 3 f_equal. lia.
Qed.

Lemma Zseq_sorted (n : Z) (k : nat) : StronglySorted Z.lt (Zseq n k).
Proof.
  revert n. induction k as [|k IH]; intros n; cbn; constructor.
  - apply IH.
  - assert (H : forall j m, (n < m)%Z -> Forall (Z.lt n) (Zseq m j)).
    { induction j as [|j IHj]; intros m Hm; cbn; constructor.
      - exact Hm.
      - apply IHj. lia. }
    apply H. lia.
Qed.

Lemma requested_app (a b : list Event) :
  requested (a ++ b) = requested a ++ requested b.
Proof.
  induction a as [|e a IH]; cbn; [reflexivity |].
  destruct e; cbn; rewrite ?IH; try reflexivity.
  destruct ph; try reflexivity.
  destruct b0 as [|op [|op' rest]]; reflexivity.
Qed.

Lemma pending_index_length (m : Machine (Ext := Ext)) (h : option nat) :
  (List.length (pending_index m h) <= 1)%nat.
Proof.
  unfold pending_index. destruct h as [t|]; cbn; [| lia].
  destruct (pool m t) as [[j c clbk]|]; cbn; [| lia].
  destruct j; cbn; try lia. destruct c; cbn; try lia.
  destruct (op_index _ _); cbn; lia.
Qed.

Lemma pool_moved_same (m : @Machine Ext) t th' w' : pool (moved m t th' w') t = Some th'.
Proof. cbn. rewrite Nat.eqb_refl. reflexivity. Qed.

Lemma pool_moved_other (m : @Machine Ext) t th' w' u :
  u <> t -> pool (moved m t th' w') u = pool m u.
Proof. intros Hne. cbn. apply Nat.eqb_neq in Hne. rewrite Hne. reflexivity. Qed.

Lemma holder_ok_moved (m : @Machine Ext) h t th th' w' :
  holder_ok m h ->
  pool m t = Some th ->
  (in_critical_section th = false -> in_critical_section th' = true ->
   lock_ (self (world m)) = false) ->
  (in_critical_section th' = true -> lock_ (self w') = true) ->
  (in_critical_section th = false -> in_critical_section th' = false ->
   lock_ (self w') = lock_ (self (world m))) ->
  holder_ok (moved m t th' w')
    (if in_critical_section th' then Some t
     else if in_critical_section th then None else h).
Proof.
  intros [Hin Hout] Hp Henter Hheld Hquiet.
  destruct (in_critical_section th') eqn:Hcs'.
  - split.
    + intros u thu Hu Hcsu. destruct (Nat.eq_dec u t) as [-> | Hne]; [reflexivity |].
      rewrite pool_moved_other in Hu by assumption.
      pose proof (Hin u thu Hu Hcsu) as Hh.
      destruct (in_critical_section th) eqn:Hcs.
      * pose proof (Hin t th Hp Hcs). congruence.
      * destruct (Hout u Hh) as [Hl _]. rewrite (Henter eq_refl eq_refl) in Hl.
        discriminate.
    + intros u Hu. inversion Hu; subst u. split; [apply Hheld; reflexivity |].
      exists th'. split; [apply pool_moved_same | assumption].
  - destruct (in_critical_section th) eqn:Hcs.
    + split; [| intros u Hu; discriminate].
      intros u thu Hu Hcsu. exfalso.
      destruct (Nat.eq_dec u t) as [-> | Hne].
      * rewrite pool_moved_same in Hu. inversion Hu; subst thu. congruence.
      * rewrite pool_moved_other in Hu by assumption.
        pose proof (Hin u thu Hu Hcsu) as H1.
        pose proof (Hin t th Hp Hcs) as H2. congruence.
    + split.
      * intros u thu Hu Hcsu.
        destruct (Nat.eq_dec u t) as [-> | Hne].
        -- rewrite pool_moved_same in Hu. inversion Hu; subst thu. congruence.
        -- rewrite pool_moved_other in Hu by assumption. eapply Hin; eassumption.
      * intros u Hu. destruct (Hout u Hu) as (Hl & thu & Hpu & Hcsu).
        split; [cbn; rewrite (Hquiet eq_refl eq_refl); exact Hl |].
        exists thu. split; [| assumption].
        rewrite pool_moved_other; [assumption |].
        intros ->. congruence.
Qed.

Lemma pool_moved_stay (m : @Machine Ext) t th w' u :
  pool m t = Some th -> pool (moved m t th w') u = pool m u.
Proof.
  intros Hp. cbn. destruct (Nat.eqb u t) eqn:Hu; [| reflexivity].
  apply Nat.eqb_eq in Hu. subst u. symmetry. exact Hp.
Qed.

Lemma machine_inv_intro n0 t0 (m' : @Machine Ext) (h' : option nat) (new' : list Event) :
  trace (world m') = t0 ++ new' ->
  assigned new' = Zseq64 n0 (List.length (assigned new')) ->
  (crashed m' = true ->
   exists pending, assigned new' = map fst (requested new') ++ pending
                   /\ (List.length pending <= 1)%nat) ->
  (crashed m' = false ->
   holder_ok m' h'
   /\ next_op_id_index_ (self (world m'))
      = after64 (List.length (assigned new')) n0
   /\ assigned new' = map fst (requested new') ++ pending_index m' h'
   /\ (forall t th i, pool m' t = Some th -> control th = AtStore i ->
                      in_critical_section th = true ->
                      i = next_op_id_index_ (self (world m')))) ->
  machine_inv n0 t0 m'.
Proof.
  intros Htr Hseq Hdead Hlive. exists h', new'.
  split; [exact Htr | split; [exact Hseq | split; [| exact Hlive]]].
  destruct (crashed m') eqn:Hc; [apply Hdead; reflexivity |].
  destruct (Hlive eq_refl) as (_ & _ & Hpi & _).
  exists (pending_index m' h'). split; [exact Hpi | apply pending_index_length].
Qed.

Lemma machine_inv_intro_live n0 t0 (m' : @Machine Ext) (h' : option nat)
      (new' : list Event) :
  trace (world m') = t0 ++ new' ->
  assigned new' = Zseq64 n0 (List.length (assigned new')) ->
  holder_ok m' h' ->
  next_op_id_index_ (self (world m'))
    = after64 (List.length (assigned new')) n0 ->
  assigned new' = map fst (requested new') ++ pending_index m' h' ->
  (forall t th i, pool m' t = Some th -> control th = AtStore i ->
                  in_critical_section th = true ->
                  i = next_op_id_index_ (self (world m'))) ->
  machine_inv n0 t0 m'.
Proof.
  intros Htr Hseq Hh Hn Hpi Hst. apply machine_inv_intro with (h' := h') (new' := new');
    try assumption.
  - intros _. exists (pending_index m' h'). split; [exact Hpi | apply pending_index_length].
  - intros _. auto.
Qed.

(** The holder's thread is the only one that can be about to reserve. *)
Lemma pending_index_not_holder (m : @Machine Ext) (h : option nat) t th :
  holder_ok m h -> pool m t = Some th -> in_critical_section th = false ->
  forall w' th',
    (forall p, op_index w' p = op_index (world m) p) ->
    pending_index (moved m t th' w') h = pending_index m h.
Proof.
  intros [Hin Hout] Hp Hcs w' th' Hop. unfold pending_index.
  destruct h as [u|]; [| reflexivity].
  destruct (Hout u eq_refl) as (_ & thu & Hpu & Hcsu).
  assert (Hne : u <> t) by (intros ->; congruence).
  rewrite pool_moved_other by assumption. rewrite Hpu.
  destruct thu as [j c clbk]. destruct j; [| reflexivity]. destruct c; try reflexivity.
  cbn. rewrite Hop. reflexivity.
Qed.

Lemma pending_index_self (m : @Machine Ext) t th' w' :
  pending_index (moved m t th' w') (Some t) =
  match job th', control th' with
  | JobReplicate context, AtReserve =>
      match op_index w' context with Some i => [i] | None => [] end
  | _, _ => []
  end.
Proof.
  unfold pending_index. rewrite pool_moved_same.
  destruct th' as [j c clbk]. destruct j; [| reflexivity]. destruct c; reflexivity.
Qed.

Lemma pending_index_at (m : @Machine Ext) t th :
  pool m t = Some th ->
  pending_index m (Some t) =
  match job th, control th with
  | JobReplicate context, AtReserve =>
      match op_index (world m) context with Some i => [i] | None => [] end
  | _, _ => []
  end.
Proof.
  intros Hp. unfold pending_index. rewrite Hp.
  destruct th as [j c clbk]. destruct j; [| reflexivity]. destruct c; reflexivity.
Qed.

Lemma moved_preserves_inv n0 t0 (m : @Machine Ext) t th th' w' :
  machine_inv n0 t0 m ->
  crashed m = false ->
  pool m t = Some th ->
  step_kind th (world m) th' w' ->
  machine_inv n0 t0 (moved m t th' w').
Proof.
  intros (h & new & Htr & Hseq & Hpend & Hlive) Hc Hp K.
  destruct (Hlive Hc) as (Hh & Hnext & Hpi & Hst).
  pose proof Hh as [Hin Hout].
  destruct K as [-> -> | evs Hcs Hcs' Hself Htr' Ha Hr Hop
                | evs Hd Htr' Ha Hr
                | Hcs Hcs' Hns Hnr Hl Hself Htr'
                | Hcs Hctl Hcs' Hctl' ->
                | context i Hj Hctl Hj' Hctl' Hn' Hl' Htr' Hop
                | context op res Hj Hctl Hj' Hctl' Hself Hop Htr'
                | b res Hcs Hj Hcs' Hctl' Hself Htr'
                | Hcs Hna Hcs' Hn' Htr'].
  - (* stay *)
    apply machine_inv_intro with (h' := h) (new' := new); try assumption.
    + intros _. exact Hpend.
    + intros _. split; [| split; [exact Hnext | split]].
      * split.
        -- intros u thu Hu. rewrite pool_moved_stay in Hu by exact Hp. apply Hin; exact Hu.
        -- intros u Hu. destruct (Hout u Hu) as (Hl & thu & Hpu & Hcsu).
           split; [exact Hl |]. exists thu.
           rewrite pool_moved_stay by exact Hp. auto.
      * rewrite Hpi. f_equal. unfold pending_index. destruct h as [u|]; [| reflexivity].
        rewrite pool_moved_stay by exact Hp. reflexivity.
      * intros u thu i Hu Hctl Hcsu. rewrite pool_moved_stay in Hu by exact Hp.
        exact (Hst u thu i Hu Hctl Hcsu).
  - (* quiet *)
    apply machine_inv_intro with (h' := h) (new' := new ++ evs).
    + cbn. rewrite Htr', Htr, app_assoc. reflexivity.
    + rewrite assigned_app, Ha, app_nil_r. exact Hseq.
    + intros _. rewrite assigned_app, requested_app, Ha, Hr, !app_nil_r. exact Hpend.
    + intros _.
      pose proof (@holder_ok_moved m h t th th' w' Hh Hp
                    (fun _ (H : in_critical_section th' = true) =>
                       ltac:(congruence))
                    (fun (H : in_critical_section th' = true) => ltac:(congruence))
                    (fun _ _ => f_equal lock_ Hself)) as Hh'.
      rewrite Hcs, Hcs' in Hh'.
      split; [exact Hh' | split; [| split]].
      * cbn. rewrite Hself, assigned_app, Ha, app_nil_r. exact Hnext.
      * rewrite assigned_app, requested_app, Ha, Hr, !app_nil_r.
        erewrite pending_index_not_holder; [exact Hpi | exact Hh | exact Hp | exact Hcs | exact Hop].
      * intros u thu i Hu Hctl Hcsu. cbn [world moved]. rewrite Hself.
        destruct (Nat.eq_dec u t) as [-> | Hne].
        -- rewrite pool_moved_same in Hu. inversion Hu; subst thu. congruence.
        -- rewrite pool_moved_other in Hu by assumption. eapply Hst; eassumption.
  - (* abort *)
    apply machine_inv_intro with (h' := h) (new' := new ++ evs).
    + cbn. rewrite Htr', Htr, app_assoc. reflexivity.
    + rewrite assigned_app, Ha, app_nil_r. exact Hseq.
    + intros _. rewrite assigned_app, requested_app, Ha, Hr, !app_nil_r. exact Hpend.
    + cbn. rewrite Hd. discriminate.
  - (* acquire *)
    assert (Hnone : h = None).
    { destruct h as [u|]; [| reflexivity].
      destruct (Hout u eq_refl) as [Hl' _]. congruence. }
    subst h.
    pose proof (@holder_ok_moved m None t th th' w' Hh Hp (fun _ _ => Hl)
                  (fun _ => ltac:(rewrite Hself; reflexivity))
                  (fun _ (H : in_critical_section th' = false) =>
                     ltac:(congruence))) as Hh'.
    rewrite Hcs' in Hh'.
    apply machine_inv_intro_live with (h' := Some t) (new' := new ++ [EvLock]).
    + cbn. rewrite Htr', Htr, app_assoc. reflexivity.
    + rewrite assigned_app, app_nil_r. exact Hseq.
    + exact Hh'.
    + cbn. rewrite Hself, assigned_app, app_nil_r. exact Hnext.
    + rewrite assigned_app, requested_app, !app_nil_r, pending_index_self.
      cbn in Hpi. rewrite Hpi.
      destruct th' as [j c clbk]; cbn in *. destruct j; [| reflexivity].
      destruct c; try reflexivity. exfalso. eapply Hnr; reflexivity.
    + intros u thu i Hu Hctl Hcsu.
      destruct (Nat.eq_dec u t) as [-> | Hne].
      * rewrite pool_moved_same in Hu. inversion Hu; subst thu.
        exfalso. eapply Hns; eassumption.
      * rewrite pool_moved_other in Hu by assumption.
        pose proof (Hin u thu Hu Hcsu). discriminate.
  - (* load *)
    pose proof (Hin t th Hp Hcs) as Hht. subst h.
    destruct (Hout t eq_refl) as [Hl _].
    pose proof (@holder_ok_moved m (Some t) t th th' (world m) Hh Hp
                  (fun (H : in_critical_section th = false) _ => ltac:(congruence))
                  (fun _ => Hl)
                  (fun (H : in_critical_section th = false) _ => ltac:(congruence)))
      as Hh'.
    rewrite Hcs' in Hh'.
    apply machine_inv_intro_live with (h' := Some t) (new' := new); try assumption.
    + rewrite pending_index_self. rewrite (@pending_index_at m t th Hp), Hctl in Hpi.
      rewrite Hpi. rewrite Hctl'. destruct (job th), (job th'); reflexivity.
    + intros u thu i Hu Hctlu Hcsu.
      destruct (Nat.eq_dec u t) as [-> | Hne].
      * rewrite pool_moved_same in Hu. inversion Hu; subst thu.
        rewrite Hctl' in Hctlu. inversion Hctlu. reflexivity.
      * rewrite pool_moved_other in Hu by assumption.
        pose proof (Hin u thu Hu Hcsu) as Hu'. congruence.
  - (* store *)
    assert (Hcs : in_critical_section th = true).
    { unfold in_critical_section. rewrite Hj, Hctl. reflexivity. }
    assert (Hcs' : in_critical_section th' = true).
    { unfold in_critical_section. rewrite Hj', Hctl'. reflexivity. }
    pose proof (Hin t th Hp Hcs) as Hht. subst h.
    destruct (Hout t eq_refl) as [Hl _].
    pose proof (Hst t th i Hp Hctl Hcs) as Hi.
    pose proof (@holder_ok_moved m (Some t) t th th' w' Hh Hp
                  (fun (H : in_critical_section th = false) _ => ltac:(congruence))
                  (fun _ => eq_trans Hl' Hl)
                  (fun (H : in_critical_section th = false) _ => ltac:(congruence)))
      as Hh'.
    rewrite Hcs' in Hh'.
    rewrite (@pending_index_at m t th Hp), Hj, Hctl, app_nil_r in Hpi.
    apply machine_inv_intro_live with (h' := Some t) (new' := new ++ [EvAssign i]).
    + cbn. rewrite Htr', Htr, app_assoc. reflexivity.
    + rewrite assigned_app. cbn [assigned]. rewrite length_app. cbn [List.length].
      rewrite Nat.add_1_r, Zseq64_snoc, <- Hseq. f_equal. f_equal. congruence.
    + exact Hh'.
    + cbn [world moved]. rewrite Hn', assigned_app, length_app. cbn [assigned List.length].
      rewrite Nat.add_1_r. cbn [after64]. congruence.
    + rewrite assigned_app, requested_app, pending_index_self, Hj', Hctl', Hop.
      cbn. rewrite app_nil_r, Hpi. reflexivity.
    + intros u thu k Hu Hctlu Hcsu.
      destruct (Nat.eq_dec u t) as [-> | Hne].
      * rewrite pool_moved_same in Hu. inversion Hu; subst thu. congruence.
      * rewrite pool_moved_other in Hu by assumption.
        pose proof (Hin u thu Hu Hcsu) as Hu'. congruence.
  - (* reserve, REPLICATE *)
    assert (Hcs : in_critical_section th = true).
    { unfold in_critical_section. rewrite Hj, Hctl. reflexivity. }
    assert (Hcs' : in_critical_section th' = true).
    { unfold in_critical_section. rewrite Hj', Hj, Hctl'. reflexivity. }
    pose proof (Hin t th Hp Hcs) as Hht. subst h.
    destruct (Hout t eq_refl) as [Hl _].
    pose proof (@holder_ok_moved m (Some t) t th th' w' Hh Hp
                  (fun (H : in_critical_section th = false) _ => ltac:(congruence))
                  (fun _ => eq_trans (f_equal lock_ Hself) Hl)
                  (fun (H : in_critical_section th = false) _ => ltac:(congruence)))
      as Hh'.
    rewrite Hcs' in Hh'.
    rewrite (@pending_index_at m t th Hp), Hj, Hctl, Hop in Hpi.
    apply machine_inv_intro_live
      with (h' := Some t) (new' := new ++ [EvReserve REPLICATE [op] (fst res)]).
    + cbn. rewrite Htr', Htr, app_assoc. reflexivity.
    + rewrite assigned_app, app_nil_r. exact Hseq.
    + exact Hh'.
    + cbn [world moved]. rewrite Hself, assigned_app, app_nil_r. exact Hnext.
    + rewrite assigned_app, requested_app, pending_index_self, Hctl'.
      cbn. rewrite map_app. cbn. rewrite !app_nil_r.
      destruct (job th'); rewrite ?app_nil_r; exact Hpi.
    + intros u thu k Hu Hctlu Hcsu.
      destruct (Nat.eq_dec u t) as [-> | Hne].
      * rewrite pool_moved_same in Hu. inversion Hu; subst thu. congruence.
      * rewrite pool_moved_other in Hu by assumption.
        pose proof (Hin u thu Hu Hcsu) as Hu'. congruence.
  - (* reserve, COMMIT *)
    pose proof (Hin t th Hp Hcs) as Hht. subst h.
    destruct (Hout t eq_refl) as [Hl _].
    pose proof (@holder_ok_moved m (Some t) t th th' w' Hh Hp
                  (fun (H : in_critical_section th = false) _ => ltac:(congruence))
                  (fun _ => eq_trans (f_equal lock_ Hself) Hl)
                  (fun (H : in_critical_section th = false) _ => ltac:(congruence)))
      as Hh'.
    rewrite Hcs' in Hh'.
    assert (Hold : pending_index m (Some t) = []).
    { rewrite (@pending_index_at m t th Hp).
      destruct (job th) as [context|] eqn:Hjob; [| reflexivity].
      exfalso. eapply Hj; reflexivity. }
    rewrite Hold, app_nil_r in Hpi.
    apply machine_inv_intro_live
      with (h' := Some t) (new' := new ++ [EvReserve COMMIT b (fst res)]).
    + cbn. rewrite Htr', Htr, app_assoc. reflexivity.
    + rewrite assigned_app, app_nil_r. exact Hseq.
    + exact Hh'.
    + cbn [world moved]. rewrite Hself, assigned_app, app_nil_r. exact Hnext.
    + rewrite assigned_app, requested_app, pending_index_self, Hctl'.
      cbn. rewrite ?app_nil_r. destruct (job th'); rewrite ?app_nil_r; exact Hpi.
    + intros u thu k Hu Hctlu Hcsu.
      destruct (Nat.eq_dec u t) as [-> | Hne].
      * rewrite pool_moved_same in Hu. inversion Hu; subst thu. congruence.
      * rewrite pool_moved_other in Hu by assumption.
        pose proof (Hin u thu Hu Hcsu) as Hu'. congruence.
  - (* unlock *)
    pose proof (Hin t th Hp Hcs) as Hht. subst h.
    pose proof (@holder_ok_moved m (Some t) t th th' w' Hh Hp
                  (fun (H : in_critical_section th = false) _ => ltac:(congruence))
                  (fun (H : in_critical_section th' = true) => ltac:(congruence))
                  (fun (H : in_critical_section th = false) _ => ltac:(congruence)))
      as Hh'.
    rewrite Hcs', Hcs in Hh'.
    assert (Hold : pending_index m (Some t) = []).
    { rewrite (@pending_index_at m t th Hp).
      destruct (job th) as [context|] eqn:Hjob; [| reflexivity].
      destruct (control th) eqn:Hctl; try reflexivity.
      exfalso. eapply Hna; reflexivity. }
    rewrite Hold, app_nil_r in Hpi.
    apply machine_inv_intro_live with (h' := None) (new' := new ++ [EvUnlock]).
    + cbn. rewrite Htr', Htr, app_assoc. reflexivity.
    + rewrite assigned_app, app_nil_r. exact Hseq.
    + exact Hh'.
    + cbn [world moved]. rewrite Hn', assigned_app, app_nil_r. exact Hnext.
    + rewrite assigned_app, requested_app, !app_nil_r. cbn. rewrite ?app_nil_r. exact Hpi.
    + intros u thu k Hu Hctlu Hcsu.
      destruct (Nat.eq_dec u t) as [-> | Hne].
      * rewrite pool_moved_same in Hu. inversion Hu; subst thu. congruence.
      * rewrite pool_moved_other in Hu by assumption.
        pose proof (Hin u thu Hu Hcsu) as Hu'. congruence.
Qed.

Lemma step_preserves_inv n0 t0 (m : @Machine Ext) (t : nat) :
  machine_inv n0 t0 m -> machine_inv n0 t0 (step t m).
Proof.
  intros Hinv. unfold step.
  destruct (crashed m) eqn:Hc; [exact Hinv |].
  destruct (pool m t) as [th|] eqn:Hp; [| exact Hinv].
  pose proof (thread_step_kinds th (world m)) as K.
  destruct (thread_step th (world m)) as [th' w']. cbn [fst snd] in K.
  eapply moved_preserves_inv; eassumption.
Qed.

Lemma run_preserves_inv n0 t0 (schedule : list nat) (m : @Machine Ext) :
  machine_inv n0 t0 m -> machine_inv n0 t0 (run schedule m).
Proof.
  revert m. induction schedule as [|t schedule IH]; intros m Hinv; cbn.
  - exact Hinv.
  - apply IH. apply step_preserves_inv. exact Hinv.
Qed.

Lemma spawn_inv (jobs : list Job) (w : World Ext) :
  machine_inv (next_op_id_index_ (self w)) (trace w) (spawn jobs w).
Proof.
  apply machine_inv_intro_live with (h' := None) (new' := []).
  - cbn. rewrite app_nil_r. reflexivity.
  - reflexivity.
  - split; [| intros t Ht; discriminate].
    intros t th Hp Hcs. cbn in Hp.
    destruct (nth_error jobs t) as [j|]; [| discriminate].
    inversion Hp; subst th. destruct j; discriminate.
  - cbn. lia.
  - reflexivity.
  - intros t th i Hp Hctl _. cbn in Hp.
    destruct (nth_error jobs t) as [j|]; [| discriminate].
    inversion Hp; subst th. discriminate.
Qed.

End MachineFacts.

Lemma StronglySorted_lt_NoDup (l : list Z) : StronglySorted Z.lt l -> NoDup l.
Proof.
  induction 1 as [|a l Hs IH Hall]; constructor; [| exact IH].
  intros Hin. rewrite Forall_forall in Hall. specialize (Hall a Hin). lia.
Qed.

Lemma StronglySorted_app_l (l1 l2 : list Z) :
  StronglySorted Z.lt (l1 ++ l2) -> StronglySorted Z.lt l1.
Proof.
  induction l1 as [|a l1 IH]; cbn; intros H; [constructor |].
  apply StronglySorted_inv in H. destruct H as [Hs Hall].
  constructor; [apply IH; exact Hs |].
  apply Forall_app in Hall. tauto.
Qed.

Lemma StronglySorted_map_fst_filter (f : Z * Status -> bool) (l : list (Z * Status)) :
  StronglySorted Z.lt (map fst l) -> StronglySorted Z.lt (map fst (filter f l)).
Proof.
  induction l as [|x l IH]; cbn; intros H; [constructor |].
  apply StronglySorted_inv in H. destruct H as [Hs Hall].
  destruct (f x); cbn; [| apply IH; exact Hs].
  constructor; [apply IH; exact Hs |].
  rewrite Forall_forall in *. intros y Hy. apply Hall.
  rewrite in_map_iff in *. destruct Hy as (z & Hz & Hin).
  exists z. split; [exact Hz |]. apply filter_In in Hin. tauto.
Qed.

Section AssignmentsCounted.

Context {Ext : Type} {C : Collaborators Ext}.

Lemma thread_step_assigns (th : Thread) (w : World Ext) :
  exists evs : list Event,
    trace (snd (thread_step th w)) = trace w ++ evs
    /\ (List.length (assigned evs) + Nat.b2n (past_store th)
        <= Nat.b2n (past_store (fst (thread_step th w))))%nat.
Proof.
  destruct th as [j c clbk]. destruct j as [context | round]; destruct c.
  all: step_t; step_m; run_m.
  all: eexists; split;
    [ rewrite <- ?app_assoc; first [ reflexivity | symmetry; apply app_nil_r ]
    | cbn; lia ].
Qed.

Lemma filter_update_le (f g : nat -> bool) (t : nat) (l : list nat) :
  NoDup l -> In t l -> (forall u, u <> t -> g u = f u) ->
  (List.length (filter f l) + Nat.b2n (g t)
   <= List.length (filter g l) + Nat.b2n (f t))%nat.
Proof.
  intros Hnd Hin Hext. induction l as [|a l IH]; [destruct Hin |].
  inversion Hnd as [|? ? Hnotin Hnd']; subst.
  destruct (Nat.eq_dec a t) as [-> | Hne].
  - assert (Hsame : filter g l = filter f l).
    { apply filter_ext_in. intros u Hu. apply Hext. intros ->. contradiction. }
    cbn. rewrite Hsame. destruct (f t), (g t); cbn; lia.
  - destruct Hin as [-> | Hin]; [congruence |].
    specialize (IH Hnd' Hin). cbn. rewrite (Hext a Hne).
    destruct (f a); cbn; lia.
Qed.

Lemma step_preserves_bound (n : nat) (t0 : list Event) (t : nat) (m : @Machine Ext) :
  assign_bound n t0 m -> assign_bound n t0 (step t m).
Proof.
  intros Hinv. pose proof Hinv as (Hout & new & Htr & Hle). unfold step.
  destruct (crashed m); [exact Hinv |].
  destruct (pool m t) as [th|] eqn:Hp; [| exact Hinv].
  destruct (thread_step_assigns th (world m)) as (evs & Hevs & Hstep).
  destruct (thread_step th (world m)) as [th' w']. cbn [fst snd] in *.
  assert (Ht : (t < n)%nat).
  { destruct (Nat.lt_ge_cases t n) as [H | H]; [exact H |].
    rewrite (Hout t H) in Hp. discriminate. }
  split.
  - intros u Hu. cbn. destruct (Nat.eqb u t) eqn:Hut; [| apply Hout; exact Hu].
    apply Nat.eqb_eq in Hut. lia.
  - exists (new ++ evs). cbn [world]. split; [rewrite Hevs, Htr, app_assoc; reflexivity |].
    rewrite assigned_app, length_app.
    pose proof (@filter_update_le
                  (fun u => match pool m u with
                            | Some x => past_store x
                            | None => false
                            end)
                  (fun u => match (if Nat.eqb u t then Some th' else pool m u) with
                            | Some x => past_store x
                            | None => false
                            end)
                  t (seq 0 n) (seq_NoDup n 0)) as Hup.
    cbn beta in Hup. rewrite Nat.eqb_refl, Hp in Hup.
    unfold count_past in *. cbn [pool].
    assert (Hin : In t (seq 0 n)) by (apply in_seq; lia).
    specialize (Hup Hin).
    assert (Hext : forall u, u <> t ->
                     match (if Nat.eqb u t then Some th' else pool m u) with
                     | Some x => past_store x
                     | None => false
                     end
                     = match pool m u with
                       | Some x => past_store x
                       | None => false
                       end).
    { intros u Hu. apply Nat.eqb_neq in Hu. rewrite Hu. reflexivity. }
    specialize (Hup Hext). lia.
Qed.

Lemma run_preserves_bound (n : nat) (t0 : list Event) (schedule : list nat)
      (m : @Machine Ext) :
  assign_bound n t0 m -> assign_bound n t0 (run schedule m).
Proof.
  revert m. induction schedule as [|t schedule IH]; intros m Hinv; cbn.
  - exact Hinv.
  - apply IH. apply step_preserves_bound. exact Hinv.
Qed.

Lemma spawn_bound (jobs : list Job) (w : World Ext) :
  assign_bound (List.length jobs) (trace w) (spawn jobs w).
Proof.
  split.
  - intros t Ht. cbn. apply nth_error_None in Ht. rewrite Ht. reflexivity.
  - exists []. cbn [world spawn]. rewrite app_nil_r.
    split; [reflexivity | cbn; lia].
Qed.

Lemma count_past_le (n : nat) (m : @Machine Ext) : (count_past n m <= n)%nat.
Proof.
  unfold count_past.
  etransitivity; [apply filter_length_le |]. rewrite length_seq. reflexivity.
Qed.

(** However the threads move, no more indices are assigned than there are
    threads. *)
Lemma assignments_bounded (jobs : list Job) (w : World Ext) (schedule : list nat)
      (new : list Event) :
  trace (world (run schedule (spawn jobs w))) = trace w ++ new ->
  (List.length (assigned new) <= List.length jobs)%nat.
Proof.
  intros Htr.
  destruct (run_preserves_bound schedule (spawn_bound jobs w))
    as (_ & new' & Htr' & Hle).
  rewrite Htr in Htr'. apply app_inv_head in Htr'. subst new'.
  etransitivity; [exact Hle | apply count_past_le].
Qed.

End AssignmentsCounted.

Section ConcurrentOrder.

Context {Ext : Type} {C : Collaborators Ext}.

(** C1. Threads call [Replicate] and [Commit] on one engine, each on a round
    of its own choosing, and move in any order.  At every moment of every
    schedule the indices assigned since the threads started are, in the
    order of their assignment, the values the counter has taken from its
    initial value on, each the increment of the one before.  The log has
    been asked for the slots of the REPLICATE operations in that same order;
    it is behind by at most the one index whose thread holds the lock between
    assignment and reservation.  Once all the threads have returned the two
    sequences are equal.  There are no more indices than threads.  As long
    as the counter has stayed an [int64_t], as it does when its initial
    value plus the number of threads is one, these indices are the
    consecutive integers from the initial value: strictly increasing and
    without a repetition, and the slots the log has granted are in increasing
    order of index. *)
Theorem Replicate_concurrent_order :
  forall (jobs : list Job) (w : World Ext) (schedule : list nat),
    exists new : list Event,
      trace (world (run schedule (spawn jobs w))) = trace w ++ new
      /\ assigned new
         = Zseq64 (next_op_id_index_ (self w)) (List.length (assigned new))
      /\ (exists pending : list Z,
             assigned new = map fst (requested new) ++ pending
             /\ (List.length pending <= 1)%nat)
      /\ (all_finished (run schedule (spawn jobs w)) ->
          map fst (requested new) = assigned new)
      /\ (List.length (assigned new) <= List.length jobs)%nat
      /\ (room64 (next_op_id_index_ (self w)) (List.length (assigned new)) ->
          assigned new
          = Zseq (next_op_id_index_ (self w)) (List.length (assigned new))
          /\ StronglySorted Z.lt (assigned new)
          /\ NoDup (assigned new)
          /\ StronglySorted Z.lt (granted new)).
Proof.
  intros jobs w schedule.
  pose proof (spawn_inv jobs w) as Hinv.
  apply (run_preserves_inv schedule) in Hinv.
  destruct Hinv as (h & new & Htr & Hseq & (pending & Hpend & Hlen) & Hlive).
  exists new. split; [exact Htr |]. split; [exact Hseq |].
  split; [exists pending; split; assumption |]. split.
  - intros [Hc Hfin]. destruct (Hlive Hc) as ((Hin & Hout) & _ & Hpi & _).
    rewrite Hpi. destruct h as [t|]; [| cbn; rewrite app_nil_r; reflexivity].
    exfalso. destruct (Hout t eq_refl) as (_ & th & Hp & Hcs).
    destruct (Hfin t th Hp) as [s Hs].
    unfold in_critical_section in Hcs. rewrite Hs in Hcs. destruct (job th); discriminate.
  - split; [exact (@assignments_bounded _ _ jobs w schedule new Htr) |].
    intros Hroom.
    assert (Hseq' : assigned new
                    = Zseq (next_op_id_index_ (self w)) (List.length (assigned new)))
      by (rewrite <- (Zseq64_room Hroom); exact Hseq).
    assert (Hsorted : StronglySorted Z.lt (assigned new))
      by (rewrite Hseq'; apply Zseq_sorted).
    split; [exact Hseq' |]. split; [exact Hsorted |].
    split; [apply StronglySorted_lt_NoDup; exact Hsorted |].
    unfold granted. apply StronglySorted_map_fst_filter.
    apply StronglySorted_app_l with (l2 := pending). rewrite <- Hpend. exact Hsorted.
Qed.

End ConcurrentOrder.

Section Solo.

Context {Ext : Type} {C : Collaborators Ext}.

Lemma Replicate_pieces (context : RoundPtr) (w : World Ext) :
  Replicate context w = Replicate_in_pieces context w.
Proof.
  unfold Replicate_in_pieces. step_t. step_m. run_m; reflexivity.
Qed.

Lemma Commit_pieces (round : RoundPtr) (w : World Ext) :
  Commit round w = Commit_in_pieces round w.
Proof.
  unfold Commit_in_pieces. step_t. step_m. run_m; reflexivity.
Qed.

Lemma replicate_entry_plain (context : RoundPtr) (w : World Ext) :
  plain (fst (replicate_entry context w)).
Proof. step_t. step_m. run_m; exact I. Qed.

Lemma store_next_index_plain (context : RoundPtr) (i : Z) (w : World Ext) :
  plain (fst (store_next_index context i w)).
Proof. step_t. step_m. run_m; exact I. Qed.

Lemma replicate_reserve_plain (context : RoundPtr) (w : World Ext) :
  plain (fst (replicate_reserve context w)).
Proof. step_t. step_m. run_m; exact I. Qed.

Lemma replicate_append_plain (context : RoundPtr) (slot : LogEntryBatch) (w : World Ext) :
  plain (fst (replicate_append context slot w)).
Proof. step_t. step_m. run_m; exact I. Qed.

Lemma commit_entry_plain (round : RoundPtr) (w : World Ext) :
  plain (fst (commit_entry round w)).
Proof. step_t. step_m. run_m; exact I. Qed.

Lemma commit_reserve_plain (round : RoundPtr) (w : World Ext) :
  plain (fst (commit_reserve round w)).
Proof. step_t. step_m. run_m; exact I. Qed.

Lemma commit_append_plain (clbk : option FutureCallback) (slot : LogEntryBatch)
      (w : World Ext) :
  plain (fst (commit_append clbk slot w)).
Proof. step_t. step_m. run_m; exact I. Qed.

Arguments replicate_entry : simpl never.
Arguments store_next_index : simpl never.
Arguments replicate_reserve : simpl never.
Arguments replicate_append : simpl never.
Arguments commit_entry : simpl never.
Arguments commit_reserve : simpl never.
Arguments commit_append : simpl never.

Ltac split_piece p H :=
  let Hp := fresh "Hplain" in
  pose proof p as Hp;
  match type of Hp with
  | plain (fst ?x) =>
      let r := fresh "r" in
      let w := fresh "w" in
      destruct x as [r w] eqn:H; cbn [fst] in Hp;
      destruct r; try contradiction; clear Hp
  end.

Lemma solo_run_S (n : nat) (p : Thread * World Ext) :
  solo_run (S n) p = solo_run n (solo_step p).
Proof. reflexivity. Qed.

Lemma solo_run_dead (n : nat) (th : Thread) (w : World Ext) :
  is_dead th = true -> solo_run n (th, w) = (th, w).
Proof.
  intros Hd. induction n as [|n IH]; [reflexivity |].
  rewrite solo_run_S. unfold solo_step. cbn [fst snd]. rewrite Hd. exact IH.
Qed.

Lemma solo_run_finished (n : nat) (j : Job) (s : Status) (k : option FutureCallback)
      (w : World Ext) :
  solo_run n ({| job := j; control := Finished s; commit_clbk := k |}, w)
  = ({| job := j; control := Finished s; commit_clbk := k |}, w).
Proof.
  induction n as [|n IH]; [reflexivity |].
  rewrite solo_run_S. unfold solo_step. cbn. destruct j; exact IH.
Qed.

Lemma solo_run_spinning (n : nat) (j : Job) (k : option FutureCallback) (w : World Ext) :
  lock_ (self w) = true ->
  solo_run n ({| job := j; control := AtLock; commit_clbk := k |}, w)
  = ({| job := j; control := AtLock; commit_clbk := k |}, w).
Proof.
  intros Hl. induction n as [|n IH]; [reflexivity |].
  rewrite solo_run_S. unfold solo_step. cbn [fst snd is_dead control].
  unfold thread_step, advance. cbn [job control]. step_m. rewrite Hl.
  destruct j; exact IH.
Qed.

Arguments solo_run : simpl never.
Arguments solo_step : simpl never.

Ltac solo_next :=
  rewrite solo_run_S; unfold solo_step at 1; cbn [fst snd is_dead control];
  unfold thread_step at 1; cbn [job control commit_clbk];
  unfold advance at 1, goto, after_unlock.

Ltac done_agrees :=
  let H := fresh in intros H; inversion H; subst; split; reflexivity.

Lemma solo_Replicate_in_pieces (context : RoundPtr) (w : World Ext) :
  forall (th' : Thread) (w' : World Ext),
    solo_run 7 ({| job := JobReplicate context; control := AtEntry;
                   commit_clbk := None |}, w) = (th', w') ->
    agrees (fst (Replicate_in_pieces context w)) (snd (Replicate_in_pieces context w))
      th' w'.
Proof.
  intros th' w'.
  unfold Replicate_in_pieces, load_next_index. step_m.
  split_piece (replicate_entry_plain context w) H1; solo_next; rewrite H1; cbn.
  2: { rewrite solo_run_dead by reflexivity. done_agrees. }
  destruct (lock_ (self w0)) eqn:Hl; cbn.
  { rewrite solo_run_spinning by exact Hl. done_agrees. }
  solo_next. step_m. rewrite Hl. cbn.
  solo_next. step_m. cbn.
  match goal with
  | |- context [store_next_index context ?i ?x] =>
      split_piece (store_next_index_plain context i x) H3
  end; solo_next; rewrite H3; cbn.
  2: { rewrite solo_run_dead by reflexivity. done_agrees. }
  match goal with
  | |- context [replicate_reserve context ?x] =>
      split_piece (replicate_reserve_plain context x) H4
  end; solo_next; rewrite H4; cbn.
  2: { rewrite solo_run_dead by reflexivity. done_agrees. }
  solo_next. step_m. cbn.
  match goal with H : replicate_reserve _ _ = (Val ?a, _) |- _ =>
    destruct a as [s slot] end; cbn. destruct s as [|k msg]; cbn.
  2: { rewrite solo_run_finished. done_agrees. }
  match goal with
  | |- context [replicate_append context ?sl ?x] =>
      split_piece (replicate_append_plain context sl x) H6
  end; solo_next; rewrite H6; cbn.
  2: { rewrite solo_run_dead by reflexivity. done_agrees. }
  rewrite solo_run_finished.
  match goal with H : replicate_append _ _ _ = (Val ?s, _) |- _ => destruct s end;
    cbn; done_agrees.
Qed.

Lemma solo_Commit_in_pieces (round : RoundPtr) (w : World Ext) :
  forall (th' : Thread) (w' : World Ext),
    solo_run 5 ({| job := JobCommit round; control := AtEntry;
                   commit_clbk := None |}, w) = (th', w') ->
    agrees (fst (Commit_in_pieces round w)) (snd (Commit_in_pieces round w)) th' w'.
Proof.
  intros th' w'.
  unfold Commit_in_pieces. step_m.
  split_piece (commit_entry_plain round w) H1; solo_next; rewrite H1; cbn.
  2: { rewrite solo_run_dead by reflexivity. done_agrees. }
  destruct (lock_ (self w0)) eqn:Hl; cbn.
  { rewrite solo_run_spinning by exact Hl. done_agrees. }
  solo_next. step_m. rewrite Hl. cbn.
  match goal with
  | |- context [commit_reserve round ?x] =>
      split_piece (commit_reserve_plain round x) H4
  end; solo_next; rewrite H4; cbn.
  2: { rewrite solo_run_dead by reflexivity. done_agrees. }
  solo_next. step_m. cbn.
  match goal with H : commit_reserve _ _ = (Val ?a, _) |- _ =>
    destruct a as [s slot] end; cbn. destruct s as [|k msg]; cbn.
  2: { rewrite solo_run_finished. done_agrees. }
  match goal with
  | |- context [commit_append ?c ?sl ?x] =>
      split_piece (commit_append_plain c sl x) H6
  end; solo_next; rewrite H6; cbn.
  2: { rewrite solo_run_dead by reflexivity. done_agrees. }
  rewrite solo_run_finished.
  match goal with H : commit_append _ _ _ = (Val ?s, _) |- _ => destruct s end;
    cbn; done_agrees.
Qed.

Lemma step_solo (m : @Machine Ext) (th : Thread) (w : World Ext) :
  solo m th w ->
  solo (step 0 m) (fst (solo_step (th, w))) (snd (solo_step (th, w))).
Proof.
  intros (Hw & Hp & Hc). unfold step, solo_step. cbn [fst snd].
  rewrite Hc. destruct (is_dead th) eqn:Hd.
  - split; [exact Hw | split; [exact Hp | cbn; rewrite Hd; exact Hc]].
  - rewrite Hp, Hw. destruct (thread_step th w) as [th' w1].
    split; [reflexivity | split; reflexivity].
Qed.

Lemma run_solo (n : nat) (m : @Machine Ext) (th : Thread) (w : World Ext) :
  solo m th w ->
  solo (run (repeat 0%nat n) m) (fst (solo_run n (th, w))) (snd (solo_run n (th, w))).
Proof.
  revert m th w. induction n as [|n IH]; intros m th w Hs; [exact Hs |].
  cbn [repeat run fold_left]. rewrite solo_run_S.
  apply step_solo in Hs.
  destruct (solo_step (th, w)) as [th1 w1]. cbn [fst snd] in Hs.
  exact (IH _ _ _ Hs).
Qed.

Lemma spawn_solo (j : Job) (w : World Ext) :
  solo (spawn [j] w) {| job := j; control := AtEntry; commit_clbk := None |} w.
Proof. repeat split; reflexivity. Qed.

(** A single thread that calls [Replicate] and is given seven moves ends
    where the method called by a single caller ends, with the same world. *)
Lemma solo_Replicate_agrees (context : RoundPtr) (w : World Ext) :
  exists th : Thread,
    pool (run (repeat 0%nat 7) (spawn [JobReplicate context] w)) 0%nat = Some th
    /\ agrees (fst (Replicate context w)) (snd (Replicate context w)) th
         (world (run (repeat 0%nat 7) (spawn [JobReplicate context] w))).
Proof.
  pose proof (run_solo 7 (spawn_solo (JobReplicate context) w)) as (Hw & Hp & _).
  eexists. split; [exact Hp |]. rewrite Hw, Replicate_pieces.
  apply solo_Replicate_in_pieces. apply surjective_pairing.
Qed.

(** The same for [Commit], in five moves. *)
Lemma solo_Commit_agrees (round : RoundPtr) (w : World Ext) :
  exists th : Thread,
    pool (run (repeat 0%nat 5) (spawn [JobCommit round] w)) 0%nat = Some th
    /\ agrees (fst (Commit round w)) (snd (Commit round w)) th
         (world (run (repeat 0%nat 5) (spawn [JobCommit round] w))).
Proof.
  pose proof (run_solo 5 (spawn_solo (JobCommit round) w)) as (Hw & Hp & _).
  eexists. split; [exact Hp |]. rewrite Hw, Commit_pieces.
  apply solo_Commit_in_pieces. apply surjective_pairing.
Qed.

End Solo.

(** * Concrete runs *)

(** The scenario of the quorum with sequence number 5: a candidate with 5 is
    refused, one with 6 is accepted and flushed, and [Quorum] then answers
    with it. *)
Example PersistQuorum_5_then_6 :
  fst (PersistQuorum (C := Sim.debug_build) (Sim.local_quorum 5) Sim.seq5_world)
    = Abort "Quorum seqnos not monotonic"
  /\ fst (PersistQuorum (C := Sim.debug_build) (Sim.local_quorum 6) Sim.seq5_world) = Val OK
  /\ Sim.disk_flushed
       (ext (snd (PersistQuorum (C := Sim.debug_build) (Sim.local_quorum 6) Sim.seq5_world)))
     = [{| committed_quorum := Sim.local_quorum 6 |}]
  /\ fst (Quorum
            (snd (PersistQuorum (C := Sim.debug_build) (Sim.local_quorum 6) Sim.seq5_world)))
     = Val (Sim.local_quorum 6).
Proof. repeat split; reflexivity. Qed.

(** The scenario of the bootstrap index 9: thread 1 sizes its operation
    first, thread 0 is first at the lock; the indices are 10 and 11 and the
    log sees them in that order. *)
Example concurrent_10_then_11 :
  assigned (trace (world (run (C := Sim.debug_build) Sim.interleaving
                            (spawn Sim.three_jobs Sim.ready_world)))) = [10; 11]%Z
  /\ requested (trace (world (run (C := Sim.debug_build) Sim.interleaving
                                (spawn Sim.three_jobs Sim.ready_world))))
     = [(10, OK); (11, OK)]%Z
  /\ hd_error (trace (world (run (C := Sim.debug_build) Sim.interleaving
                               (spawn Sim.three_jobs Sim.ready_world))))
     = Some (EvByteSize {| id := Some {| term := 0; index := 0 |};
                           replicate := Some "b"%string; commit := None |}).
Proof. repeat split; reflexivity. Qed.

(** [Update] and [RequestVote] are not supported. *)
Example Update_not_supported :
  kind_of_result (fst (Update Sim.ready_world)) = Some NotSupported
  /\ kind_of_result (fst (RequestVote Sim.ready_world))
     = Some NotSupported.
Proof. split; reflexivity. Qed.

(** A second [Start] dies on its first check. *)
Example Start_twice :
  fst (Start (C := Sim.debug_build) (Sim.bootstrap 9)
         (snd (Start (C := Sim.debug_build) (Sim.bootstrap 9) Sim.seq5_world)))
  = Abort "Check failed: state_ == kInitializing".
Proof. reflexivity. Qed.

(** A [Commit] the log refuses returns the log's error, and the round has
    lost its callback all the same. *)
Example Commit_refused :
  fst (Commit (C := Sim.debug_build) 2%nat Sim.full_log_world)
    = Val (Err StorageError "out of space")
  /\ option_map commit_callback_
       (rounds (snd (Commit (C := Sim.debug_build) 2%nat Sim.full_log_world)) 2%nat)
     = Some None
  /\ option_map commit_callback_ (rounds Sim.full_log_world 2%nat) = Some (Some 31%nat).
Proof. repeat split; reflexivity. Qed.

(** Before [Start], a build with [DCHECK]s stops a [Replicate]; a build
    without them lets it through with the constructor's counter. *)
Example Replicate_before_Start :
  fst (Replicate (C := Sim.debug_build) 0%nat
         (Sim.mk_world (Sim.engine (Sim.local_quorum 5)) Sim.three_rounds Sim.fresh_ext))
    = Abort "Check failed: state_ >= kConfiguring"
  /\ fst (Replicate (C := Sim.release_build) 0%nat
            (Sim.mk_world (Sim.engine (Sim.local_quorum 5)) Sim.three_rounds
               Sim.fresh_ext))
     = Val OK
  /\ assigned
       (trace (snd (Replicate (C := Sim.release_build) 0%nat
                      (Sim.mk_world (Sim.engine (Sim.local_quorum 5)) Sim.three_rounds
                         Sim.fresh_ext))))
     = [(-1)%Z].
Proof. repeat split; reflexivity. Qed.

(** At the largest [int64_t] the counter wraps around: the call gets the
    largest index and the next call the smallest. *)
Example Replicate_at_the_largest_index :
  assigned (trace (run_calls (C := Sim.debug_build)
                     [CallReplicate 0%nat; CallReplicate 1%nat]
                     Sim.last_index_world))
  = [int64_max; int64_min]
  /\ next_op_id_index_
       (self (snd (Replicate (C := Sim.debug_build) 0%nat Sim.last_index_world)))
     = int64_min.
Proof. split; reflexivity. Qed.

(** So do the two additions of [Start]. *)
Example Start_at_the_largest_index :
  next_op_id_index_
    (self (snd (Start (C := Sim.debug_build) (Sim.bootstrap int64_max)
                  Sim.last_seqno_world)))
  = int64_min
  /\ map seqno
       (Sim.factory_submitted
          (ext (snd (Start (C := Sim.debug_build) (Sim.bootstrap int64_max)
                       Sim.last_seqno_world))))
     = [int64_min].
Proof. split; reflexivity. Qed.

(** A [Commit] on a round without commit operation: a build with [DCHECK]s
    stops at once; a build without them releases the callback and then dies
    on the operation. *)
Example Commit_without_operation :
  Commit (C := Sim.debug_build) 0%nat Sim.null_commit_world
  = (Abort "Check failed: 'p' Must be non NULL", Sim.null_commit_world)
  /\ fst (Commit (C := Sim.release_build) 0%nat Sim.null_commit_world)
     = Abort "null pointer dereference"
  /\ trace (snd (Commit (C := Sim.release_build) 0%nat Sim.null_commit_world))
     = [EvReleaseCommitCallback (Some 41%nat)]
  /\ option_map commit_callback_
       (rounds (snd (Commit (C := Sim.release_build) 0%nat Sim.null_commit_world))
          0%nat)
     = Some None.
Proof. repeat split; reflexivity. Qed.

(** * Witnesses *)

Lemma PersistQuorum_invalid_quorum_witness :
  PersistQuorum (C := Sim.debug_build) Sim.empty_quorum Sim.locked_world
  = (Val (Err InvalidQuorum
            (PersistQuorum_prefix ++ ": " ++ "quorum must have at least one peer")),
     {| self := self Sim.locked_world; rounds := rounds Sim.locked_world;
        ext := ext Sim.locked_world;
        trace := trace Sim.locked_world ++
                 [EvVerifyQuorum Sim.empty_quorum
                    (Err InvalidQuorum "quorum must have at least one peer")] |}).
Proof.
  apply (proj1 (@PersistQuorum_invalid_quorum Sim.Ext Sim.debug_build
                  Sim.empty_quorum Sim.locked_world)).
  reflexivity.
Defined.

Lemma PersistQuorum_seqno_monotonic_witness :
  (fst (PersistQuorum (C := Sim.debug_build) (Sim.local_quorum 5) Sim.seq5_world) <> Val OK
   /\ committed (snd (PersistQuorum (C := Sim.debug_build) (Sim.local_quorum 5) Sim.seq5_world))
      = committed Sim.seq5_world)
  /\ (committed (snd (PersistQuorum (C := Sim.debug_build) (Sim.local_quorum 6) Sim.seq5_world))
      = Sim.local_quorum 6
      /\ (seqno (committed Sim.seq5_world) < seqno (Sim.local_quorum 6))%Z).
Proof.
  split.
  - destruct (proj1 (@PersistQuorum_seqno_monotonic Sim.Ext Sim.debug_build
                       (Sim.local_quorum 5) Sim.seq5_world))
      as (Hne & Hsame & _).
    + cbn. lia.
    + split; assumption.
  - apply (proj2 (proj2 (@PersistQuorum_seqno_monotonic Sim.Ext Sim.debug_build
                           (Sim.local_quorum 6) Sim.seq5_world))).
    reflexivity.
Defined.

(** C4, as the claim has it, fails: with the locality flag off, a quorum the
    validator would call invalid does not come back as an error; the process
    dies on the [CHECK] that precedes the validation. *)
Lemma Start_nonlocal_quorum_is_fatal :
  state_ (self Sim.nonlocal_world) = kInitializing
  /\ local (committed Sim.nonlocal_world) = false
  /\ kind_of (Sim.VerifyLocalQuorum (committed Sim.nonlocal_world)) = Some InvalidQuorum
  /\ fst (Start (C := Sim.debug_build) (Sim.bootstrap 9) Sim.nonlocal_world)
     = Abort "Local consensus must be passed a local quorum"
  /\ ~ (exists m : string,
          fst (Start (C := Sim.debug_build) (Sim.bootstrap 9) Sim.nonlocal_world)
          = Val (Err InvalidQuorum m)).
Proof.
  repeat split; try reflexivity.
  intros [m H]. discriminate H.
Qed.

Lemma Start_malformed_quorum_witness :
  fst (Start (C := Sim.debug_build) (Sim.bootstrap 9) Sim.nonlocal_world)
    = Abort "Local consensus must be passed a local quorum"
  /\ Start (C := Sim.debug_build) (Sim.bootstrap 9) Sim.two_peer_world
     = (Val (Err InvalidQuorum
               (Start_prefix ++ ": " ++ "local quorum must have exactly one peer")),
        {| self := self Sim.two_peer_world; rounds := rounds Sim.two_peer_world;
           ext := ext Sim.two_peer_world;
           trace := trace Sim.two_peer_world ++
             [EvLock;
              EvVerifyQuorum (committed Sim.two_peer_world)
                (Err InvalidQuorum "local quorum must have exactly one peer");
              EvUnlock] |}).
Proof.
  split.
  - apply (proj1 (@Start_malformed_quorum Sim.Ext Sim.debug_build (Sim.bootstrap 9)
                    Sim.nonlocal_world eq_refl eq_refl)).
    reflexivity.
  - apply (proj2 (@Start_malformed_quorum Sim.Ext Sim.debug_build (Sim.bootstrap 9)
                    Sim.two_peer_world eq_refl eq_refl)).
    + reflexivity.
    + reflexivity.
Defined.

Lemma Start_success_witness :
  (int64_min <= index (last_id (Sim.bootstrap 9)) < int64_max)%Z
  /\ next_op_id_index_
       (self (snd (Start (C := Sim.debug_build) (Sim.bootstrap 9) Sim.seq5_world)))
     = 10%Z
  /\ state_ (self (snd (Start (C := Sim.debug_build) (Sim.bootstrap 9) Sim.seq5_world)))
     = kRunning.
Proof.
  assert (Hrange : (int64_min <= index (last_id (Sim.bootstrap 9)) < int64_max)%Z)
    by (split; [discriminate | reflexivity]).
  destruct (@Start_success Sim.Ext Sim.debug_build (Sim.bootstrap 9) Sim.seq5_world
              (snd (Start (C := Sim.debug_build) (Sim.bootstrap 9) Sim.seq5_world)))
    as (_ & _ & _ & _ & Hn & Hs & _).
  - reflexivity.
  - split; [exact Hrange | split; [exact (Hn Hrange) | exact Hs]].
Defined.

Lemma role_is_first_peers_role_witness :
  fst (role Sim.two_peer_world) = Val LEARNER
  /\ peer_uuid_ (self Sim.two_peer_world) = "peer-a"%string
  /\ permanent_uuid Sim.other_peer = "peer-b"%string.
Proof.
  split; [| split; reflexivity].
  apply (proj1 (@role_is_first_peers_role Sim.Ext Sim.two_peer_world
                  Sim.other_peer [Sim.this_peer] eq_refl eq_refl)).
Defined.

Lemma Replicate_success_witness :
  exists (r : ConsensusRound) (op : OperationPB),
    rounds (snd (Replicate (C := Sim.debug_build) 0%nat Sim.ready_world)) 0%nat = Some r
    /\ replicate_op_ r = Some op
    /\ id op = Some {| term := 0; index := 10 |}
    /\ next_op_id_index_ (self (snd (Replicate (C := Sim.debug_build) 0%nat Sim.ready_world)))
       = 11%Z.
Proof.
  destruct (@Replicate_success Sim.Ext Sim.debug_build 0%nat Sim.ready_world
              (snd (Replicate (C := Sim.debug_build) 0%nat Sim.ready_world)))
    as (r & op & cb & slot & Hr & Hop & _ & Hr' & Hid & _ & Hn & _).
  - reflexivity.
  - exists (set_replicate_op (stamped 10 op) r), (stamped 10 op).
    split; [exact Hr' |]. split; [reflexivity |]. split; [exact Hid |].
    apply Hn. split; [discriminate | reflexivity].
Defined.

Lemma Commit_releases_callback_witness :
  (exists r' : ConsensusRound,
      rounds (snd (Commit (C := Sim.debug_build) 2%nat Sim.ready_world)) 2%nat = Some r'
      /\ commit_callback_ r' = None)
  /\ fst (Commit (C := Sim.debug_build) 2%nat Sim.ready_world) = Val OK.
Proof.
  split; [| reflexivity].
  destruct (proj1 (@Commit_releases_callback Sim.Ext Sim.debug_build 2%nat Sim.ready_world
                     (Sim.write_round "c" 30)
                     {| id := None; replicate := None; commit := Some "c"%string |}
                     eq_refl eq_refl))
    as (_ & _ & _ & Hret).
  - intros _. reflexivity.
  - apply (Hret OK (snd (Commit (C := Sim.debug_build) 2%nat Sim.ready_world))).
    reflexivity.
Defined.

Lemma Replicate_reserve_failure_witness :
  fst (Replicate (C := Sim.debug_build) 0%nat Sim.full_log_world)
    = Val (Err StorageError "out of space")
  /\ next_op_id_index_ (self (snd (Replicate (C := Sim.debug_build) 0%nat Sim.full_log_world)))
     = 11%Z.
Proof.
  destruct (@Replicate_reserve_failure Sim.Ext Sim.debug_build 0%nat Sim.full_log_world
              (Sim.write_round "a" 10)
              {| id := None; replicate := Some "a"%string; commit := None |}
              StorageError "out of space" eq_refl eq_refl eq_refl)
    as (Hres & _ & Hne & Hn & _).
  - intros _. reflexivity.
  - reflexivity.
  - split; [exact Hres |]. apply Hn. split; [discriminate | reflexivity].
Defined.

Lemma Start_submission_rejected_witness :
  fst (Start (C := Sim.debug_build) (Sim.bootstrap 9) Sim.deaf_world)
    = Val (Err RuntimeError "submission rejected")
  /\ state_ (self (snd (Start (C := Sim.debug_build) (Sim.bootstrap 9) Sim.deaf_world)))
     = kRunning
  /\ fst (Replicate (C := Sim.debug_build) 0%nat
            (snd (Start (C := Sim.debug_build) (Sim.bootstrap 9) Sim.deaf_world))) = Val OK.
Proof.
  destruct (@Start_submission_rejected Sim.Ext Sim.debug_build (Sim.bootstrap 9)
              Sim.deaf_world Sim.this_peer [] RuntimeError "submission rejected"
              eq_refl eq_refl eq_refl eq_refl eq_refl eq_refl)
    as (Hres & Hs & _ & _ & _ & Hrep & _).
  split; [exact Hres | split; [exact Hs |]].
  eapply Hrep; reflexivity.
Defined.

Lemma Replicate_concurrent_order_witness :
  exists new : list Event,
    trace (world (run (C := Sim.debug_build) Sim.interleaving
                    (spawn Sim.three_jobs Sim.ready_world)))
    = trace Sim.ready_world ++ new
    /\ map fst (requested new) = assigned new
    /\ room64 (next_op_id_index_ (self Sim.ready_world)) (List.length (assigned new))
    /\ StronglySorted Z.lt (assigned new)
    /\ NoDup (assigned new).
Proof.
  destruct (@Replicate_concurrent_order Sim.Ext Sim.debug_build Sim.three_jobs
              Sim.ready_world Sim.interleaving)
    as (new & Htr & _ & _ & Hfin & Hle & Hroom).
  assert (Hr : room64 (next_op_id_index_ (self Sim.ready_world))
                 (List.length (assigned new))).
  { apply (room64_le Hle). split; [discriminate | vm_compute; discriminate]. }
  exists new. split; [exact Htr |]. split.
  - apply Hfin. split; [reflexivity |].
    intros t th H.
    destruct t as [|[|[|t]]];
      [ vm_compute in H; inversion H; eexists; reflexivity ..
      | exfalso; vm_compute in H; destruct t; discriminate H ].
  - split; [exact Hr |].
    destruct (Hroom Hr) as (_ & Hsorted & Hnodup & _).
    split; [exact Hsorted | exact Hnodup].
Defined.

(** * Further properties of the methods *)

Section FurtherStart.

Context {Ext : Type} {C : Collaborators Ext}.

Lemma Start_on_started (info : ConsensusBootstrapInfo) (w : World Ext) :
  state_ (self w) <> kInitializing ->
  Start info w = (Abort "Check failed: state_ == kInitializing", w).
Proof.
  intros Hs. step_m.
  destruct (state_ (self w)); [congruence | reflexivity | reflexivity].
Qed.

Lemma Start_returned (info : ConsensusBootstrapInfo) (w : World Ext) (s : Status) :
  fst (Start info w) = Val s ->
  (self (snd (Start info w)) = self w /\ ext (snd (Start info w)) = ext w /\ s <> OK)
  \/ state_ (self (snd (Start info w))) = kRunning.
Proof.
  step_m. run_m.
  all: intros H; try (right; reflexivity).
  all: left; inversion H; subst; cbn.
  all: repeat split; try discriminate.
  all: match goal with
       | Hl : lock_ (self ?w) = false |- _ => apply (unlock_after_lock _ Hl)
       end.
Qed.

(** X1. A [Start] that has returned has either changed nothing (the
    validator refused the committed quorum; the call can be made again) or
    left the engine running; on a running engine every further [Start] dies
    on its first check, before the lock and before the factory is called, so
    the factory gets the submission of the first call only. *)
Theorem Start_only_once :
  forall (info1 info2 : ConsensusBootstrapInfo) (w : World Ext) (s : Status),
    fst (Start info1 w) = Val s ->
    (self (snd (Start info1 w)) = self w
     /\ ext (snd (Start info1 w)) = ext w
     /\ s <> OK)
    \/ (state_ (self (snd (Start info1 w))) = kRunning
        /\ Start info2 (snd (Start info1 w))
           = (Abort "Check failed: state_ == kInitializing", snd (Start info1 w))).
Proof.
  intros info1 info2 w s H.
  destruct (Start_returned info1 w H) as [Hsame | Hrun]; [left; exact Hsame | right].
  split; [exact Hrun |].
  apply Start_on_started. rewrite Hrun. discriminate.
Qed.

End FurtherStart.

Section FurtherPersistQuorum.

Context {Ext : Type} {C : Collaborators Ext}.

Lemma Quorum_free (w : World Ext) :
  lock_ (self w) = false ->
  Quorum w = (Val (committed w),
              {| self := self w; rounds := rounds w; ext := ext w;
                 trace := trace w ++ [EvLock; EvUnlock] |}).
Proof.
  intros Hl. unfold committed. step_m. rewrite Hl. cbn.
  rewrite <- app_assoc. rewrite (unlock_after_lock _ Hl). reflexivity.
Qed.

(** X2. When the flush fails, [PersistQuorum] returns the flush's error with
    the committed quorum already replaced in memory and the lock released;
    the same call made again dies on the monotonicity check, the sequence
    numbers now being equal. *)
Theorem PersistQuorum_flush_failure :
  forall (quorum : QuorumPB) (w : World Ext) (k : ErrorKind) (m : string),
    VerifyQuorum quorum = OK ->
    lock_ (self w) = false ->
    (seqno (committed w) < seqno quorum)%Z ->
    fst (Flush {| committed_quorum := quorum |} (ext w)) = Err k m ->
    fst (PersistQuorum quorum w) = Val (Err k m)
    /\ committed (snd (PersistQuorum quorum w)) = quorum
    /\ lock_ (self (snd (PersistQuorum quorum w))) = false
    /\ fst (PersistQuorum quorum (snd (PersistQuorum quorum w)))
       = Abort "Quorum seqnos not monotonic".
Proof.
  intros quorum w k m Hv Hl Hlt Hf.
  destruct (PersistQuorum_cases quorum w)
    as [(k' & m' & Hv' & _) | [(_ & Hl' & _) | [(_ & _ & Hlt' & _)
       | (_ & _ & _ & Hr & Hc & Hl1)]]].
  - congruence.
  - congruence.
  - apply Z.ltb_lt in Hlt. congruence.
  - split; [rewrite Hr, Hf; reflexivity |]. split; [exact Hc |]. split; [exact Hl1 |].
    destruct (PersistQuorum_cases quorum (snd (PersistQuorum quorum w)))
      as [(k' & m' & Hv' & _) | [(_ & Hl' & _) | [(_ & _ & _ & Hr2 & _)
         | (_ & _ & Hlt2 & _)]]].
    + congruence.
    + congruence.
    + exact Hr2.
    + rewrite Hc in Hlt2. apply Z.ltb_lt in Hlt2. lia.
Qed.

(** X3. What [PersistQuorum] has put in place is what [Quorum] answers with
    next, whether the flush went well or not, and [role] answers with the
    role of its first peer. *)
Theorem PersistQuorum_then_Quorum :
  forall (quorum : QuorumPB) (w : World Ext),
    VerifyQuorum quorum = OK ->
    lock_ (self w) = false ->
    (seqno (committed w) < seqno quorum)%Z ->
    fst (Quorum (snd (PersistQuorum quorum w))) = Val quorum
    /\ (forall (p : QuorumPeerPB) (ps : list QuorumPeerPB),
          peers quorum = p :: ps ->
          fst (role (snd (PersistQuorum quorum w))) = Val (role_of p)).
Proof.
  intros quorum w Hv Hl Hlt.
  destruct (PersistQuorum_cases quorum w)
    as [(k' & m' & Hv' & _) | [(_ & Hl' & _) | [(_ & _ & Hlt' & _)
       | (_ & _ & _ & _ & Hc & Hl1)]]].
  - congruence.
  - congruence.
  - apply Z.ltb_lt in Hlt. congruence.
  - split.
    + rewrite (Quorum_free _ Hl1). cbn. rewrite Hc. reflexivity.
    + intros p ps Hp. unfold committed in Hc. step_m. rewrite Hl1. cbn.
      rewrite Hc, Hp. reflexivity.
Qed.

Lemma seqno_step_refl (w : World Ext) : seqno_step w w.
Proof. left; reflexivity. Qed.

Lemma seqno_step_trans (w1 w2 w3 : World Ext) :
  seqno_step w1 w2 -> seqno_step w2 w3 -> seqno_step w1 w3.
Proof.
  unfold seqno_step. intros [H1 | H1] [H2 | H2].
  - left. congruence.
  - right. rewrite <- H1. exact H2.
  - right. rewrite H2. exact H1.
  - right. lia.
Qed.

Lemma run_call_seqno_step (c : Call) (w : World Ext) :
  seqno_step w (snd (run_call c w)).
Proof.
  unfold seqno_step, committed. destruct c; step_m; run_m.
  all: try (left; reflexivity).
  all: right; apply Z.ltb_lt; assumption.
Qed.

(** X4. Whatever calls are made, in whatever state, the committed quorum at
    the end is the one at the start or one with a strictly greater sequence
    number: the sequence number of the committed quorum never goes down, and
    the quorum never changes without it going up. *)
Theorem committed_seqno_never_decreases :
  forall (cs : list Call) (w : World Ext),
    committed (run_calls cs w) = committed w
    \/ (seqno (committed w) < seqno (committed (run_calls cs w)))%Z.
Proof.
  intros cs w. change (seqno_step w (run_calls cs w)).
  revert w. induction cs as [|c cs IH]; intros w; cbn.
  - apply seqno_step_refl.
  - pose proof (run_call_seqno_step c w) as Hc.
    destruct (run_call c w) as [r w1]; cbn in Hc.
    destruct r; try exact Hc.
    eapply seqno_step_trans; [exact Hc | apply IH].
Qed.

End FurtherPersistQuorum.

Section FurtherLock.

Context {Ext : Type} {C : Collaborators Ext}.

Lemma run_call_lock (c : Call) (w : World Ext) :
  lock_ (self w) = false ->
  fst (run_call c w) <> Spin
  /\ (fst (run_call c w) = Val tt -> lock_ (self (snd (run_call c w))) = false).
Proof.
  intros Hl. destruct c; step_m; run_m.
  all: try congruence.
  all: split; [discriminate | intros; try discriminate; cbn; try reflexivity; try assumption].
Qed.

(** X5. A caller on its own never waits for the lock: if the lock is free
    before a sequence of calls, no call of the sequence finds it taken, and
    if every call returns the lock is free at the end. *)
Theorem single_caller_never_spins :
  forall (cs : list Call) (w : World Ext),
    lock_ (self w) = false ->
    never_spins cs w
    /\ (all_return cs w -> lock_ (self (run_calls cs w)) = false).
Proof.
  induction cs as [|c cs IH]; intros w Hl; cbn.
  - split; [exact I | intros _; exact Hl].
  - destruct (run_call_lock c w Hl) as [Hns Hfree].
    destruct (run_call c w) as [r w1]; cbn in *.
    destruct r as [[]| | |]; try (split; [exact I | contradiction]).
    + apply IH. apply Hfree. reflexivity.
    + congruence.
Qed.

(** X6. With the lock taken by somebody else, [Update], [RequestVote] and
    [Shutdown] return at once and change nothing; [role], [Quorum] and
    [DumpStatusHtml] wait; [PersistQuorum] returns if the validator refuses
    the quorum and waits otherwise; [Start], [Replicate] and [Commit] never
    return.  No call releases the lock. *)
Theorem calls_on_a_taken_lock :
  forall (c : Call) (w : World Ext),
    lock_ (self w) = true ->
    lock_ (self (snd (run_call c w))) = true
    /\ match c with
       | CallUpdate | CallRequestVote | CallShutdown => run_call c w = (Val tt, w)
       | CallRole | CallQuorum | CallDumpStatusHtml => run_call c w = (Spin, w)
       | CallPersistQuorum quorum =>
           (ok (VerifyQuorum quorum) = false -> fst (run_call c w) = Val tt)
           /\ (ok (VerifyQuorum quorum) = true -> fst (run_call c w) = Spin)
       | CallStart _ | CallReplicate _ | CallCommit _ => fst (run_call c w) <> Val tt
       end.
Proof.
  intros c w Hl. destruct c; step_m; run_m.
  all: try congruence.
  all: cbn; repeat split; try assumption; try reflexivity; try discriminate;
    intros; try discriminate; try congruence.
Qed.

End FurtherLock.

Section FurtherCommit.

Context {Ext : Type} {C : Collaborators Ext}.

(** X7. [Commit] neither reads nor writes the lifecycle state, the counter
    or the committed quorum: they are after the call what they were before,
    no index is handed out, and the call's outcome is the same whatever the
    state and the counter are, on an engine that has not been started as on
    one that has. *)
Theorem Commit_ignores_lifecycle :
  forall (round : RoundPtr) (w : World Ext),
    next_op_id_index_ (self (snd (Commit round w))) = next_op_id_index_ (self w)
    /\ state_ (self (snd (Commit round w))) = state_ (self w)
    /\ cmeta_ (self (snd (Commit round w))) = cmeta_ (self w)
    /\ (exists new, trace (snd (Commit round w)) = trace w ++ new /\ assigned new = [])
    /\ (forall (st : State) (n : Z),
          fst (Commit round (with_lifecycle st n w)) = fst (Commit round w)).
Proof.
  intros round w. unfold with_lifecycle.
  split; [| split; [| split; [| split]]].
  - step_m; run_m; reflexivity.
  - step_m; run_m; reflexivity.
  - step_m; run_m; reflexivity.
  - step_m; run_m; rewrite <- ?app_assoc; cbn;
      first [ exists []; rewrite app_nil_r; split; reflexivity
            | eexists; split; reflexivity ].
  - intros st n. step_m; run_m; reflexivity.
Qed.

(** X8. A [Commit] that returns [OK] found a round with a commit operation
    and a callback; it has left the engine as it was and the round without
    its callback, and its actions are, in this order: take the callback out,
    size the operation, take the lock, reserve the slot for the one-operation
    batch, release the lock, hand the slot to the log together with the
    callback it took out. *)
Theorem Commit_success :
  forall (round : RoundPtr) (w w' : World Ext),
    Commit round w = (Val OK, w') ->
    exists (r : ConsensusRound) (op : OperationPB) (cb : FutureCallback)
           (slot : LogEntryBatch),
      rounds w round = Some r
      /\ commit_op_ r = Some op
      /\ commit_callback_ r = Some cb
      /\ rounds w' round = Some (snd (release_commit_callback r))
      /\ self w' = self w
      /\ lock_ (self w) = false
      /\ trace w' = trace w ++
           [EvReleaseCommitCallback (Some cb);
            EvByteSize op;
            EvLock;
            EvReserve COMMIT [op] OK;
            EvUnlock;
            EvAsyncAppend slot (FutureStatusCallback cb) OK].
Proof.
  intros round w w'. step_m. run_m.
  all: intros H; some_inj.
  all: match goal with
       | Hr : rounds _ _ = Some ?c, Ho : commit_op_ ?c = Some ?o,
         Hc : commit_callback_ ?c = Some ?f,
         Ha : Log_AsyncAppend ?l _ _ = _ |- _ => exists c, o, f, l
       end.
  all: cbn; rewrite ?Nat.eqb_refl, <- ?app_assoc; cbn.
  all: repeat split; try reflexivity; try assumption.
  all: try match goal with
       | Hl : lock_ (self ?w) = false |- _ => apply (unlock_after_lock _ Hl)
       end.
  all: congruence.
Qed.

End FurtherCommit.

Section FurtherReplicate.

Context {Ext : Type} {C : Collaborators Ext}.

(** X9. When the log has reserved the slot and then refuses the append,
    [Replicate] returns the log's error: the index is spent (the counter has
    been incremented, by one for every value below the largest of
    [int64_t]), the slot stays reserved, the lock is free, and the operation
    keeps the index it was given. *)
Theorem Replicate_append_failure :
  forall (context : RoundPtr) (w : World Ext) (r : ConsensusRound)
         (op : OperationPB) (cb : FutureCallback) (slot : LogEntryBatch) (e : Ext)
         (k : ErrorKind) (m : string),
    rounds w context = Some r ->
    replicate_op_ r = Some op ->
    replicate_callback_ r = Some cb ->
    lock_ (self w) = false ->
    (dchecks = true -> State_geb (state_ (self w)) kConfiguring = true) ->
    Log_Reserve [stamped (next_op_id_index_ (self w)) op] (ext w) = (OK, slot, e) ->
    fst (Log_AsyncAppend slot (FutureStatusCallback cb) e) = Err k m ->
    fst (Replicate context w) = Val (Err k m)
    /\ next_op_id_index_ (self (snd (Replicate context w)))
       = add64 (next_op_id_index_ (self w)) 1
    /\ ((int64_min <= next_op_id_index_ (self w) < int64_max)%Z ->
        next_op_id_index_ (self (snd (Replicate context w)))
        = (next_op_id_index_ (self w) + 1)%Z)
    /\ lock_ (self (snd (Replicate context w))) = false
    /\ rounds (snd (Replicate context w)) context
       = Some (set_replicate_op (stamped (next_op_id_index_ (self w)) op) r)
    /\ trace (snd (Replicate context w)) = trace w ++
         [EvByteSize (set_term 0 op); EvLock;
          EvAssign (next_op_id_index_ (self w));
          EvReserve REPLICATE [stamped (next_op_id_index_ (self w)) op] OK;
          EvUnlock;
          EvAsyncAppend slot (FutureStatusCallback cb) (Err k m)].
Proof.
  intros context w r op cb slot e k m Hr Hop Hcb Hl Hd Hres Happ.
  rewrite <- stamped_set_index in Hres.
  assert (Hgo : (if dchecks
                 then CHECK (S := World Ext)
                        (State_geb (state_ (self w)) kConfiguring)
                        "Check failed: state_ >= kConfiguring"
                 else ret tt) w = (Val tt, w)).
  { destruct dchecks; [rewrite (Hd eq_refl) |]; reflexivity. }
  unfold CHECK in Hgo. step_m. rewrite Hgo. exec.
  unfold CreateBatchFromAllocatedOperations. cbn. rewrite Hres. exec.
  destruct (Log_AsyncAppend slot (FutureStatusCallback cb) e) as [s2 e2].
  cbn in Happ. subst s2. cbn.
  rewrite <- ?app_assoc, ?Nat.eqb_refl. cbn.
  repeat split; try reflexivity.
  intros Hrange. apply add64_1_small. exact Hrange.
Qed.

(** X10. The state check of [Replicate] is a [DCHECK]: a build that keeps it
    stops the call on an engine that has not been started, before anything is
    done; a build that drops it gives the call the same outcome whatever the
    lifecycle state is. *)
Theorem Replicate_state_check :
  forall (context : RoundPtr) (w : World Ext),
    (dchecks = true -> state_ (self w) = kInitializing ->
     Replicate context w = (Abort "Check failed: state_ >= kConfiguring", w))
    /\ (dchecks = false ->
        forall st : State,
          fst (Replicate context (with_lifecycle st (next_op_id_index_ (self w)) w))
          = fst (Replicate context w)).
Proof.
  intros context w. split.
  - intros Hd Hs. step_m. rewrite Hd, Hs. reflexivity.
  - intros Hd st. unfold with_lifecycle. step_m. rewrite Hd. run_m; reflexivity.
Qed.

End FurtherReplicate.

Section FurtherSequences.

Context {Ext : Type} {C : Collaborators Ext}.

(** X11. On a started engine, whatever calls one caller makes, the indices
    handed out are the values the counter takes from its value before the
    first call, each the increment of the one before, and the counter ends
    at the value that follows the last of them: nothing but an assignment
    moves the counter, and there are no more indices than calls.  As long as
    the counter stays an [int64_t] these are the consecutive integers from
    the counter's initial value, none given twice and none left out, and the
    counter ends that many above it. *)
Theorem indices_are_consecutive :
  forall (cs : list Call) (w : World Ext),
    state_ (self w) <> kInitializing ->
    exists new : list Event,
      trace (run_calls cs w) = trace w ++ new
      /\ assigned new
         = Zseq64 (next_op_id_index_ (self w)) (List.length (assigned new))
      /\ next_op_id_index_ (self (run_calls cs w))
         = after64 (List.length (assigned new)) (next_op_id_index_ (self w))
      /\ (List.length (assigned new) <= List.length cs)%nat
      /\ (room64 (next_op_id_index_ (self w)) (List.length (assigned new)) ->
          assigned new
          = Zseq (next_op_id_index_ (self w)) (List.length (assigned new))
          /\ next_op_id_index_ (self (run_calls cs w))
             = (next_op_id_index_ (self w)
                + Z.of_nat (List.length (assigned new)))%Z).
Proof.
  intros cs w Hs.
  destruct (@run_calls_consecutive _ _ cs w Hs) as (_ & new & Ht & Ha & Hn).
  exists new. split; [exact Ht |]. split; [exact Ha |]. split; [exact Hn |].
  split.
  { destruct (@run_calls_assigns _ _ cs w) as (new' & Ht' & Hle).
    rewrite Ht in Ht'. apply app_inv_head in Ht'. subst new'. exact Hle. }
  intros Hroom. split.
  - rewrite <- (Zseq64_room Hroom). exact Ha.
  - rewrite Hn. apply after64_room. exact Hroom.
Qed.

Lemma run_call_same_but_trace (c : Call) (w1 w2 : World Ext) :
  same_but_trace w1 w2 ->
  fst (run_call c w1) = fst (run_call c w2)
  /\ same_but_trace (snd (run_call c w1)) (snd (run_call c w2)).
Proof.
  destruct w1 as [s1 r1 e1 t1], w2 as [s2 r2 e2 t2].
  unfold same_but_trace. cbn. intros (-> & -> & ->).
  destruct c; step_m; run_m; repeat split; reflexivity.
Qed.

Lemma query_same_but_trace (q : Call) (w : World Ext) :
  is_query q = true ->
  fst (run_call q w) = Val tt ->
  same_but_trace (snd (run_call q w)) w.
Proof.
  unfold same_but_trace.
  destruct q; cbn [is_query]; try discriminate; intros _; step_m; run_m.
  all: intros _; cbn; repeat split; try reflexivity.
  all: match goal with
       | Hl : lock_ (self ?w) = false |- _ => apply (unlock_after_lock _ Hl)
       end.
Qed.

(** X12. [role], [Quorum], [DumpStatusHtml], [Update], [RequestVote] and
    [Shutdown] leave no mark: after one of them has returned, the engine, the
    rounds and the collaborators are as they were, and any call made next has
    the outcome, and leaves the engine, the rounds and the collaborators in
    the state, that it would have had without it. *)
Theorem queries_leave_no_mark :
  forall (q c : Call) (w : World Ext),
    is_query q = true ->
    fst (run_call q w) = Val tt ->
    same_but_trace (snd (run_call q w)) w
    /\ fst (run_call c (snd (run_call q w))) = fst (run_call c w)
    /\ same_but_trace (snd (run_call c (snd (run_call q w)))) (snd (run_call c w)).
Proof.
  intros q c w Hq Hr.
  pose proof (query_same_but_trace q w Hq Hr) as Hs.
  split; [exact Hs |]. apply run_call_same_but_trace. exact Hs.
Qed.

End FurtherSequences.

Section FurtherMachine.

Context {Ext : Type} {C : Collaborators Ext}.

Lemma thread_step_lock_facts (th : Thread) (w : World Ext) :
  (in_critical_section th = false ->
   in_critical_section (fst (thread_step th w)) = true ->
   lock_ (self w) = false /\ lock_ (self (snd (thread_step th w))) = true)
  /\ (in_critical_section th = in_critical_section (fst (thread_step th w)) ->
      lock_ (self (snd (thread_step th w))) = lock_ (self w))
  /\ (in_critical_section th = true ->
      in_critical_section (fst (thread_step th w)) = false ->
      is_dead (fst (thread_step th w)) = false ->
      lock_ (self (snd (thread_step th w))) = false)
  /\ (out_of_place th = false -> out_of_place (fst (thread_step th w)) = false).
Proof.
  destruct th as [j c clbk]. destruct j as [context | round]; destruct c.
  all: step_t; step_m; run_m.
  all: cbn; repeat split; intros; try discriminate; try reflexivity; try assumption.
Qed.

Lemma step_preserves_mutex (t : nat) (m : @Machine Ext) :
  mutex m -> mutex (step t m).
Proof.
  intros Hinv. pose proof Hinv as (HA & HB). unfold step.
  destruct (crashed m) eqn:Hc; [exact Hinv |].
  destruct (pool m t) as [th|] eqn:Hp; [| exact Hinv].
  clear Hinv.
  pose proof (thread_step_lock_facts th (world m)) as (Fin & Fsame & _ & _).
  destruct (thread_step th (world m)) as [th' w']. cbn [fst snd] in *.
  change {| world := w';
            pool := fun u => if Nat.eqb u t then Some th' else pool m u;
            crashed := is_dead th' |} with (moved m t th' w').
  split.
  - intros u1 u2 th1 th2 H1 H2 Hcs1 Hcs2.
    destruct (Nat.eq_dec u1 t) as [-> | Hne1]; destruct (Nat.eq_dec u2 t) as [-> | Hne2];
      try reflexivity.
    + rewrite pool_moved_same in H1. inversion H1; subst th1.
      rewrite pool_moved_other in H2 by assumption.
      destruct (in_critical_section th) eqn:Hcs.
      * symmetry. exact (HA u2 t th2 th H2 Hp Hcs2 Hcs).
      * destruct (Fin eq_refl Hcs1) as [Hfree _].
        pose proof (HB u2 th2 H2 Hcs2). congruence.
    + rewrite pool_moved_same in H2. inversion H2; subst th2.
      rewrite pool_moved_other in H1 by assumption.
      destruct (in_critical_section th) eqn:Hcs.
      * exact (HA u1 t th1 th H1 Hp Hcs1 Hcs).
      * destruct (Fin eq_refl Hcs2) as [Hfree _].
        pose proof (HB u1 th1 H1 Hcs1). congruence.
    + rewrite pool_moved_other in H1, H2 by assumption.
      exact (HA u1 u2 th1 th2 H1 H2 Hcs1 Hcs2).
  - intros u thu Hu Hcsu. cbn [world moved].
    destruct (Nat.eq_dec u t) as [-> | Hne].
    + rewrite pool_moved_same in Hu. inversion Hu; subst thu.
      destruct (in_critical_section th) eqn:Hcs.
      * rewrite Fsame by congruence. exact (HB t th Hp Hcs).
      * apply Fin; [reflexivity | exact Hcsu].
    + rewrite pool_moved_other in Hu by assumption.
      pose proof (HB u thu Hu Hcsu) as Hl.
      destruct (in_critical_section th) eqn:Hcs.
      * exfalso. apply Hne. exact (HA u t thu th Hu Hp Hcsu Hcs).
      * destruct (in_critical_section th') eqn:Hcs'.
        -- destruct (Fin eq_refl eq_refl) as [Hfree _]. congruence.
        -- rewrite Fsame by reflexivity. exact Hl.
Qed.

Lemma step_preserves_lock_inv (t : nat) (m : @Machine Ext) :
  lock_inv m -> lock_inv (step t m).
Proof.
  intros Hinv. pose proof Hinv as (Hmx & HC & HD).
  split; [apply step_preserves_mutex; exact Hmx |].
  pose proof Hmx as (HA & HB). unfold step.
  destruct (crashed m) eqn:Hc; [exact (proj2 Hinv) |].
  destruct (pool m t) as [th|] eqn:Hp; [| exact (proj2 Hinv)].
  clear Hinv.
  pose proof (thread_step_lock_facts th (world m)) as (Fin & Fsame & Fout & Fplace).
  destruct (thread_step th (world m)) as [th' w']. cbn [fst snd] in *.
  change {| world := w';
            pool := fun u => if Nat.eqb u t then Some th' else pool m u;
            crashed := is_dead th' |} with (moved m t th' w').
  split.
  - cbn [crashed moved world]. intros Hd Hl.
    destruct (in_critical_section th') eqn:Hcs'.
    + exists t, th'. split; [apply pool_moved_same | exact Hcs'].
    + destruct (in_critical_section th) eqn:Hcs.
      * rewrite (Fout eq_refl eq_refl Hd) in Hl. discriminate.
      * rewrite Fsame in Hl by reflexivity.
        destruct (HC eq_refl Hl) as (u & thu & Hu & Hcsu).
        exists u, thu. split; [| exact Hcsu].
        rewrite pool_moved_other; [exact Hu |]. intros ->. congruence.
  - cbn [crashed moved]. intros Hd u thu Hu.
    destruct (Nat.eq_dec u t) as [-> | Hne].
    + rewrite pool_moved_same in Hu. inversion Hu; subst thu.
      split; [exact Hd |]. apply Fplace. exact (proj2 (HD eq_refl t th Hp)).
    + rewrite pool_moved_other in Hu by assumption. exact (HD eq_refl u thu Hu).
Qed.

Lemma run_preserves_mutex (schedule : list nat) (m : @Machine Ext) :
  mutex m -> mutex (run schedule m).
Proof.
  revert m. induction schedule as [|t schedule IH]; intros m Hinv; cbn.
  - exact Hinv.
  - apply IH. apply step_preserves_mutex. exact Hinv.
Qed.

Lemma run_preserves_lock_inv (schedule : list nat) (m : @Machine Ext) :
  lock_inv m -> lock_inv (run schedule m).
Proof.
  revert m. induction schedule as [|t schedule IH]; intros m Hinv; cbn.
  - exact Hinv.
  - apply IH. apply step_preserves_lock_inv. exact Hinv.
Qed.

Lemma spawn_thread (jobs : list Job) (w : World Ext) (t : nat) (th : Thread) :
  pool (spawn jobs w) t = Some th ->
  control th = AtEntry.
Proof.
  cbn. destruct (nth_error jobs t) as [j|]; [| discriminate].
  intros H; inversion H; reflexivity.
Qed.

Lemma spawn_mutex (jobs : list Job) (w : World Ext) : mutex (spawn jobs w).
Proof.
  assert (Hout : forall t th, pool (spawn jobs w) t = Some th ->
                              in_critical_section th = false).
  { intros t th Hp. apply spawn_thread in Hp.
    unfold in_critical_section. rewrite Hp. destruct (job th); reflexivity. }
  split.
  - intros t1 t2 th1 th2 H1 _ Hcs1. rewrite (Hout t1 th1 H1) in Hcs1. discriminate.
  - intros t th Hp Hcs. rewrite (Hout t th Hp) in Hcs. discriminate.
Qed.

Lemma spawn_lock_inv (jobs : list Job) (w : World Ext) :
  lock_ (self w) = false -> lock_inv (spawn jobs w).
Proof.
  intros Hl. split; [apply spawn_mutex | split].
  - cbn. intros _ Hl'. congruence.
  - intros _ t th Hp. apply spawn_thread in Hp.
    unfold is_dead, out_of_place. rewrite Hp. destruct (job th); split; reflexivity.
Qed.

(** X13. Mutual exclusion.  However the threads are scheduled, and whatever
    the engine, the rounds and the collaborators are, at no moment are two
    threads between the acquisition of the lock and its release, and a thread
    that is there finds the lock taken. *)
Theorem mutual_exclusion :
  forall (jobs : list Job) (w : World Ext) (schedule : list nat),
    (forall t1 t2 th1 th2,
        pool (run schedule (spawn jobs w)) t1 = Some th1 ->
        pool (run schedule (spawn jobs w)) t2 = Some th2 ->
        in_critical_section th1 = true -> in_critical_section th2 = true ->
        t1 = t2)
    /\ (forall t th,
           pool (run schedule (spawn jobs w)) t = Some th ->
           in_critical_section th = true ->
           lock_ (self (world (run schedule (spawn jobs w)))) = true).
Proof.
  intros jobs w schedule.
  exact (run_preserves_mutex schedule (spawn_mutex jobs w)).
Qed.

Lemma thread_moves (th : Thread) (w : World Ext) :
  is_dead th = false ->
  out_of_place th = false ->
  (forall s, control th <> Finished s) ->
  (control th = AtLock -> lock_ (self w) = false) ->
  control (fst (thread_step th w)) <> control th.
Proof.
  destruct th as [j c clbk]. destruct j as [context | round]; destruct c.
  all: cbn [is_dead out_of_place job control]; intros Hd Hp Hf Hl;
    try discriminate; try (exfalso; eapply Hf; reflexivity).
  all: try specialize (Hl eq_refl).
  all: step_t; step_m; run_m; cbn; try discriminate; try congruence.
Qed.

(** X14. No deadlock.  Started with the lock free, the machine never gets
    stuck while the process lives: as long as some thread has not returned
    from its call, there is a thread whose next move takes it further. *)
Theorem no_deadlock :
  forall (jobs : list Job) (w : World Ext) (schedule : list nat) (t : nat) (th : Thread),
    lock_ (self w) = false ->
    crashed (run schedule (spawn jobs w)) = false ->
    pool (run schedule (spawn jobs w)) t = Some th ->
    (forall s, control th <> Finished s) ->
    exists (t' : nat) (th' : Thread),
      pool (run schedule (spawn jobs w)) t' = Some th'
      /\ control (fst (thread_step th' (world (run schedule (spawn jobs w)))))
         <> control th'.
Proof.
  intros jobs w schedule t th Hl Hc Hp Hf.
  pose proof (run_preserves_lock_inv schedule (spawn_lock_inv jobs w Hl))
    as ((HA & HB) & HC & HD).
  set (m := run schedule (spawn jobs w)) in *.
  destruct (HD Hc t th Hp) as [Hd Hpl].
  destruct (lock_ (self (world m))) eqn:Hlock.
  - destruct (HC Hc eq_refl) as (u & thu & Hu & Hcsu).
    exists u, thu. split; [exact Hu |].
    destruct (HD Hc u thu Hu) as [Hdu Hplu].
    apply thread_moves; try assumption.
    + intros s Hs. unfold in_critical_section in Hcsu. rewrite Hs in Hcsu.
      destruct (job thu); discriminate.
    + intros Hs. unfold in_critical_section in Hcsu. rewrite Hs in Hcsu.
      destruct (job thu); discriminate.
  - exists t, th. split; [exact Hp |].
    apply thread_moves; try assumption. intros _. exact Hlock.
Qed.

Lemma bracketed_app (a b : list Event) (held : bool) :
  bracketed held (a ++ b)
  = match bracketed held a with
    | Some held' => bracketed held' b
    | None => None
    end.
Proof.
  revert held. induction a as [|e a IH]; intros held; [reflexivity |].
  destruct e, held; cbn; try apply IH; reflexivity.
Qed.

Lemma thread_step_bracketed (th : Thread) (w : World Ext) :
  (in_critical_section th = true -> lock_ (self w) = true) ->
  exists evs : list Event,
    trace (snd (thread_step th w)) = trace w ++ evs
    /\ bracketed (lock_ (self w)) evs = Some (lock_ (self (snd (thread_step th w)))).
Proof.
  destruct th as [j c clbk]. destruct j as [context | round]; destruct c.
  all: cbn [in_critical_section job control]; intros Hl;
    first [ specialize (Hl eq_refl) | clear Hl ].
  all: step_t; step_m; run_m.
  all: eexists; split;
    [ rewrite <- ?app_assoc; first [ reflexivity | symmetry; apply app_nil_r ]
    | cbn; try match goal with
                            | H : lock_ _ = _ |- _ => rewrite ?H
                            end; reflexivity ].
Qed.

Lemma step_preserves_record (w0 : World Ext) (t : nat) (m : @Machine Ext) :
  mutex m -> record_in_order w0 m -> record_in_order w0 (step t m).
Proof.
  intros [_ HB] (evs & Ht & Hb). unfold step.
  destruct (crashed m); [exists evs; split; assumption |].
  destruct (pool m t) as [th|] eqn:Hp; [| exists evs; split; assumption].
  destruct (thread_step_bracketed th (world m) (HB t th Hp)) as (evs' & Ht' & Hb').
  destruct (thread_step th (world m)) as [th' w']. cbn [fst snd world] in *.
  exists (evs ++ evs'). cbn [world]. split.
  - rewrite Ht', Ht, app_assoc. reflexivity.
  - rewrite bracketed_app, Hb. exact Hb'.
Qed.

Lemma run_preserves_record (w0 : World Ext) (schedule : list nat) (m : @Machine Ext) :
  mutex m -> record_in_order w0 m -> record_in_order w0 (run schedule m).
Proof.
  revert m. induction schedule as [|t schedule IH]; intros m Hm Hr; cbn.
  - exact Hr.
  - apply IH; [apply step_preserves_mutex; exact Hm |].
    apply step_preserves_record; assumption.
Qed.

(** X15. The record of any run of the machine is in order.  Whatever the
    schedule, between the start and any later moment the lock is taken only
    when it is free and given back only when it is taken, and every
    assignment of an index and every request for a slot of the log falls
    between an acquisition and the release that follows it; the record ends
    with the lock in the state the engine says it is in. *)
Theorem record_is_bracketed :
  forall (jobs : list Job) (w : World Ext) (schedule : list nat),
  exists evs : list Event,
    trace (world (run schedule (spawn jobs w))) = trace w ++ evs
    /\ bracketed (lock_ (self w)) evs
       = Some (lock_ (self (world (run schedule (spawn jobs w))))).
Proof.
  intros jobs w schedule.
  apply (run_preserves_record (w0 := w) schedule (spawn_mutex jobs w)).
  exists []. split; [symmetry; apply app_nil_r | reflexivity].
Qed.

End FurtherMachine.

Section FurtherBootstrap.

Context {Ext : Type} {C : Collaborators Ext}.

Lemma Start_on_constructed (info : ConsensusBootstrapInfo) (w : World Ext) :
  state_ (self w) = kInitializing ->
  lock_ (self w) = false ->
  VerifyQuorum (committed w) = OK ->
  exists new : list Event,
    trace (snd (run_call (CallStart info) w)) = trace w ++ new
    /\ assigned new = []
    /\ (fst (run_call (CallStart info) w) = Val tt ->
        state_ (self (snd (run_call (CallStart info) w))) = kRunning
        /\ next_op_id_index_ (self (snd (run_call (CallStart info) w)))
           = add64 (index (last_id info)) 1).
Proof.
  unfold committed. intros Hs Hl Hv. step_m. rewrite Hs.
  change (State_eqb kInitializing kInitializing) with true. cbn.
  rewrite Hl. cbn. rewrite ?Hv. run_m.
  all: try congruence.
  all: rewrite <- ?app_assoc; eexists;
    (split; [first [ reflexivity | symmetry; apply app_nil_r ] |]);
    (split; [reflexivity |]); intros H; try discriminate H; split; reflexivity.
Qed.

(** X16. From the constructor on.  On an engine just constructed over a
    committed quorum the validator accepts, a caller who starts it with the
    bootstrap information [info] and then makes whatever calls is handed the
    values the counter takes from the one [Start] has set, the increment of
    the last index of [info], whatever was done in between; if [Start]
    returned, the counter ends at the value that follows the last of them.
    There are no more indices than calls after [Start].  As long as the
    counter stays an [int64_t] these are the consecutive
    integers from [index (last_id info) + 1], and the counter ends above that
    value by the number of indices handed out. *)
Theorem indices_follow_the_bootstrap :
  forall (cmeta : ConsensusMetadataPB) (peer_uuid : string)
         (rs : RoundPtr -> option ConsensusRound) (e : Ext)
         (info : ConsensusBootstrapInfo) (cs : list Call),
    VerifyQuorum (committed_quorum cmeta) = OK ->
    assigned (trace (run_calls (CallStart info :: cs) (constructed cmeta peer_uuid rs e)))
    = Zseq64 (add64 (index (last_id info)) 1)
        (List.length
           (assigned (trace (run_calls (CallStart info :: cs)
                               (constructed cmeta peer_uuid rs e)))))
    /\ (fst (run_call (CallStart info) (constructed cmeta peer_uuid rs e)) = Val tt ->
        next_op_id_index_
          (self (run_calls (CallStart info :: cs) (constructed cmeta peer_uuid rs e)))
        = after64
            (List.length
               (assigned (trace (run_calls (CallStart info :: cs)
                                   (constructed cmeta peer_uuid rs e)))))
            (add64 (index (last_id info)) 1))
    /\ (List.length
          (assigned (trace (run_calls (CallStart info :: cs)
                              (constructed cmeta peer_uuid rs e))))
        <= List.length cs)%nat
    /\ (room64 (index (last_id info))
          (S (List.length
                (assigned (trace (run_calls (CallStart info :: cs)
                                    (constructed cmeta peer_uuid rs e)))))) ->
        assigned (trace (run_calls (CallStart info :: cs)
                           (constructed cmeta peer_uuid rs e)))
        = Zseq (index (last_id info) + 1)
            (List.length
               (assigned (trace (run_calls (CallStart info :: cs)
                                   (constructed cmeta peer_uuid rs e)))))
        /\ (fst (run_call (CallStart info) (constructed cmeta peer_uuid rs e)) = Val tt ->
            next_op_id_index_
              (self (run_calls (CallStart info :: cs)
                       (constructed cmeta peer_uuid rs e)))
            = (index (last_id info) + 1
               + Z.of_nat
                   (List.length
                      (assigned (trace (run_calls (CallStart info :: cs)
                                          (constructed cmeta peer_uuid rs e))))))%Z)).
Proof.
  intros cmeta peer_uuid rs e info cs Hv.
  set (w := constructed cmeta peer_uuid rs e).
  assert (Hmain :
    assigned (trace (run_calls (CallStart info :: cs) w))
    = Zseq64 (add64 (index (last_id info)) 1)
        (List.length (assigned (trace (run_calls (CallStart info :: cs) w))))
    /\ (fst (run_call (CallStart info) w) = Val tt ->
        next_op_id_index_ (self (run_calls (CallStart info :: cs) w))
        = after64 (List.length (assigned (trace (run_calls (CallStart info :: cs) w))))
            (add64 (index (last_id info)) 1))
    /\ (List.length (assigned (trace (run_calls (CallStart info :: cs) w)))
        <= List.length cs)%nat).
  { destruct (@Start_on_constructed info w eq_refl eq_refl Hv)
      as (new & Ht & Ha & Hrun).
    change (trace w) with (@nil Event) in Ht. cbn [app] in Ht.
    cbn [run_calls].
    destruct (run_call (CallStart info) w) as [r w1]; cbn [fst snd] in *.
    destruct r as [[]| | |].
    - destruct (Hrun eq_refl) as [Hs Hn].
      assert (Hs' : state_ (self w1) <> kInitializing) by (rewrite Hs; discriminate).
      destruct (@run_calls_consecutive _ _ cs w1 Hs') as (_ & new2 & Ht2 & Ha2 & Hn2).
      rewrite Ht2, Ht, assigned_app, Ha. cbn [app].
      rewrite <- Hn. split; [exact Ha2 | split; [intros _; exact Hn2 |]].
      destruct (@run_calls_assigns _ _ cs w1) as (new3 & Ht3 & Hle).
      rewrite Ht2 in Ht3. apply app_inv_head in Ht3. subst new3. exact Hle.
    - rewrite Ht, Ha. split; [reflexivity | split; [discriminate | cbn; lia]].
    - rewrite Ht, Ha. split; [reflexivity | split; [discriminate | cbn; lia]].
    - rewrite Ht, Ha. split; [reflexivity | split; [discriminate | cbn; lia]]. }
  destruct Hmain as (Ha & Hn & Hle).
  split; [exact Ha |]. split; [exact Hn |]. split; [exact Hle |].
  intros [Hlo Hhi].
  assert (Hstart : add64 (index (last_id info)) 1 = (index (last_id info) + 1)%Z)
    by (apply add64_1_small; lia).
  assert (Hroom : room64 (index (last_id info) + 1)
                    (List.length
                       (assigned (trace (run_calls (CallStart info :: cs) w)))))
    by (split; lia).
  split.
  - rewrite <- (Zseq64_room Hroom), <- Hstart. exact Ha.
  - intros Hret. rewrite (Hn Hret), Hstart. apply after64_room. exact Hroom.
Qed.

End FurtherBootstrap.

Section FurtherNullOperation.

Context {Ext : Type} {C : Collaborators Ext}.

(** X17. [Commit] on a round that has no commit operation.  A build with
    [DCHECK]s aborts on [DCHECK_NOTNULL], before anything is done.  A build
    without them passes the null pointer on: the callback is taken out of
    the round, and the process then dies on the first use of the operation,
    before the lock is taken and before the log is called. *)
Theorem Commit_without_commit_operation :
  forall (round : RoundPtr) (w : World Ext) (r : ConsensusRound),
    rounds w round = Some r ->
    commit_op_ r = None ->
    (dchecks = true ->
     Commit round w = (Abort "Check failed: 'p' Must be non NULL", w))
    /\ (dchecks = false ->
        fst (Commit round w) = Abort "null pointer dereference"
        /\ rounds (snd (Commit round w)) round
           = Some (snd (release_commit_callback r))
        /\ self (snd (Commit round w)) = self w
        /\ ext (snd (Commit round w)) = ext w
        /\ trace (snd (Commit round w))
           = trace w ++ [EvReleaseCommitCallback (commit_callback_ r)]).
Proof.
  intros round w r Hr Hop. split; intros Hd.
  - step_m. exec. reflexivity.
  - step_m. exec. rewrite ?Nat.eqb_refl. repeat split; reflexivity.
Qed.

End FurtherNullOperation.

(** * Witnesses of the further properties *)

Lemma Start_only_once_witness :
  fst (Start (C := Sim.debug_build) (Sim.bootstrap 9) Sim.seq5_world) = Val OK
  /\ Start (C := Sim.debug_build) (Sim.bootstrap 3)
       (snd (Start (C := Sim.debug_build) (Sim.bootstrap 9) Sim.seq5_world))
     = (Abort "Check failed: state_ == kInitializing",
        snd (Start (C := Sim.debug_build) (Sim.bootstrap 9) Sim.seq5_world)).
Proof.
  split; [reflexivity |].
  destruct (@Start_only_once Sim.Ext Sim.debug_build (Sim.bootstrap 9) (Sim.bootstrap 3)
              Sim.seq5_world OK eq_refl)
    as [(_ & _ & Hne) | [_ H]].
  - exfalso. apply Hne. reflexivity.
  - exact H.
Defined.

Lemma PersistQuorum_flush_failure_witness :
  fst (PersistQuorum (C := Sim.debug_build) (Sim.local_quorum 6) Sim.broken_disk_world)
    = Val (Err StorageError "flush failed")
  /\ committed (snd (PersistQuorum (C := Sim.debug_build) (Sim.local_quorum 6)
                       Sim.broken_disk_world))
     = Sim.local_quorum 6
  /\ fst (PersistQuorum (C := Sim.debug_build) (Sim.local_quorum 6)
            (snd (PersistQuorum (C := Sim.debug_build) (Sim.local_quorum 6)
                    Sim.broken_disk_world)))
     = Abort "Quorum seqnos not monotonic".
Proof.
  destruct (@PersistQuorum_flush_failure Sim.Ext Sim.debug_build (Sim.local_quorum 6)
              Sim.broken_disk_world StorageError "flush failed" eq_refl eq_refl)
    as (Hres & Hc & _ & Hagain).
  - cbn. lia.
  - reflexivity.
  - split; [exact Hres | split; [exact Hc | exact Hagain]].
Defined.

Lemma PersistQuorum_then_Quorum_witness :
  fst (Quorum (snd (PersistQuorum (C := Sim.debug_build) (Sim.local_quorum 6)
                      Sim.seq5_world)))
    = Val (Sim.local_quorum 6)
  /\ fst (role (snd (PersistQuorum (C := Sim.debug_build) (Sim.local_quorum 6)
                       Sim.seq5_world)))
     = Val FOLLOWER.
Proof.
  destruct (@PersistQuorum_then_Quorum Sim.Ext Sim.debug_build (Sim.local_quorum 6)
              Sim.seq5_world eq_refl eq_refl)
    as (Hq & Hrole).
  - cbn. lia.
  - split; [exact Hq |]. exact (Hrole Sim.this_peer [] eq_refl).
Defined.

Lemma single_caller_never_spins_witness :
  lock_ (self Sim.unstarted_world) = false
  /\ all_return (C := Sim.debug_build) Sim.a_session Sim.unstarted_world
  /\ never_spins (C := Sim.debug_build) Sim.a_session Sim.unstarted_world
  /\ lock_ (self (run_calls (C := Sim.debug_build) Sim.a_session Sim.unstarted_world))
     = false.
Proof.
  assert (Hall : all_return (C := Sim.debug_build) Sim.a_session Sim.unstarted_world)
    by (vm_compute; exact I).
  destruct (@single_caller_never_spins Sim.Ext Sim.debug_build Sim.a_session
              Sim.unstarted_world eq_refl) as [Hns Hfree].
  split; [reflexivity |]. split; [exact Hall |]. split; [exact Hns |].
  exact (Hfree Hall).
Defined.

Lemma calls_on_a_taken_lock_witness :
  lock_ (self Sim.locked_world) = true
  /\ run_call (C := Sim.debug_build) CallQuorum Sim.locked_world
     = (Spin, Sim.locked_world).
Proof.
  split; [reflexivity |].
  exact (proj2 (@calls_on_a_taken_lock Sim.Ext Sim.debug_build CallQuorum
                  Sim.locked_world eq_refl)).
Defined.

Lemma Commit_success_witness :
  fst (Commit (C := Sim.debug_build) 2%nat Sim.ready_world) = Val OK
  /\ self (snd (Commit (C := Sim.debug_build) 2%nat Sim.ready_world))
     = self Sim.ready_world
  /\ exists (op : OperationPB) (slot : LogEntryBatch),
       trace (snd (Commit (C := Sim.debug_build) 2%nat Sim.ready_world))
       = trace Sim.ready_world ++
           [EvReleaseCommitCallback (Some 31%nat);
            EvByteSize op;
            EvLock;
            EvReserve COMMIT [op] OK;
            EvUnlock;
            EvAsyncAppend slot (FutureStatusCallback 31%nat) OK].
Proof.
  split; [reflexivity |].
  destruct (@Commit_success Sim.Ext Sim.debug_build 2%nat Sim.ready_world
              (snd (Commit (C := Sim.debug_build) 2%nat Sim.ready_world)) eq_refl)
    as (r & op & cb & slot & Hr & _ & Hcb & _ & Hself & _ & Htr).
  split; [exact Hself |].
  exists op, slot.
  assert (Hcb' : cb = 31%nat).
  { cbn in Hr. inversion Hr; subst r. cbn in Hcb. inversion Hcb. reflexivity. }
  rewrite <- Hcb'. exact Htr.
Defined.

Lemma Replicate_append_failure_witness :
  fst (Replicate (C := Sim.lossy_build) 0%nat Sim.ready_world)
    = Val (Err StorageError "append refused")
  /\ next_op_id_index_ (self (snd (Replicate (C := Sim.lossy_build) 0%nat Sim.ready_world)))
     = 11%Z
  /\ lock_ (self (snd (Replicate (C := Sim.lossy_build) 0%nat Sim.ready_world))) = false.
Proof.
  destruct (@Replicate_append_failure Sim.Ext Sim.lossy_build 0%nat Sim.ready_world
              (Sim.write_round "a" 10)
              {| id := None; replicate := Some "a"%string; commit := None |}
              10%nat 0%nat
              (snd (Sim.Reserve
                 [stamped 10 {| id := None; replicate := Some "a"%string; commit := None |}]
                 Sim.fresh_ext))
              StorageError "append refused" eq_refl eq_refl eq_refl eq_refl)
    as (Hres & _ & Hn & Hl & _).
  - intros _. reflexivity.
  - reflexivity.
  - reflexivity.
  - split; [exact Hres | split; [| exact Hl]].
    apply Hn. split; [discriminate | reflexivity].
Defined.

Lemma indices_are_consecutive_witness :
  state_ (self Sim.ready_world) <> kInitializing
  /\ exists new : list Event,
       trace (run_calls (C := Sim.debug_build)
                [CallReplicate 0%nat; CallCommit 0%nat; CallReplicate 1%nat;
                 CallQuorum; CallReplicate 2%nat] Sim.ready_world)
       = trace Sim.ready_world ++ new
       /\ room64 10 (List.length (assigned new))
       /\ assigned new = Zseq 10 (List.length (assigned new))
       /\ next_op_id_index_
            (self (run_calls (C := Sim.debug_build)
                     [CallReplicate 0%nat; CallCommit 0%nat; CallReplicate 1%nat;
                      CallQuorum; CallReplicate 2%nat] Sim.ready_world))
          = (10 + Z.of_nat (List.length (assigned new)))%Z.
Proof.
  assert (Hs : state_ (self Sim.ready_world) <> kInitializing) by discriminate.
  split; [exact Hs |].
  destruct (@indices_are_consecutive Sim.Ext Sim.debug_build
              [CallReplicate 0%nat; CallCommit 0%nat; CallReplicate 1%nat;
               CallQuorum; CallReplicate 2%nat] Sim.ready_world Hs)
    as (new & Htr & _ & _ & Hle & Hroom).
  assert (Hr : room64 10 (List.length (assigned new))).
  { apply (room64_le Hle). split; [discriminate | vm_compute; discriminate]. }
  exists new. split; [exact Htr |]. split; [exact Hr |]. exact (Hroom Hr).
Defined.

Lemma queries_leave_no_mark_witness :
  fst (run_call (C := Sim.debug_build) CallQuorum Sim.ready_world) = Val tt
  /\ same_but_trace (snd (run_call (C := Sim.debug_build) CallQuorum Sim.ready_world))
       Sim.ready_world
  /\ fst (run_call (C := Sim.debug_build) (CallReplicate 0%nat)
            (snd (run_call (C := Sim.debug_build) CallQuorum Sim.ready_world)))
     = fst (run_call (C := Sim.debug_build) (CallReplicate 0%nat) Sim.ready_world).
Proof.
  split; [reflexivity |].
  destruct (@queries_leave_no_mark Sim.Ext Sim.debug_build CallQuorum
              (CallReplicate 0%nat) Sim.ready_world eq_refl eq_refl)
    as (Hsame & Hres & _).
  split; [exact Hsame | exact Hres].
Defined.

Lemma no_deadlock_witness :
  pool (run (C := Sim.debug_build) Sim.contended
          (spawn Sim.three_jobs Sim.ready_world)) 1%nat
  = Some {| job := JobReplicate 1%nat; control := AtLock; commit_clbk := None |}
  /\ lock_ (self (world (run (C := Sim.debug_build) Sim.contended
                           (spawn Sim.three_jobs Sim.ready_world)))) = true
  /\ exists (t' : nat) (th' : Thread),
       pool (run (C := Sim.debug_build) Sim.contended
               (spawn Sim.three_jobs Sim.ready_world)) t' = Some th'
       /\ control (fst (thread_step (C := Sim.debug_build) th'
                          (world (run (C := Sim.debug_build) Sim.contended
                                    (spawn Sim.three_jobs Sim.ready_world)))))
          <> control th'.
Proof.
  split; [reflexivity |]. split; [reflexivity |].
  apply (@no_deadlock Sim.Ext Sim.debug_build Sim.three_jobs Sim.ready_world
           Sim.contended 1%nat
           {| job := JobReplicate 1%nat; control := AtLock; commit_clbk := None |}
           eq_refl eq_refl eq_refl).
  intros s. discriminate.
Defined.

Lemma indices_follow_the_bootstrap_witness :
  VerifyQuorum (Collaborators := Sim.debug_build)
    (committed_quorum {| committed_quorum := Sim.local_quorum 5 |}) = OK
  /\ assigned (trace (run_calls (C := Sim.debug_build) Sim.a_session Sim.unstarted_world))
     = Zseq 10
         (List.length
            (assigned (trace (run_calls (C := Sim.debug_build) Sim.a_session
                                Sim.unstarted_world))))
  /\ next_op_id_index_
       (self (run_calls (C := Sim.debug_build) Sim.a_session Sim.unstarted_world))
     = 12%Z.
Proof.
  split; [reflexivity |].
  destruct (@indices_follow_the_bootstrap Sim.Ext Sim.debug_build
              {| committed_quorum := Sim.local_quorum 5 |} "peer-a"
              Sim.three_rounds Sim.fresh_ext (Sim.bootstrap 9)
              [CallReplicate 0%nat; CallCommit 0%nat;
               CallPersistQuorum (Sim.local_quorum 7); CallQuorum; CallReplicate 1%nat]
              eq_refl)
    as (_ & _ & _ & Hroom).
  destruct Hroom as [Ha Hn].
  - split; [discriminate | vm_compute; discriminate].
  - split; [exact Ha |].
    exact (eq_trans (Hn eq_refl) eq_refl).
Defined.

Lemma Commit_without_commit_operation_witness :
  fst (Commit (C := Sim.release_build) 0%nat Sim.null_commit_world)
    = Abort "null pointer dereference"
  /\ rounds (snd (Commit (C := Sim.release_build) 0%nat Sim.null_commit_world)) 0%nat
     = Some (snd (release_commit_callback Sim.round_without_commit_op))
  /\ trace (snd (Commit (C := Sim.release_build) 0%nat Sim.null_commit_world))
     = trace Sim.null_commit_world ++ [EvReleaseCommitCallback (Some 41%nat)].
Proof.
  destruct (proj2 (@Commit_without_commit_operation Sim.Ext Sim.release_build 0%nat
                     Sim.null_commit_world Sim.round_without_commit_op
                     eq_refl eq_refl) eq_refl)
    as (Hres & Hround & _ & _ & Htr).
  split; [exact Hres | split; [exact Hround | exact Htr]].
Defined.
